(** * ScopeCrawler: member collector and logging wrappers

    A shallow embedding of the JavaScript sources of the repository:
      - the collector with observer hook, child expansion and matcher packs
        (the file that defines [matcherPacks]),
      - the earlier collector [crawler.js],
      - the logging layer [scope-logger.js] (observer based variant).

    JavaScript objects live in a heap indexed by references; a property is a
    data or an accessor descriptor, and a getter or a setter is code of the
    observed program; code that may throw returns an [outcome]; code that
    reads or writes the heap runs in a state-and-exception monad. *)

From Stdlib Require Import ZArith Ascii DecimalString.
From stdpp Require Import gmap strings list.

Set Default Proof Using "Type".
Open Scope string_scope.
Open Scope list_scope.

(** ** Values *)

Definition loc := nat.

Inductive jsval :=
| VUndef
| VNull
| VBool (b : bool)
| VNum (n : Z)
| VStr (s : string)
| VRef (l : loc).

#[global] Instance value_eq_dec : EqDecision jsval.
Proof. solve_decision. Defined.

(** The result of running code: normal completion or a thrown value. *)
Inductive outcome (A : Type) :=
| Ret (a : A)
| Throw (e : jsval).
Arguments Ret {A} a.
Arguments Throw {A} e.

(** [!v] is [negb (truthy v)]. Numbers are modelled as integers. *)
Definition truthy (v : jsval) : bool :=
  match v with
  | VUndef | VNull => false
  | VBool b => b
  | VNum n => negb (n =? 0)%Z
  | VStr s => negb (String.eqb s "")
  | VRef _ => true
  end.

(** [v != null] is [negb (nullish v)]. *)
Definition nullish (v : jsval) : bool :=
  match v with
  | VUndef | VNull => true
  | _ => false
  end.

(** The value thrown by the engine itself (a [TypeError]). *)
Definition TypeError : jsval := VStr "TypeError".

(** ** String tests used by the matchers *)

Definition startsWith (key pat : string) : bool := String.prefix pat key.

Definition endsWith (key pat : string) : bool :=
  String.prefix (String.rev pat) (String.rev key).

Fixpoint includes (key pat : string) : bool :=
  String.prefix pat key ||
  match key with
  | EmptyString => false
  | String _ rest => includes rest pat
  end.

(** ** Observations handed to the logger

    A field that the source leaves out of the object literal is [None]; a
    field that is present with the value [undefined] is [Some VUndef]. *)

Inductive phase := PhCall | PhResolved | PhRejected.

#[global] Instance phase_eq_dec : EqDecision phase.
Proof. solve_decision. Defined.

Record observation := {
  ob_label : string;
  ob_key : string;
  ob_args : list jsval;
  ob_result : option jsval;
  ob_error : option jsval;
  ob_thisArg : jsval;
  ob_phase : phase
}.

(** ** Ambient globals and intrinsics

    [typeof x !== 'undefined'] holds when the binding [x] exists and is not
    [undefined]; a missing binding is modelled by [VUndef]. *)
Record globals := {
  g_globalThis : jsval;
  g_window : jsval;
  g_global : jsval;
  ObjectPrototype : loc;
  FunctionPrototype : loc;
  PromisePrototype : loc
}.

Section Runtime.
Context {W : Type}.

(** ** Functions, properties, promises, objects

    [W] is the state of the program under observation: host functions and
    callbacks read and write it. *)

Definition sink := observation -> W -> outcome jsval * W.

(** The body of a function object: a function of the observed program, or
    the closure that [wrapFunction] installs, with its captured variables
    ([originalFn] is [None] when the captured value cannot be called). *)
#[warnings="-register-all"]
Inductive fnbody :=
| Native (f : jsval -> list jsval -> W -> outcome jsval * W)
| Wrapper (label key : string) (awaitPromises : bool) (logger : sink)
          (originalFn : option fnbody).

(** A getter and a setter are functions of the observed program: each
    read runs the getter, which may change [W], give another value the next
    time, or throw. *)
Inductive prop :=
| Data (v : jsval) (writable enumerable configurable : bool)
| Accessor (get : option (W -> outcome jsval * W))
           (set : option (jsval -> W -> outcome jsval * W))
           (enumerable configurable : bool).

Inductive pstatus :=
| Pending
| Fulfilled (v : jsval)
| Rejected (e : jsval).

(** Variables captured by the two arrow functions of the wrapper. *)
Record logctx := {
  lc_label : string;
  lc_key : string;
  lc_args : list jsval;
  lc_this : jsval;
  lc_logger : sink
}.

(** A reaction registered on a promise by [then] or [catch], with the
    promise that the call returned. *)
Inductive reaction :=
| ThenResolved (c : logctx) (derived : loc)
| CatchRejected (c : logctx) (derived : loc).

Record object := {
  o_proto : option loc;
  o_props : list (string * prop);
  o_call : option fnbody;
  o_promise : option (pstatus * list reaction);
  o_extensible : bool;
  (** [Some e]: listing the own keys throws [e] (a proxy trap). *)
  o_ownKeys_throws : option jsval;
  (** result of converting the object to a string *)
  o_toString : outcome string
}.

Record State := {
  heap : gmap loc object;
  world : W;
  (** [lastIndex] of the regular expression objects, by identity *)
  lastIndex : gmap nat nat;
  (** pending promise jobs, oldest first *)
  jobs : list (reaction * pstatus);
  (** the observations handed to a logger so far *)
  trace : list observation;
  (** the [WeakMap] of the [addLoggingToFunctions] call in progress *)
  wrappedTargets : gmap loc (gset string);
  genv : globals
}.

Definition set_heap (h : gmap loc object) (st : State) : State :=
  {| heap := h; world := world st; lastIndex := lastIndex st; jobs := jobs st;
     trace := trace st; wrappedTargets := wrappedTargets st; genv := genv st |}.
Definition set_world (w : W) (st : State) : State :=
  {| heap := heap st; world := w; lastIndex := lastIndex st; jobs := jobs st;
     trace := trace st; wrappedTargets := wrappedTargets st; genv := genv st |}.
Definition set_lastIndex (li : gmap nat nat) (st : State) : State :=
  {| heap := heap st; world := world st; lastIndex := li; jobs := jobs st;
     trace := trace st; wrappedTargets := wrappedTargets st; genv := genv st |}.
Definition set_jobs (js : list (reaction * pstatus)) (st : State) : State :=
  {| heap := heap st; world := world st; lastIndex := lastIndex st; jobs := js;
     trace := trace st; wrappedTargets := wrappedTargets st; genv := genv st |}.
Definition set_trace (tr : list observation) (st : State) : State :=
  {| heap := heap st; world := world st; lastIndex := lastIndex st; jobs := jobs st;
     trace := tr; wrappedTargets := wrappedTargets st; genv := genv st |}.
Definition set_wrappedTargets (wt : gmap loc (gset string)) (st : State) : State :=
  {| heap := heap st; world := world st; lastIndex := lastIndex st; jobs := jobs st;
     trace := trace st; wrappedTargets := wt; genv := genv st |}.

(** ** The monad of JavaScript code: state and exceptions *)

Definition M (A : Type) : Type := State -> outcome A * State.

Definition ret {A} (a : A) : M A := fun st => (Ret a, st).
Definition throw {A} (e : jsval) : M A := fun st => (Throw e, st).
Definition bind {A B} (m : M A) (k : A -> M B) : M B :=
  fun st =>
    match m st with
    | (Ret a, st') => k a st'
    | (Throw e, st') => (Throw e, st')
    end.
(** [try { m } catch { h }] *)
Definition try_catch {A} (m : M A) (h : jsval -> M A) : M A :=
  fun st =>
    match m st with
    | (Ret a, st') => (Ret a, st')
    | (Throw e, st') => h e st'
    end.
Definition get_state : M State := fun st => (Ret st, st).
Definition modify (f : State -> State) : M unit := fun st => (Ret tt, f st).
(** Code of the observed program: it sees the whole state and writes [W]. *)
Definition user {A} (f : State -> outcome A * W) : M A :=
  fun st => let '(r, w) := f st in (r, set_world w st).

End Runtime.

Arguments fnbody : clear implicits.
Arguments prop : clear implicits.
Arguments reaction : clear implicits.
Arguments logctx : clear implicits.
Arguments object : clear implicits.
Arguments State : clear implicits.
Arguments M : clear implicits.
Arguments sink : clear implicits.

Declare Scope js_scope.
Delimit Scope js_scope with js.
Notation "x <- m ;; k" := (bind m (fun x => k))
  (at level 100, m at next level, right associativity) : js_scope.
Notation "m ;;; k" := (bind m (fun _ => k))
  (at level 100, right associativity) : js_scope.
Open Scope js_scope.

Section HeapOps.
Context {W : Type}.
Implicit Types (st : State W) (v : jsval) (k : string) (l : loc).

(** ** Objects and properties

    The model has no wrapper prototypes ([Number.prototype] and the like): a
    number, boolean or string used where an object is expected behaves as
    an object without properties and without prototype. A reference that
    is not in the heap behaves the same way. *)

Definition typeof st v : string :=
  match v with
  | VUndef => "undefined"
  | VNull => "object"
  | VBool _ => "boolean"
  | VNum _ => "number"
  | VStr _ => "string"
  | VRef l =>
      match heap st !! l with
      | Some o => match o_call o with Some _ => "function" | None => "object" end
      | None => "object"
      end
  end.

Definition is_function st v : bool := String.eqb (typeof st v) "function".

Fixpoint assoc {A} (k : string) (ps : list (string * A)) : option A :=
  match ps with
  | [] => None
  | (k', a) :: rest => if String.eqb k k' then Some a else assoc k rest
  end.

Definition own_prop (h : gmap loc (object W)) l k : option (prop W) :=
  match h !! l with
  | Some o => assoc k (o_props o)
  | None => None
  end.

(** Lookup along the prototype chain. A chain of a heap without cycles is
    no longer than the heap, which bounds the walk. *)
Fixpoint find_prop_from (fuel : nat) (h : gmap loc (object W)) l k : option (prop W) :=
  match fuel with
  | O => None
  | S fuel' =>
      match h !! l with
      | None => None
      | Some o =>
          match assoc k (o_props o) with
          | Some p => Some p
          | None =>
              match o_proto o with
              | Some l' => find_prop_from fuel' h l' k
              | None => None
              end
          end
      end
  end.

Definition find_prop (h : gmap loc (object W)) l k : option (prop W) :=
  find_prop_from (size h) h l k.

Definition of_outcome {A} (r : outcome A) : M W A :=
  match r with
  | Ret a => ret a
  | Throw e => throw e
  end.

(** [v[k]]: a getter found on the object or along its chain is called. *)
Definition get v k : M W jsval :=
  match v with
  | VUndef | VNull => throw TypeError
  | VRef l =>
      st <- get_state;;
      match find_prop (heap st) l k with
      | Some (Data x _ _ _) => ret x
      | Some (Accessor (Some g) _ _ _) => user (fun st => g (world st))
      | Some (Accessor None _ _ _) => ret VUndef
      | None => ret VUndef
      end
  | _ => ret VUndef
  end.

(** [k in v] *)
Definition has_in k v : M W bool :=
  match v with
  | VRef l =>
      st <- get_state;;
      ret (bool_decide (is_Some (find_prop (heap st) l k)))
  | _ => throw TypeError
  end.

(** [Object.getPrototypeOf(v)] *)
Definition getPrototypeOf v : M W jsval :=
  match v with
  | VUndef | VNull => throw TypeError
  | VRef l =>
      st <- get_state;;
      match heap st !! l with
      | Some o => ret (match o_proto o with Some p => VRef p | None => VNull end)
      | None => ret VNull
      end
  | _ => ret VNull
  end.

Definition prop_enumerable (p : prop W) : bool :=
  match p with
  | Data _ _ e _ => e
  | Accessor _ _ e _ => e
  end.

(** Own property names in the order of the engine; [o_props] is kept in
    that order. *)
Definition own_names (enumerable_only : bool) v : M W (list string) :=
  match v with
  | VUndef | VNull => throw TypeError
  | VRef l =>
      st <- get_state;;
      match heap st !! l with
      | Some o =>
          match o_ownKeys_throws o with
          | Some e => throw e
          | None =>
              ret (map fst (filter (fun kp => orb (negb enumerable_only)
                                                  (prop_enumerable (snd kp)) = true)
                                   (o_props o)))
          end
      | None => ret []
      end
  | _ => ret []
  end.

(** [Object.keys(v)] and [Object.getOwnPropertyNames(v)] *)
Definition Object_keys v : M W (list string) := own_names true v.
Definition Object_getOwnPropertyNames v : M W (list string) := own_names false v.

(** [Object.getOwnPropertyDescriptor(v, k)] *)
Definition getOwnPropertyDescriptor v k : M W (option (prop W)) :=
  match v with
  | VUndef | VNull => throw TypeError
  | VRef l => st <- get_state;; ret (own_prop (heap st) l k)
  | _ => ret None
  end.

Fixpoint assoc_set {A} (k : string) (a : A) (ps : list (string * A)) : list (string * A) :=
  match ps with
  | [] => [(k, a)]
  | (k', a') :: rest =>
      if String.eqb k k' then (k, a) :: rest else (k', a') :: assoc_set k a rest
  end.

Definition set_props (ps : list (string * prop W)) (o : object W) : object W :=
  {| o_proto := o_proto o; o_props := ps; o_call := o_call o;
     o_promise := o_promise o; o_extensible := o_extensible o;
     o_ownKeys_throws := o_ownKeys_throws o; o_toString := o_toString o |}.

(** Store a data property on the object itself. *)
Definition define_own l k (p : prop W) : M W unit :=
  modify (fun st =>
    match heap st !! l with
    | Some o => set_heap (<[l := set_props (assoc_set k p (o_props o)) o]> (heap st)) st
    | None => st
    end).

(** [v[k] = x] in strict mode code: a refused assignment throws. *)
Definition assign v k (x : jsval) : M W unit :=
  match v with
  | VUndef | VNull => throw TypeError
  | VRef l =>
      st <- get_state;;
      match heap st !! l with
      | None => throw TypeError
      | Some o =>
          match assoc k (o_props o) with
          | Some (Data _ true e c) => define_own l k (Data x true e c)
          | Some (Data _ false _ _) => throw TypeError
          | Some (Accessor _ (Some s) _ _) => user (fun st => s x (world st));;; ret tt
          | Some (Accessor _ None _ _) => throw TypeError
          | None =>
              match
                match o_proto o with
                | Some p => find_prop (heap st) p k
                | None => None
                end
              with
              | Some (Data _ false _ _) => throw TypeError
              | Some (Accessor _ (Some s) _ _) => user (fun st => s x (world st));;; ret tt
              | Some (Accessor _ None _ _) => throw TypeError
              | _ =>
                  if o_extensible o then define_own l k (Data x true true true)
                  else throw TypeError
              end
          end
      end
  | _ => throw TypeError
  end.

(** A new object gets a reference that is not in use. *)
Definition alloc (o : object W) : M W loc :=
  fun st =>
    let l := fresh (dom (heap st)) in
    (Ret l, set_heap (<[l := o]> (heap st)) st).

Definition plain_object (proto : option loc) (ps : list (string * prop W)) : object W :=
  {| o_proto := proto; o_props := ps; o_call := None; o_promise := None;
     o_extensible := true; o_ownKeys_throws := None;
     o_toString := Ret "[object Object]" |}.

(** [String(v)] *)
Definition to_string v : M W string :=
  match v with
  | VUndef => ret "undefined"
  | VNull => ret "null"
  | VBool true => ret "true"
  | VBool false => ret "false"
  | VNum n => ret (NilZero.string_of_int (Z.to_int n))
  | VStr s => ret s
  | VRef l =>
      st <- get_state;;
      match heap st !! l with
      | Some o => of_outcome (o_toString o)
      | None => ret "[object Object]"
      end
  end.

End HeapOps.

(** ** Regular expression objects

    A pattern is given by its anchored matcher: [rx_match_at s i] is the end
    of the match of the pattern in [s] starting exactly at index [i]. The
    object is identified by [rx_id]; its [lastIndex] is in the state. A
    caller may shadow the built-in [test] or the built-in [exec] by a
    function of its own, and may have made [lastIndex] read-only (a frozen
    object). *)

Section RegExps.
Context {W : Type}.

Record RegExp := {
  rx_id : nat;
  rx_match_at : string -> nat -> option nat;
  rx_global : bool;
  rx_sticky : bool;
  rx_lastIndex_writable : bool;
  rx_test : option (string -> State W -> outcome jsval * W);
  (** the member [exec] that the built-in [test] finds, when it is not the
      built-in one *)
  rx_exec : option (string -> State W -> outcome jsval * W)
}.

Definition rx_lastIndex (r : RegExp) (st : State W) : nat :=
  default 0 (lastIndex st !! rx_id r).

(** [r.lastIndex = n] in strict mode code *)
Definition rx_set_lastIndex (r : RegExp) (n : nat) : M W unit :=
  if rx_lastIndex_writable r
  then modify (fun st => set_lastIndex (<[rx_id r := n]> (lastIndex st)) st)
  else throw TypeError.

(** Try the positions [i], [i+1], ... of the string; a sticky pattern tries
    [i] only. *)
Fixpoint rx_search (m : nat -> option nat) (sticky : bool) (i fuel : nat) : option nat :=
  match m i with
  | Some e => Some e
  | None =>
      if sticky then None
      else match fuel with
           | O => None
           | S fuel' => rx_search m sticky (S i) fuel'
           end
  end.

(** The built-in [RegExp.prototype.test] over the built-in [exec]. *)
Definition rx_builtin_test (r : RegExp) (s : string) : M W bool :=
  st <- get_state;;
  let stateful := rx_global r || rx_sticky r in
  let start := if stateful then rx_lastIndex r st else 0 in
  let fail := (if stateful then rx_set_lastIndex r 0 else ret tt);;; ret false in
  if (String.length s <? start)%nat then fail
  else
    match rx_search (rx_match_at r s) (rx_sticky r) start (String.length s - start) with
    | None => fail
    | Some e => (if stateful then rx_set_lastIndex r e else ret tt);;; ret true
    end.

(** [r.test(s)], used as a condition. The built-in [test] calls the member
    [exec] of the pattern when it is callable; its result must be an object
    or [null]. *)
Definition RegExp_test (r : RegExp) (s : string) : M W bool :=
  match rx_test r with
  | Some f => v <- user (f s);; ret (truthy v)
  | None =>
      match rx_exec r with
      | Some exec =>
          v <- user (exec s);;
          match v with
          | VNull => ret false
          | VRef _ => ret true
          | _ => throw TypeError
          end
      | None => rx_builtin_test r s
      end
  end.

(** ** Matchers *)

Inductive mvalue :=
| MString (s : string)
| MRegExp (r : RegExp)
| MFunction (p : string -> jsval -> jsval -> State W -> outcome jsval * W)
| MOther (v : jsval).

Record Matcher := {
  m_type : string;
  m_value : mvalue;
  m_transform : option (string -> jsval -> mvalue -> State W -> outcome jsval * W)
}.

(** The record handed to [onMatch]. *)
Record match_info := {
  mi_key : string;
  mi_value : jsval;
  mi_source : jsval;
  mi_matcher : Matcher;
  mi_transformed : jsval
}.

(** [defaults] and [extra]: one value or an array of values. *)
Inductive seeds :=
| SeedValue (v : jsval)
| SeedArray (vs : list jsval).

(** A [Set] of strings keeps insertion order; [Array.from] lists it. *)
Definition set_add (s : string) (rs : list string) : list string :=
  if bool_decide (s ∈ rs) then rs else rs ++ [s].

(** [for (...) body] over an array, threading a local variable. *)
Fixpoint for_each {A B} (xs : list A) (body : A -> B -> M W B) (b : B) : M W B :=
  match xs with
  | [] => ret b
  | x :: rest => b' <- body x b;; for_each rest body b'
  end.

End RegExps.

Arguments RegExp : clear implicits.
Arguments mvalue : clear implicits.
Arguments Matcher : clear implicits.
Arguments match_info : clear implicits.

(** * The collector (the file that defines [matcherPacks]) *)

Module Collector.
Section Collector.
Context {W : Type}.
Implicit Types (st : State W) (v : jsval) (key : string).

(** Return a default root object for scanning, depending on environment. *)
Definition getDefaultSource : M W jsval :=
  st <- get_state;;
  let g := genv st in
  if negb (String.eqb (typeof st (g_globalThis g)) "undefined") then ret (g_globalThis g)
  else if negb (String.eqb (typeof st (g_window g)) "undefined") then ret (g_window g)
  else if negb (String.eqb (typeof st (g_global g)) "undefined") then ret (g_global g)
  else l <- alloc (plain_object (Some (ObjectPrototype g)) []);; ret (VRef l).

(** Add seed values to a set of strings. *)
Definition seedSet (set : list string) (values : seeds) : M W (list string) :=
  match values with
  | SeedValue v =>
      if negb (truthy v) then ret set
      else if negb (nullish v) then s <- to_string v;; ret (set_add s set)
      else ret set
  | SeedArray arr =>
      for_each arr (fun v set =>
        if negb (nullish v) then s <- to_string v;; ret (set_add s set)
        else ret set) set
  end.

(** The [switch] on the matcher type. *)
Definition test_matcher (matcher : Matcher W) key (value sourceObj : jsval) : M W bool :=
  let mType := m_type matcher in
  let mVal := m_value matcher in
  if String.eqb mType "prefix" then
    ret (match mVal with MString s => startsWith key s | _ => false end)
  else if String.eqb mType "suffix" then
    ret (match mVal with MString s => endsWith key s | _ => false end)
  else if String.eqb mType "includes" then
    ret (match mVal with MString s => includes key s | _ => false end)
  else if String.eqb mType "regex" then
    match mVal with
    | MRegExp r => rx_set_lastIndex r 0;;; RegExp_test r key
    | _ => ret false
    end
  else if String.eqb mType "custom" then
    match mVal with
    | MFunction p =>
        try_catch (m <- user (p key value sourceObj);; ret (truthy m))
                  (fun _ => ret false)
    | _ => ret false
    end
  else ret false.

(** The body of the loop of [applyMatchers] for one matcher. *)
Definition apply_matcher key (value sourceObj : jsval)
    (onMatch : option (match_info W -> M W jsval))
    (matcher : Matcher W) (resultSet : list string) : M W (list string) :=
  matched <- test_matcher matcher key value sourceObj;;
  if negb matched then ret resultSet
  else
    out <- match m_transform matcher with
           | Some transform =>
               try_catch (user (transform key value (m_value matcher)))
                         (fun _ => ret VUndef)
           | None => ret (VStr key)
           end;;
    resultSet' <- (if negb (nullish out) && negb (bool_decide (out = VStr ""))
                   then s <- to_string out;; ret (set_add s resultSet)
                   else ret resultSet);;
    match onMatch with
    | Some f =>
        try_catch
          (f {| mi_key := key; mi_value := value; mi_source := sourceObj;
                mi_matcher := matcher; mi_transformed := out |};;; ret tt)
          (fun _ => ret tt)
    | None => ret tt
    end;;;
    ret resultSet'.

(** Apply matchers to a single key/value pair. *)
Definition applyMatchers (matchers : list (Matcher W)) key (value sourceObj : jsval)
    (resultSet : list string) (onMatch : option (match_info W -> M W jsval))
  : M W (list string) :=
  for_each matchers (apply_matcher key value sourceObj onMatch) resultSet.

Record CollectOptions := {
  co_source : jsval;
  co_defaults : seeds;
  co_extra : seeds;
  co_matchers : list (Matcher W);
  co_onMatch : option (match_info W -> M W jsval)
}.

(** A default of the parameter list applies to [undefined]. *)
Definition default_seeds (s : seeds) : seeds :=
  match s with
  | SeedValue VUndef => SeedArray []
  | _ => s
  end.

(** Read [source[key]] and apply the matchers; a getter that throws skips
    the key. *)
Definition scan_key (matchers : list (Matcher W))
    (onMatch : option (match_info W -> M W jsval)) (source : jsval)
    key (resultSet : list string) : M W (list string) :=
  r <- try_catch (x <- get source key;; ret (Some x)) (fun _ => ret None);;
  match r with
  | None => ret resultSet
  | Some value => applyMatchers matchers key value source resultSet onMatch
  end.

(** Collects string values from an object's keys based on matcher rules. *)
Definition collectMembers (o : CollectOptions) : M W (list string) :=
  source <- match co_source o with
            | VUndef => getDefaultSource
            | v => ret v
            end;;
  resultSet <- seedSet [] (default_seeds (co_defaults o));;
  resultSet <- seedSet resultSet (default_seeds (co_extra o));;
  if negb (truthy source) then ret resultSet
  else
    ks <- try_catch (keys <- Object_keys source;; ret (Some keys)) (fun _ => ret None);;
    match ks with
    | None => ret resultSet
    | Some keys =>
        for_each keys (scan_key (co_matchers o) (co_onMatch o) source) resultSet
    end.

(** *** The family of a root *)

(** [sources] is a [Set] of objects: insertion order, membership by
    identity. *)
Definition addSource st (obj : jsval) (sources : list jsval) : list jsval :=
  if negb (truthy obj) then sources
  else
    let t := typeof st obj in
    if negb (String.eqb t "object") && negb (String.eqb t "function") then sources
    else if bool_decide (obj ∈ sources) then sources
    else sources ++ [obj].

Definition addSourceM (obj : jsval) (sources : list jsval) : M W (list jsval) :=
  st <- get_state;; ret (addSource st obj sources).

(** One step of the loop over [expandChildren]. *)
Definition expand_child (root : jsval) (childKey : jsval) (sources : list jsval)
  : M W (list jsval) :=
  match childKey with
  | VStr k =>
      try_catch
        (if truthy root then
           b <- has_in k root;;
           if b then c <- get root k;; addSourceM c sources else ret sources
         else ret sources)
        (fun _ => ret sources)
  | _ => ret sources
  end.

(** [try { if (root && root.p) addSource(root.p); } catch {}] *)
Definition add_member (root : jsval) (p : string) (sources : list jsval)
  : M W (list jsval) :=
  try_catch
    (if truthy root then
       c <- get root p;;
       if truthy c then c' <- get root p;; addSourceM c' sources else ret sources
     else ret sources)
    (fun _ => ret sources).

(** The [while] loop over the prototype chain. The sources added before a
    failure stay in the set. The chain of a heap without cycles is no longer
    than the heap, which bounds the loop. *)
Fixpoint walk_chain (fuel : nat) (proto : jsval) (sources : list jsval)
  : M W (list jsval) :=
  match fuel with
  | O => ret sources
  | S fuel' =>
      st <- get_state;;
      if truthy proto
         && negb (bool_decide (proto = VRef (ObjectPrototype (genv st))))
         && negb (bool_decide (proto = VRef (FunctionPrototype (genv st))))
      then
        let sources' := addSource st proto sources in
        try_catch (proto' <- getPrototypeOf proto;; walk_chain fuel' proto' sources')
                  (fun _ => ret sources')
      else ret sources
  end.

Definition add_chain (root : jsval) (sources : list jsval) : M W (list jsval) :=
  try_catch
    (proto <- getPrototypeOf root;;
     st <- get_state;;
     walk_chain (size (heap st)) proto sources)
    (fun _ => ret sources).

(** [try { if (c) nameCandidates.push(n); } catch {}] *)
Definition push_name (c : M W bool) (n : M W jsval) (nameCandidates : list jsval)
  : M W (list jsval) :=
  try_catch
    (b <- c;; if b then x <- n;; if truthy x then x' <- n;; ret (nameCandidates ++ [x'])
                        else ret nameCandidates
     else ret nameCandidates)
    (fun _ => ret nameCandidates).

(** The global object used to resolve an alias by name. *)
Definition alias_global st : jsval :=
  let g := genv st in
  if negb (String.eqb (typeof st (g_globalThis g)) "undefined") then g_globalThis g
  else if negb (String.eqb (typeof st (g_window g)) "undefined") then g_window g
  else if negb (String.eqb (typeof st (g_global g)) "undefined") then g_global g
  else VNull.

Definition add_alias (g : jsval) (nm : jsval) (sources : list jsval) : M W (list jsval) :=
  if negb (truthy nm) then ret sources
  else
    try_catch
      (k <- to_string nm;;
       b <- has_in k g;;
       if b then x <- get g k;; addSourceM x sources else ret sources)
      (fun _ => ret sources).

Definition add_aliases (root : jsval) (sources : list jsval) : M W (list jsval) :=
  st <- get_state;;
  let g := alias_global st in
  if truthy g then
    nameCandidates <-
      push_name (st <- get_state;; ret (truthy root && is_function st root))
                (get root "name") [];;
    nameCandidates <-
      push_name (if truthy root then p <- get root "prototype";; ret (truthy p)
                 else ret false)
                (p <- get root "prototype";; get p "name") nameCandidates;;
    nameCandidates <-
      push_name (if truthy root then c <- get root "constructor";; ret (truthy c)
                 else ret false)
                (c <- get root "constructor";; get c "name") nameCandidates;;
    for_each nameCandidates (add_alias g) sources
  else ret sources.

Record WideOptions := {
  wo_root : jsval;
  wo_defaults : seeds;
  wo_extra : seeds;
  wo_matchers : list (Matcher W);
  wo_onMatch : option (match_info W -> M W jsval);
  (** [None]: the option is left out; an array, or one value *)
  wo_expandChildren : option (jsval + list jsval)
}.

Definition expandList (e : option (jsval + list jsval)) : list jsval :=
  match e with
  | None | Some (inl VUndef) => []
  | Some (inl v) => [v]
  | Some (inr vs) => vs
  end.

(** The closure of related objects of [root]. *)
Definition family (root : jsval) (expand : list jsval) : M W (list jsval) :=
  sources <- addSourceM root [];;
  sources <- for_each expand (expand_child root) sources;;
  sources <- add_member root "constructor" sources;;
  sources <- add_member root "prototype" sources;;
  sources <- add_chain root sources;;
  add_aliases root sources.

(** The keys of one source: [Object.keys] followed by
    [Object.getOwnPropertyNames], each one empty when it fails. *)
Definition allKeys_of (src : jsval) : M W (list string) :=
  keys <- try_catch (Object_keys src) (fun _ => ret []);;
  names <- try_catch (Object_getOwnPropertyNames src) (fun _ => ret []);;
  ret (keys ++ names).

(** The body of the loop over [allKeys]; [seen] is a [Set] of names. *)
Definition scan_wide_key (matchers : list (Matcher W))
    (onMatch : option (match_info W -> M W jsval)) (src : jsval)
    (k : string) (acc : gset string * list string) : M W (gset string * list string) :=
  let '(seen, resultSet) := acc in
  if bool_decide (k ∈ seen) then ret acc
  else
    let seen := {[k]} ∪ seen in
    r <- try_catch (x <- get src k;; ret (Some x)) (fun _ => ret None);;
    match r with
    | None => ret (seen, resultSet)
    | Some value =>
        resultSet' <- applyMatchers matchers k value src resultSet onMatch;;
        ret (seen, resultSet')
    end.

(** The callback of [sources.forEach]. *)
Definition scan_source (matchers : list (Matcher W))
    (onMatch : option (match_info W -> M W jsval))
    (src : jsval) (resultSet : list string) : M W (list string) :=
  allKeys <- allKeys_of src;;
  acc <- for_each allKeys (scan_wide_key matchers onMatch src) (∅, resultSet);;
  ret (snd acc).

(** Collect member names from an object and its family. *)
Definition collectMembersWide (o : WideOptions) : M W (list string) :=
  resultSet <- seedSet [] (default_seeds (wo_defaults o));;
  resultSet <- seedSet resultSet (default_seeds (wo_extra o));;
  root <- (if negb (truthy (wo_root o)) then getDefaultSource else ret (wo_root o));;
  sources <- family root (expandList (wo_expandChildren o));;
  for_each sources (scan_source (wo_matchers o) (wo_onMatch o)) resultSet.

End Collector.
Arguments CollectOptions : clear implicits.
Arguments WideOptions : clear implicits.
End Collector.

(** * The earlier collector, [crawler.js] *)

Module CrawlerJs.
Section CrawlerJs.
Context {W : Type}.
Implicit Types (st : State W) (v : jsval) (key : string).

(** Return a default root object for scanning, depending on environment. *)
Definition getDefaultSource : M W jsval :=
  st <- get_state;;
  let g := genv st in
  if negb (String.eqb (typeof st (g_window g)) "undefined") then ret (g_window g)
  else if negb (String.eqb (typeof st (g_globalThis g)) "undefined") then ret (g_globalThis g)
  else if negb (String.eqb (typeof st (g_global g)) "undefined") then ret (g_global g)
  else l <- alloc (plain_object (Some (ObjectPrototype g)) []);; ret (VRef l).

(** The local function [addAll] of both entry points. *)
Definition addAll (resultSet : list string) (values : seeds) : M W (list string) :=
  match values with
  | SeedValue v =>
      if negb (truthy v) then ret resultSet
      else if negb (nullish v) then s <- to_string v;; ret (set_add s resultSet)
      else ret resultSet
  | SeedArray arr =>
      for_each arr (fun v resultSet =>
        if negb (nullish v) then s <- to_string v;; ret (set_add s resultSet)
        else ret resultSet) resultSet
  end.

(** The [switch] on the matcher type: the pattern is tested as it is. *)
Definition test_matcher (matcher : Matcher W) key (value sourceObj : jsval) : M W bool :=
  let mType := m_type matcher in
  let mVal := m_value matcher in
  if String.eqb mType "prefix" then
    ret (match mVal with MString s => startsWith key s | _ => false end)
  else if String.eqb mType "suffix" then
    ret (match mVal with MString s => endsWith key s | _ => false end)
  else if String.eqb mType "includes" then
    ret (match mVal with MString s => includes key s | _ => false end)
  else if String.eqb mType "regex" then
    match mVal with
    | MRegExp r => RegExp_test r key
    | _ => ret false
    end
  else if String.eqb mType "custom" then
    match mVal with
    | MFunction p =>
        try_catch (m <- user (p key value sourceObj);; ret (truthy m))
                  (fun _ => ret false)
    | _ => ret false
    end
  else ret false.

(** The body of the loop over the matchers. *)
Definition apply_matcher key (value sourceObj : jsval)
    (matcher : Matcher W) (resultSet : list string) : M W (list string) :=
  matched <- test_matcher matcher key value sourceObj;;
  if matched then
    out <- match m_transform matcher with
           | Some transform =>
               try_catch (user (transform key value (m_value matcher)))
                         (fun _ => ret VUndef)
           | None => ret (VStr key)
           end;;
    if negb (nullish out) && negb (bool_decide (out = VStr ""))
    then s <- to_string out;; ret (set_add s resultSet)
    else ret resultSet
  else ret resultSet.

Definition applyMatchers (matchers : list (Matcher W)) key (value sourceObj : jsval)
    (resultSet : list string) : M W (list string) :=
  for_each matchers (apply_matcher key value sourceObj) resultSet.

Record CollectOptions := {
  co_source : jsval;
  co_defaults : seeds;
  co_extra : seeds;
  co_matchers : list (Matcher W)
}.

Definition scan_key (matchers : list (Matcher W)) (source : jsval)
    key (resultSet : list string) : M W (list string) :=
  r <- try_catch (x <- get source key;; ret (Some x)) (fun _ => ret None);;
  match r with
  | None => ret resultSet
  | Some value => applyMatchers matchers key value source resultSet
  end.

(** Collects string values from an object's keys based on matcher rules. *)
Definition collectMembers (o : CollectOptions) : M W (list string) :=
  source <- match co_source o with
            | VUndef => getDefaultSource
            | v => ret v
            end;;
  resultSet <- addAll [] (Collector.default_seeds (co_defaults o));;
  resultSet <- addAll resultSet (Collector.default_seeds (co_extra o));;
  if negb (truthy source) then ret resultSet
  else
    ks <- try_catch (keys <- Object_keys source;; ret (Some keys)) (fun _ => ret None);;
    match ks with
    | None => ret resultSet
    | Some keys => for_each keys (scan_key (co_matchers o) source) resultSet
    end.

Record WideOptions := {
  wo_root : jsval;
  wo_defaults : seeds;
  wo_extra : seeds;
  wo_matchers : list (Matcher W)
}.

(** The closure of related objects of [root]; the statements are those of
    the later collector, without the expansion of children. *)
Definition family (root : jsval) : M W (list jsval) :=
  sources <- Collector.addSourceM root [];;
  sources <- Collector.add_member root "constructor" sources;;
  sources <- Collector.add_member root "prototype" sources;;
  sources <- Collector.add_chain root sources;;
  Collector.add_aliases root sources.

Definition scan_wide_key (matchers : list (Matcher W)) (src : jsval)
    (k : string) (acc : gset string * list string) : M W (gset string * list string) :=
  let '(seen, resultSet) := acc in
  if bool_decide (k ∈ seen) then ret acc
  else
    let seen := {[k]} ∪ seen in
    r <- try_catch (x <- get src k;; ret (Some x)) (fun _ => ret None);;
    match r with
    | None => ret (seen, resultSet)
    | Some value =>
        resultSet' <- applyMatchers matchers k value src resultSet;;
        ret (seen, resultSet')
    end.

Definition scan_source (matchers : list (Matcher W))
    (src : jsval) (resultSet : list string) : M W (list string) :=
  allKeys <- Collector.allKeys_of src;;
  acc <- for_each allKeys (scan_wide_key matchers src) (∅, resultSet);;
  ret (snd acc).

(** Collect member names from an object and its family. The fallback of
    [root] is an inline copy of [getDefaultSource]. *)
Definition collectMembersWide (o : WideOptions) : M W (list string) :=
  resultSet <- addAll [] (Collector.default_seeds (wo_defaults o));;
  resultSet <- addAll resultSet (Collector.default_seeds (wo_extra o));;
  root <- (if negb (truthy (wo_root o)) then getDefaultSource else ret (wo_root o));;
  sources <- family root;;
  for_each sources (scan_source (wo_matchers o)) resultSet.

End CrawlerJs.
Arguments CollectOptions : clear implicits.
Arguments WideOptions : clear implicits.
End CrawlerJs.

(** * The logging layer, [scope-logger.js] (observer based variant) *)

Module ScopeLogger.
Section ScopeLogger.
Context {W : Type}.
Implicit Types (st : State W) (v : jsval) (key : string).

(** *** Promises

    An object is a promise when [o_promise] is set; [then] and [catch] of
    a promise are the built-in ones. An object with a [then] written by hand
    is outside the model: the wrapper below takes a result to be thenable
    exactly when it is a promise. A promise is never fulfilled with another
    promise. *)

Definition promise_object (g : globals) (s : pstatus) (rs : list (reaction W)) : object W :=
  {| o_proto := Some (PromisePrototype g); o_props := []; o_call := None;
     o_promise := Some (s, rs); o_extensible := true; o_ownKeys_throws := None;
     o_toString := Ret "[object Promise]" |}.

Definition set_promise (s : pstatus) (rs : list (reaction W)) (o : object W) : object W :=
  {| o_proto := o_proto o; o_props := o_props o; o_call := o_call o;
     o_promise := Some (s, rs); o_extensible := o_extensible o;
     o_ownKeys_throws := o_ownKeys_throws o; o_toString := o_toString o |}.

Definition is_promise st v : bool :=
  match v with
  | VRef l =>
      match heap st !! l with
      | Some o => bool_decide (is_Some (o_promise o))
      | None => false
      end
  | _ => false
  end.

(** [p.then(f)] and [p.catch(f)]: a new pending promise [d]; the reaction
    [mk d] waits on [p], or is queued at once when [p] is settled. *)
Definition promise_react (p : loc) (mk : loc -> reaction W) : M W loc :=
  st <- get_state;;
  d <- alloc (promise_object (genv st) Pending []);;
  modify (fun st =>
    match heap st !! p with
    | Some o =>
        match o_promise o with
        | Some (Pending, rs) =>
            set_heap (<[p := set_promise Pending (rs ++ [mk d]) o]> (heap st)) st
        | Some (s, _) => set_jobs (jobs st ++ [(mk d, s)]) st
        | None => st
        end
    | None => st
    end);;;
  ret d.

(** Settle a pending promise and queue its reactions. *)
Definition settle (p : loc) (s : pstatus) : M W unit :=
  modify (fun st =>
    match heap st !! p with
    | Some o =>
        match o_promise o with
        | Some (Pending, rs) =>
            set_jobs (jobs st ++ map (fun r => (r, s)) rs)
                     (set_heap (<[p := set_promise s [] o]> (heap st)) st)
        | _ => st
        end
    | None => st
    end).

(** [runLogger]: the observation is handed to the logger; a failure of the
    logger is ignored. *)
Definition runLogger (logger : sink W) (info : observation) : M W unit :=
  modify (fun st => set_trace (trace st ++ [info]) st);;;
  try_catch (user (fun st => logger info (world st));;; ret tt) (fun _ => ret tt).

(** One promise job: the arrow function given to [then] logs and returns
    the value, the one given to [catch] logs and throws the error again;
    the other state passes through. *)
Definition run_job (j : reaction W * pstatus) : M W unit :=
  match j with
  | (ThenResolved c d, Fulfilled resolved) =>
      runLogger (lc_logger c)
        {| ob_label := lc_label c; ob_key := lc_key c; ob_args := lc_args c;
           ob_result := Some resolved; ob_error := None;
           ob_thisArg := lc_this c; ob_phase := PhResolved |};;;
      settle d (Fulfilled resolved)
  | (ThenResolved c d, Rejected e) => settle d (Rejected e)
  | (CatchRejected c d, Fulfilled x) => settle d (Fulfilled x)
  | (CatchRejected c d, Rejected err) =>
      runLogger (lc_logger c)
        {| ob_label := lc_label c; ob_key := lc_key c; ob_args := lc_args c;
           ob_result := None; ob_error := Some err;
           ob_thisArg := lc_this c; ob_phase := PhRejected |};;;
      settle d (Rejected err)
  | (_, Pending) => ret tt
  end.

(** Run at most [fuel] jobs of the queue, oldest first. *)
Fixpoint run_jobs (fuel : nat) : M W unit :=
  match fuel with
  | O => ret tt
  | S fuel' =>
      st <- get_state;;
      match jobs st with
      | [] => ret tt
      | j :: rest =>
          modify (set_jobs rest);;;
          run_job j;;;
          run_jobs fuel'
      end
  end.

(** *** The wrapper

    The function that [wrapFunction] stores in [target[key]], given the
    call of the captured [originalFn]. *)
Definition wrapper_body (label key : string) (awaitPromises : bool) (logger : sink W)
    (apply_originalFn : M W jsval) (this : jsval) (args : list jsval) : M W jsval :=
  result <- try_catch apply_originalFn
              (fun err =>
                 runLogger logger
                   {| ob_label := label; ob_key := key; ob_args := args;
                      ob_result := Some VUndef; ob_error := Some err;
                      ob_thisArg := this; ob_phase := PhCall |};;;
                 throw err);;
  st <- get_state;;
  match result with
  | VRef p =>
      if awaitPromises && truthy result && is_promise st result then
        runLogger logger
          {| ob_label := label; ob_key := key; ob_args := args;
             ob_result := Some result; ob_error := None;
             ob_thisArg := this; ob_phase := PhCall |};;;
        let c := {| lc_label := label; lc_key := key; lc_args := args;
                    lc_this := this; lc_logger := logger |} in
        d <- promise_react p (ThenResolved c);;
        d' <- promise_react d (CatchRejected c);;
        ret (VRef d')
      else
        runLogger logger
          {| ob_label := label; ob_key := key; ob_args := args;
             ob_result := Some result; ob_error := Some VUndef;
             ob_thisArg := this; ob_phase := PhCall |};;;
        ret result
  | _ =>
      runLogger logger
        {| ob_label := label; ob_key := key; ob_args := args;
           ob_result := Some result; ob_error := Some VUndef;
           ob_thisArg := this; ob_phase := PhCall |};;;
      ret result
  end.

(** *** Calling a function object *)

Fixpoint call_fn (b : fnbody W) (this : jsval) (args : list jsval) : M W jsval :=
  match b with
  | Native f => user (fun st => f this args (world st))
  | Wrapper label key awaitPromises logger originalFn =>
      wrapper_body label key awaitPromises logger
        match originalFn with
        | Some b' => call_fn b' this args
        | None => throw TypeError
        end
        this args
  end.

(** The function behind a value, if it can be called. *)
Definition callee st v : option (fnbody W) :=
  match v with
  | VRef l => o ← heap st !! l; o_call o
  | _ => None
  end.

(** [objv[key](...args)] *)
Definition invoke (objv : jsval) key (args : list jsval) : M W jsval :=
  f <- get objv key;;
  st <- get_state;;
  match callee st f with
  | Some b => call_fn b objv args
  | None => throw TypeError
  end.

(** *** [addLoggingToFunctions] *)

Record LogOptions := {
  lo_matchers : list (Matcher W);
  lo_logger : sink W;
  lo_label : string;
  lo_wrapTarget : string;
  lo_awaitPromises : bool;
  lo_expandChildren : option (jsval + list jsval)
}.

(** The defaults of the destructuring, for a given logger (the default
    logger is the console of the host). *)
Definition default_matchers : list (Matcher W) :=
  [ {| m_type := "includes"; m_value := MString ""; m_transform := None |} ].

Definition default_options (logger : sink W) : LogOptions :=
  {| lo_matchers := default_matchers; lo_logger := logger; lo_label := "[LOG]";
     lo_wrapTarget := "root"; lo_awaitPromises := false; lo_expandChildren := None |}.

(** The keys of a [WeakMap] are objects. *)
Definition markWrapped (target : jsval) key : M W bool :=
  if negb (truthy target) then ret false
  else
    match target with
    | VRef l =>
        st <- get_state;;
        let set := default ∅ (wrappedTargets st !! l) in
        if bool_decide (key ∈ set) then ret true
        else
          modify (fun st => set_wrappedTargets (<[l := {[key]} ∪ set]> (wrappedTargets st)) st);;;
          ret false
    | _ => throw TypeError
    end.

Definition resolveTarget (obj : jsval) (wrapTarget : string) (sourceObj : jsval) : M W jsval :=
  if String.eqb wrapTarget "owner" then
    ret (if truthy sourceObj then sourceObj else obj)
  else if String.eqb wrapTarget "prototype" then
    r <- try_catch
           (st <- get_state;;
            if truthy sourceObj && is_function st sourceObj then
              p <- get sourceObj "prototype";;
              if truthy p then p' <- get sourceObj "prototype";; ret (Some p')
              else ret None
            else ret None)
           (fun _ => ret None);;
    match r with
    | Some p => ret p
    | None =>
        r <- try_catch
               (proto <- getPrototypeOf sourceObj;;
                ret (if truthy proto then Some proto else None))
               (fun _ => ret None);;
        match r with
        | Some proto => ret proto
        | None => ret obj
        end
    end
  else ret obj.

(** The function expression of the wrapper: a new function object with
    its own [length], [name] and [prototype]. *)
Definition new_function (b : fnbody W) : M W loc :=
  st <- get_state;;
  let g := genv st in
  f <- alloc {| o_proto := Some (FunctionPrototype g); o_props := [];
                o_call := Some b; o_promise := None; o_extensible := true;
                o_ownKeys_throws := None; o_toString := Ret "function () { [code] }" |};;
  p <- alloc (plain_object (Some (ObjectPrototype g))
                [("constructor", Data (VRef f) true false true)]);;
  modify (fun st =>
    match heap st !! f with
    | Some o =>
        set_heap (<[f := set_props [("length", Data (VNum 0) false false true);
                                    ("name", Data (VStr "") false false true);
                                    ("prototype", Data (VRef p) true false false)] o]>
                    (heap st)) st
    | None => st
    end);;;
  ret f.

Definition wrapFunction (obj : jsval) (o : LogOptions) key (value sourceObj : jsval)
  : M W unit :=
  st <- get_state;;
  if negb (is_function st value) then ret tt
  else
    target <- resolveTarget obj (lo_wrapTarget o) sourceObj;;
    if negb (truthy target) then ret tt
    else
      already <- markWrapped target key;;
      if already then ret tt
      else
        skip <- try_catch
                  (descriptor <- getOwnPropertyDescriptor target key;;
                   ret match descriptor with
                       | Some (Accessor (Some _) None _ _) => true
                       | _ => false
                       end)
                  (fun _ => ret false);;
        if (skip : bool) then ret tt
        else
          originalFn <- get target key;;
          st <- get_state;;
          try_catch
            (f <- new_function
                    (Wrapper (lo_label o) key (lo_awaitPromises o) (lo_logger o)
                             (callee st originalFn));;
             assign target key (VRef f))
            (fun _ => ret tt).

Definition addLoggingToFunctions (obj : jsval) (o : LogOptions) : M W unit :=
  if negb (truthy obj) then ret tt
  else
    modify (set_wrappedTargets ∅);;;
    Collector.collectMembersWide
      {| Collector.wo_root := obj;
         Collector.wo_defaults := SeedArray [];
         Collector.wo_extra := SeedArray [];
         Collector.wo_matchers := lo_matchers o;
         Collector.wo_onMatch :=
           Some (fun info =>
                   wrapFunction obj o (mi_key info) (mi_value info) (mi_source info);;;
                   ret VUndef);
         Collector.wo_expandChildren := lo_expandChildren o |};;;
    ret tt.

End ScopeLogger.
Arguments LogOptions : clear implicits.
End ScopeLogger.

(** * Preset matcher packs

    [matcherPacks] is an object literal: its own properties hold three
    arrays, and it inherits the members of [Object.prototype]. Arrays are
    objects of a store indexed by references; the rule objects in them are
    shared by [slice], which copies the array and not its entries. *)

Module Packs.
Section Packs.
Context {W : Type}.

Definition rule (type pat : string) : Matcher W :=
  {| m_type := type; m_value := MString pat; m_transform := None |}.

Definition domEvents : list (Matcher W) :=
  [ rule "prefix" "on"; rule "includes" "EventListener"; rule "includes" "EventTarget" ].
Definition network : list (Matcher W) :=
  [ rule "includes" "fetch"; rule "includes" "XHR"; rule "includes" "Request";
    rule "includes" "Response" ].
Definition console : list (Matcher W) :=
  [ rule "includes" "log"; rule "includes" "warn"; rule "includes" "error";
    rule "includes" "debug" ].

(** The own properties of [matcherPacks]: name, array reference, and the
    content given by the literal. *)
Definition matcherPacks : list (string * (loc * list (Matcher W))) :=
  [ ("domEvents", (0, domEvents)); ("network", (1, network)); ("console", (2, console)) ].

(** The store of arrays after the literal is evaluated. *)
Definition initial_arrays : gmap loc (list (Matcher W)) :=
  list_to_map (map snd matcherPacks).

(** The members that every object literal inherits from [Object.prototype]:
    functions, and the accessor [__proto__] that gives the prototype. *)
Definition Object_prototype_names : list string :=
  [ "constructor"; "__defineGetter__"; "__defineSetter__"; "hasOwnProperty";
    "__lookupGetter__"; "__lookupSetter__"; "isPrototypeOf"; "propertyIsEnumerable";
    "toString"; "valueOf"; "__proto__"; "toLocaleString" ].

(** The value of [matcherPacks[name]]. *)
Inductive member :=
| MArray (a : loc)
| MInherited
| MUndefined.

Definition lookup_pack (name : string) : member :=
  match assoc name matcherPacks with
  | Some (a, _) => MArray a
  | None =>
      if bool_decide (name ∈ Object_prototype_names) then MInherited else MUndefined
  end.

(** A new array with the given entries. *)
Definition new_array (xs : list (Matcher W)) (arrays : gmap loc (list (Matcher W)))
  : outcome loc * gmap loc (list (Matcher W)) :=
  let l := fresh (dom arrays) in (Ret l, <[l := xs]> arrays).

(** [matcherPacks[name] ? matcherPacks[name].slice() : []]: an array is
    truthy and is copied; a function or an object inherited from
    [Object.prototype] is truthy and has no [slice]. *)
Definition getMatcherPack (name : string) (arrays : gmap loc (list (Matcher W)))
  : outcome loc * gmap loc (list (Matcher W)) :=
  match lookup_pack name with
  | MArray a => new_array (default [] (arrays !! a)) arrays
  | MInherited => (Throw TypeError, arrays)
  | MUndefined => new_array [] arrays
  end.

(** Any change of the entries of the array [l] (adding, removing,
    reordering) leaves the array with some list of entries. *)
Definition mutate_array (l : loc) (xs : list (Matcher W))
    (arrays : gmap loc (list (Matcher W))) : gmap loc (list (Matcher W)) :=
  <[l := xs]> arrays.

(** The table holds its canned lists. *)
Definition table_intact (arrays : gmap loc (list (Matcher W))) : Prop :=
  ∀ name a rules, assoc name matcherPacks = Some (a, rules) → arrays !! a = Some rules.

End Packs.
End Packs.

(** * The event helpers of [crawler.js] *)

(** [key.slice(n)] for a start inside or past the string. *)
Fixpoint slice_from (n : nat) (s : string) : string :=
  match n, s with
  | O, _ => s
  | S n', String _ rest => slice_from n' rest
  | S _, EmptyString => EmptyString
  end.

Module CrawlerJsHelpers.
Section CrawlerJsHelpers.
Context {W : Type}.
Implicit Types (st : State W) (v : jsval) (key : string).

(** The built-in list of [getEventNames]. *)
Definition event_defaults : list string :=
  [ "click"; "submit"; "change"; "keydown"; "focus"; "blur"; "contextmenu";
    "dblclick"; "scroll"; "input"; "mousemove"; "mousedown"; "mouseup";
    "pointerdown"; "pointerup"; "pointermove"; "wheel"; "touchstart";
    "touchmove"; "touchend"; "paste"; "copy"; "cut" ].

(** The matcher of [getEventNames]: the prefix ["on"], and a transform that
    removes it. *)
Definition on_rule : Matcher W :=
  {| m_type := "prefix"; m_value := MString "on";
     m_transform :=
       Some (fun key _value prefix st =>
               let p := match prefix with MString s => s | _ => "on" end in
               (Ret (VStr (slice_from (String.length p) key)), world st)) |}.

(** [events] is an array of names, or anything else. *)
Definition getEventNames (events : seeds) : M W (list string) :=
  let extra := match events with
               | SeedArray vs => SeedArray vs
               | SeedValue _ => SeedArray [VStr "loaded"]
               end in
  CrawlerJs.collectMembers
    {| CrawlerJs.co_source := VUndef;
       CrawlerJs.co_defaults := SeedArray (map VStr event_defaults);
       CrawlerJs.co_extra := extra;
       CrawlerJs.co_matchers := [on_rule] |}.

(** Legacy alias for [getEventNames]. *)
Definition _a1 (b : seeds) : M W (list string) := getEventNames b.

(** A computation that only reads, as code of a callback. *)
Definition as_callback {A} (m : M W A) : State W -> outcome A * W :=
  fun st => let '(r, st') := m st in (r, world st').

(** The predicate of [getEventConstructors]:
    [typeof val === 'function' && typeof val.name === 'string' &&
     val.name.endsWith('Event')]. *)
Definition names_an_event (val : jsval) : M W jsval :=
  st <- get_state;;
  if is_function st val then
    n <- get val "name";;
    if String.eqb (typeof st n) "string" then
      n' <- get val "name";;
      match n' with
      | VStr s => ret (VBool (endsWith s "Event"))
      | _ => throw TypeError
      end
    else ret (VBool false)
  else ret (VBool false).

(** The transform of [getEventConstructors]:
    [val && val.name ? val.name : String(_key)]. *)
Definition name_or_key key (val : jsval) : M W jsval :=
  if truthy val then
    n <- get val "name";;
    if truthy n then get val "name" else (s <- to_string (VStr key);; ret (VStr s))
  else (s <- to_string (VStr key);; ret (VStr s)).

Definition event_constructor_rule : Matcher W :=
  {| m_type := "custom";
     m_value := MFunction (fun _key val _src => as_callback (names_an_event val));
     m_transform := Some (fun key val _ => as_callback (name_or_key key val)) |}.

Definition getEventConstructors (source : jsval) : M W (list string) :=
  CrawlerJs.collectMembers
    {| CrawlerJs.co_source := source;
       CrawlerJs.co_defaults := SeedValue VUndef;
       CrawlerJs.co_extra := SeedValue VUndef;
       CrawlerJs.co_matchers := [event_constructor_rule] |}.

(** [source || (typeof globalThis !== 'undefined' ? globalThis : {info: ...})] *)
Definition getAllMemberNames (source : jsval) : M W (list string) :=
  root <- (if truthy source then ret source
           else
             st <- get_state;;
             if negb (String.eqb (typeof st (g_globalThis (genv st))) "undefined")
             then ret (g_globalThis (genv st))
             else
               l <- alloc (plain_object (Some (ObjectPrototype (genv st)))
                             [("info", Data (VStr "no root source or globalThis defined")
                                            true true true)]);;
               ret (VRef l));;
  CrawlerJs.collectMembersWide
    {| CrawlerJs.wo_root := root;
       CrawlerJs.wo_defaults := SeedValue VUndef;
       CrawlerJs.wo_extra := SeedValue VUndef;
       CrawlerJs.wo_matchers :=
         [ {| m_type := "includes"; m_value := MString ""; m_transform := None |} ] |}.

End CrawlerJsHelpers.
End CrawlerJsHelpers.

(** * The wrapper of the transform based [scope-logger.js]

    The function that this variant stores in [obj[key]], given the call of
    the captured [originalFn]. Its logger receives a record without phase. *)

Record call_record := {
  cr_label : string;
  cr_key : string;
  cr_args : list jsval;
  cr_result : jsval;
  cr_error : jsval;
  cr_thisArg : jsval
}.

Module SimpleLogger.
Section SimpleLogger.
Context {W : Type}.

Definition wrapper (label key : string) (logger : call_record -> W -> outcome jsval * W)
    (apply_originalFn : M W jsval) (this : jsval) (args : list jsval) : M W jsval :=
  r <- try_catch (result <- apply_originalFn;; ret (result, VUndef))
                 (fun err => ret (VUndef, err));;
  let '(result, error) := r in
  try_catch
    (user (fun st => logger {| cr_label := label; cr_key := key; cr_args := args;
                               cr_result := result; cr_error := error;
                               cr_thisArg := this |} (world st));;;
     ret tt)
    (fun _ => ret tt);;;
  if truthy error then throw error else ret result.

End SimpleLogger.
End SimpleLogger.

(** * Example programs and states *)

(** The first binding of a list that is not [undefined]. *)
Fixpoint first_defined (bindings : list jsval) : option jsval :=
  match bindings with
  | [] => None
  | v :: rest => if bool_decide (v = VUndef) then first_defined rest else Some v
  end.

(** Probing the bindings in a priority order, with a new empty object when
    none exists. *)
Definition probe_in_order {W} (order : globals → list jsval) : M W jsval :=
  st <- get_state;;
  match first_defined (order (genv st)) with
  | Some v => ret v
  | None => l <- alloc (plain_object (Some (ObjectPrototype (genv st))) []);; ret (VRef l)
  end.

Definition order_globalThis_first (g : globals) : list jsval :=
  [g_globalThis g; g_window g; g_global g].
Definition order_window_first (g : globals) : list jsval :=
  [g_window g; g_globalThis g; g_global g].

(** A host in which [window] is not the global object (a test setup that
    defines [window] on top of the engine): [globalThis] has the member
    [setTimeout], [window] has the member [document]. *)
Definition two_globals : State unit :=
  {| heap := list_to_map
       [ (0, plain_object None []);
         (1, plain_object (Some 0) []);
         (2, plain_object (Some 0) []);
         (10, plain_object (Some 0) [("setTimeout", Data (VNum 1) true true true)]);
         (11, plain_object (Some 0) [("document", Data (VNum 2) true true true)]) ];
     world := tt; lastIndex := ∅; jobs := []; trace := []; wrappedTargets := ∅;
     genv := {| g_globalThis := VRef 10; g_window := VRef 11; g_global := VUndef;
                ObjectPrototype := 0; FunctionPrototype := 1; PromisePrototype := 2 |} |}.

Definition match_all {W} : list (Matcher W) :=
  [ {| m_type := "includes"; m_value := MString ""; m_transform := None |} ].

(** The pattern [/a/g]: the letter [a], with the global flag. *)
Definition letter_a_global : RegExp unit :=
  {| rx_id := 0;
     rx_match_at := fun s i =>
       match String.get i s with
       | Some "a"%char => Some (S i)
       | _ => None
       end;
     rx_global := true; rx_sticky := false;
     rx_lastIndex_writable := true; rx_test := None; rx_exec := None |}.

Definition regex_rule : list (Matcher unit) :=
  [ {| m_type := "regex"; m_value := MRegExp letter_a_global; m_transform := None |} ].

(** The source [{ xa: 1 }]. *)
Definition one_member : State unit :=
  {| heap := list_to_map
       [ (0, plain_object None []);
         (1, plain_object (Some 0) []);
         (2, plain_object (Some 0) []);
         (10, plain_object (Some 0) [("xa", Data (VNum 1) true true true)]) ];
     world := tt; lastIndex := ∅; jobs := []; trace := []; wrappedTargets := ∅;
     genv := {| g_globalThis := VUndef; g_window := VUndef; g_global := VUndef;
                ObjectPrototype := 0; FunctionPrototype := 1; PromisePrototype := 2 |} |}.

(** The source [{ ME: MouseEvent, n: 1 }], where [MouseEvent] is a function
    of that name. *)
Definition event_host : State unit :=
  {| heap := list_to_map
       [ (0, plain_object None []);
         (1, plain_object (Some 0) []);
         (2, plain_object (Some 0) []);
         (10, plain_object (Some 0) [("ME", Data (VRef 11) true true true);
                                     ("n", Data (VNum 1) true true true)]);
         (11, {| o_proto := Some 1;
                 o_props := [("length", Data (VNum 0) false false true);
                             ("name", Data (VStr "MouseEvent") false false true)];
                 o_call := Some (Native (fun _ _ w => (Ret VUndef, w)));
                 o_promise := None; o_extensible := true;
                 o_ownKeys_throws := None;
                 o_toString := Ret "function MouseEvent() { [code] }" |}) ];
     world := tt; lastIndex := ∅; jobs := []; trace := []; wrappedTargets := ∅;
     genv := {| g_globalThis := VUndef; g_window := VUndef; g_global := VUndef;
                ObjectPrototype := 0; FunctionPrototype := 1; PromisePrototype := 2 |} |}.

Definition crawler_regex_options : CrawlerJs.CollectOptions unit :=
  {| CrawlerJs.co_source := VRef 10; CrawlerJs.co_defaults := SeedArray [];
     CrawlerJs.co_extra := SeedArray []; CrawlerJs.co_matchers := regex_rule |}.

Definition collector_regex_options : Collector.CollectOptions unit :=
  {| Collector.co_source := VRef 10; Collector.co_defaults := SeedArray [];
     Collector.co_extra := SeedArray []; Collector.co_matchers := regex_rule;
     Collector.co_onMatch := None |}.

Definition realm : globals :=
  {| g_globalThis := VUndef; g_window := VUndef; g_global := VUndef;
     ObjectPrototype := 0; FunctionPrototype := 1; PromisePrototype := 2 |}.

(** A function object of the observed program, named [f]. *)
Definition function_object {W} (b : fnbody W) : object W :=
  {| o_proto := Some 1;
     o_props := [("length", Data (VNum 0) false false true);
                 ("name", Data (VStr "f") false false true)];
     o_call := Some b; o_promise := None; o_extensible := true;
     o_ownKeys_throws := None; o_toString := Ret "function f() { [code] }" |}.

(** A logger that does nothing. *)
Definition quiet : sink unit := fun _ w => (Ret VUndef, w).

(** A promise fulfilled with 42. *)
Definition promise_42 : object unit :=
  {| o_proto := Some 2; o_props := []; o_call := None;
     o_promise := Some (Fulfilled (VNum 42), []); o_extensible := true;
     o_ownKeys_throws := None; o_toString := Ret "[object Promise]" |}.


(** An object without prototype whose only member [f] is the function at
    reference 11, stored with the given attributes; a promise fulfilled
    with 42 at reference 12. *)
Definition heap_with_f (b : fnbody unit) (writable configurable : bool)
  : gmap loc (object unit) :=
  list_to_map
    [ (0, plain_object None []);
      (1, plain_object (Some 0) []);
      (2, plain_object (Some 0) []);
      (10, plain_object None [("f", Data (VRef 11) writable true configurable)]);
      (11, function_object b);
      (12, promise_42) ].

Definition state_with_f (b : fnbody unit) (writable configurable : bool) : State unit :=
  {| heap := heap_with_f b writable configurable; world := tt; lastIndex := ∅;
     jobs := []; trace := []; wrappedTargets := ∅; genv := realm |}.

(** The same program when the promise at reference 12 is rejected with
    ["E"]. *)
Definition promise_rejected : object unit :=
  {| o_proto := Some 2; o_props := []; o_call := None;
     o_promise := Some (Rejected (VStr "E"), []); o_extensible := true;
     o_ownKeys_throws := None; o_toString := Ret "[object Promise]" |}.

Definition state_with_rejected (b : fnbody unit) : State unit :=
  {| heap := <[12 := promise_rejected]> (heap_with_f b true true); world := tt;
     lastIndex := ∅; jobs := []; trace := []; wrappedTargets := ∅; genv := realm |}.

Definition returns_one : fnbody unit := Native (fun _ _ w => (Ret (VNum 1), w)).
Definition throws_E : fnbody unit := Native (fun _ _ w => (Throw (VStr "E"), w)).
Definition returns_promise : fnbody unit := Native (fun _ _ w => (Ret (VRef 12), w)).

Definition call_observation (result error : option jsval) : observation :=
  {| ob_label := "[LOG]"; ob_key := "f"; ob_args := []; ob_result := result;
     ob_error := error; ob_thisArg := VRef 10; ob_phase := PhCall |}.



(** Another one: the built-in [test], and an own [exec] that throws. *)
Definition hostile_exec : RegExp unit :=
  {| rx_id := 2; rx_match_at := fun _ _ => None; rx_global := false;
     rx_sticky := false; rx_lastIndex_writable := true;
     rx_test := None; rx_exec := Some (fun _ st => (Throw (VStr "boom"), world st)) |}.

Definition hostile_exec_rule : list (Matcher unit) :=
  [ {| m_type := "regex"; m_value := MRegExp hostile_exec; m_transform := None |} ].


(** A predicate rule with a counting side channel: each call records the
    owner and the key it is asked about, and matches. *)
Definition visit : Type := jsval * string.

Definition counting : Matcher (list visit) :=
  {| m_type := "custom";
     m_value := MFunction (fun key _ owner st => (Ret (VBool true), world st ++ [(owner, key)]));
     m_transform := None |}.

(** A constructor function [F] whose [prototype] member is also its own
    prototype, so that the object is reached twice from the root [F]: its
    key [m] is handed to the rule once. *)
Definition shared_prototype : State (list visit) :=
  {| heap := list_to_map
       [ (0, plain_object None []);
         (1, plain_object (Some 0) []);
         (2, plain_object (Some 0) []);
         (10, {| o_proto := Some 11;
                 o_props := [("prototype", Data (VRef 11) true false false)];
                 o_call := Some (Native (fun _ _ w => (Ret VUndef, w)));
                 o_promise := None; o_extensible := true;
                 o_ownKeys_throws := None; o_toString := Ret "function F() { [code] }" |});
         (11, plain_object (Some 0) [("m", Data (VNum 1) true true true)]) ];
     world := []; lastIndex := ∅; jobs := []; trace := []; wrappedTargets := ∅;
     genv := realm |}.

(** Programs with getters. The state of the observed program is a number,
    the count of the reads made so far. *)

(** A getter that gives [v] on its first read and throws afterwards. *)
Definition once (v : jsval) : nat → outcome jsval * nat :=
  fun w => (match w with O => Ret v | S _ => Throw (VStr "late") end, S w).

(** A getter that gives ["XEvent"] on its first two reads and ["Other"]
    afterwards. *)
Definition renamed : nat → outcome jsval * nat :=
  fun w => (Ret (VStr (if Nat.ltb w 2 then "XEvent" else "Other")), S w).

(** A getter without effect: it gives the count and leaves it as it is. *)
Definition reads_count : nat → outcome jsval * nat :=
  fun w => (Ret (VNum (Z.of_nat w)), w).

(** The source [{ get key() { ... } }]. *)
Definition getter_host (key : string) (g : nat → outcome jsval * nat) : State nat :=
  {| heap := list_to_map
       [ (0, plain_object None []);
         (1, plain_object (Some 0) []);
         (2, plain_object (Some 0) []);
         (10, plain_object (Some 0) [(key, Accessor (Some g) None true true)]) ];
     world := 0%nat; lastIndex := ∅; jobs := []; trace := []; wrappedTargets := ∅;
     genv := realm |}.

(** The source [{ K: f }], where the name of the function [f] is the getter
    [renamed]. *)
Definition renamed_host : State nat :=
  {| heap := list_to_map
       [ (0, plain_object None []);
         (1, plain_object (Some 0) []);
         (2, plain_object (Some 0) []);
         (10, plain_object (Some 0) [("K", Data (VRef 11) true true true)]);
         (11, {| o_proto := Some 1;
                 o_props := [("name", Accessor (Some renamed) None false true)];
                 o_call := Some (Native (fun _ _ w => (Ret VUndef, w)));
                 o_promise := None; o_extensible := true;
                 o_ownKeys_throws := None; o_toString := Ret "function f() { [code] }" |}) ];
     world := 0%nat; lastIndex := ∅; jobs := []; trace := []; wrappedTargets := ∅;
     genv := realm |}.

(** * Predicates of the statements *)

Section Predicates.
Context {W : Type}.
Implicit Types (st : State W) (v : jsval).

(** [m] completes normally from every state, with a result in [P]. *)
Definition returns {A} (P : A → Prop) (m : M W A) : Prop :=
  ∀ st, ∃ a st', m st = (Ret a, st') ∧ P a.

(** [m] never throws. *)
Definition no_throw {A} (m : M W A) : Prop := returns (fun _ => True) m.

(** [m] leaves the state as it is. *)
Definition reads_only {A} (m : M W A) : Prop := ∀ st, snd (m st) = st.

Definition promise_state st (p : loc) : option (pstatus * list (reaction W)) :=
  o ← heap st !! p; o_promise o.

(** A value that is not an object: its conversion to a string cannot
    fail. *)
Definition primitive v : Prop :=
  match v with
  | VRef _ => False
  | _ => True
  end.

Definition seeds_ok (s : seeds) : Prop :=
  match s with
  | SeedValue v => primitive v
  | SeedArray vs => Forall primitive vs
  end.


(** The result of [m], when it completes, is in [P]. *)
Definition ensures {A} (P : A → Prop) (m : M W A) : Prop :=
  ∀ st a st', m st = (Ret a, st') → P a.

End Predicates.

(** * Reference functions

    Functions without state that the collectors are compared with. *)

(** The property [P] of the result, when the code returns. *)
Definition on_return {A} (r : outcome A) (P : A → Prop) : Prop :=
  match r with
  | Ret a => P a
  | Throw _ => True
  end.

(** [String(v)] of a value that is not an object. *)
Definition pure_string (v : jsval) : string :=
  match v with
  | VUndef => "undefined"
  | VNull => "null"
  | VBool true => "true"
  | VBool false => "false"
  | VNum n => NilZero.string_of_int (Z.to_int n)
  | VStr s => s
  | VRef _ => "[object Object]"
  end.

(** A seed whose conversion to a string is the one of the model: a string,
    a boolean, [null], [undefined], or an integer that a number holds
    exactly and prints in full (at most 2^53 in absolute value). *)
Definition plain_seed (v : jsval) : Prop :=
  match v with
  | VRef _ => False
  | VNum n => (Z.abs n <= 9007199254740992)%Z
  | _ => True
  end.

Definition plain_seeds (s : seeds) : Prop :=
  match s with
  | SeedValue v => plain_seed v
  | SeedArray vs => Forall plain_seed vs
  end.

(** The values of a seed argument that reach the result. *)
Definition seed_values (s : seeds) : list jsval :=
  match s with
  | SeedValue v => if truthy v then [v] else []
  | SeedArray vs => filter (fun v => nullish v = false) vs
  end.

Definition seed_into (rs : list string) (s : seeds) : list string :=
  foldl (fun rs v => set_add (pure_string v) rs) rs (seed_values s).

(** The result set after [defaults] and [extra]. *)
Definition seeded (defaults extra : seeds) : list string :=
  seed_into (seed_into [] defaults) extra.

(** The output of one rule on one key: [None] when the rule does not match
    or its output is dropped. *)
Definition add_hit (o : option string) (rs : list string) : list string :=
  match o with
  | Some s => set_add s rs
  | None => rs
  end.

Definition hits_of (hits : list (string → option string)) (key : string)
    (rs : list string) : list string :=
  foldl (fun rs h => add_hit (h key) rs) rs hits.

(** The match of a rule over strings or regular expressions, as a function
    of the key. *)
Definition pure_match {W} (m : Matcher W) (key : string) : bool :=
  if String.eqb (m_type m) "prefix" then
    match m_value m with MString s => startsWith key s | _ => false end
  else if String.eqb (m_type m) "suffix" then
    match m_value m with MString s => endsWith key s | _ => false end
  else if String.eqb (m_type m) "includes" then
    match m_value m with MString s => includes key s | _ => false end
  else if String.eqb (m_type m) "regex" then
    match m_value m with
    | MRegExp r =>
        bool_decide (is_Some (rx_search (rx_match_at r key) (rx_sticky r) 0
                                        (String.length key)))
    | _ => false
    end
  else false.

(** A rule without callbacks: no transform, not a predicate rule, and a
    pattern with the built-in [test] and [exec] and a writable
    [lastIndex]. *)
Definition plain_rule {W} (m : Matcher W) : Prop :=
  m_transform m = None
  ∧ m_type m ≠ "custom"
  ∧ (∀ r, m_type m = "regex" → m_value m = MRegExp r →
          rx_test r = None ∧ rx_exec r = None ∧ rx_lastIndex_writable r = true).

(** The output of a plain rule: the key, unless it is empty. *)
Definition plain_hit {W} (m : Matcher W) (key : string) : option string :=
  if pure_match m key && negb (String.eqb key "") then Some key else None.

(** The output of the rule of [getEventNames]. *)
Definition on_hit (key : string) : option string :=
  if startsWith key "on" && negb (String.eqb (slice_from 2 key) "")
  then Some (slice_from 2 key) else None.


(** A reference to an object of the heap. *)
Definition is_reference (v : jsval) : Prop := ∃ l, v = VRef l.

(** The names that [getEventNames] adds for its argument. *)
Definition given_events (events : seeds) : list string :=
  match events with
  | SeedArray vs => map pure_string (filter (fun v => nullish v = false) vs)
  | SeedValue _ => ["loaded"]
  end.

(** [wrapTarget] is neither ['owner'] nor ['prototype']: the wrapper goes on
    the object given by the caller. *)
Definition lo_wrapTarget_root {W} (o : ScopeLogger.LogOptions W) : Prop :=
  ScopeLogger.lo_wrapTarget o ≠ "owner" ∧ ScopeLogger.lo_wrapTarget o ≠ "prototype".


(** The computation [m] leaves the registry of wrapped members as it is. *)
Definition keeps_marks {W A} (m : M W A) : Prop :=
  ∀ st r st', m st = (r, st') → wrappedTargets st' = wrappedTargets st.

Section ReferenceReads.
Context {W : Type}.
Implicit Types (h : gmap loc (object W)) (v : jsval) (w : W).

(** The getters of the heap have no effect on the observed program: they
    may read it, return what they like and throw. *)
Definition quiet_getters h : Prop :=
  ∀ l o k g s e c,
    h !! l = Some o → (k, Accessor (Some g) s e c) ∈ o_props o →
    ∀ w, snd (g w) = w.

(** A heap whose objects have data properties only. *)
Definition is_data (p : prop W) : bool :=
  match p with
  | Data _ _ _ _ => true
  | Accessor _ _ _ _ => false
  end.

Definition data_only h : bool :=
  forallb (fun lo => forallb (fun kp => is_data (snd kp)) (o_props (snd lo)))
          (map_to_list h).

(** [m] leaves the state as it is, in a heap with quiet getters. *)
Definition reads_quietly {A} (m : M W A) : Prop :=
  ∀ st, quiet_getters (heap st) → snd (m st) = st.

(** [v[k]] as a function of the heap and of the observed program. *)
Definition read_value h w v (k : string) : outcome jsval :=
  match v with
  | VUndef | VNull => Throw TypeError
  | VRef l =>
      match find_prop h l k with
      | Some (Data x _ _ _) => Ret x
      | Some (Accessor (Some g) _ _ _) => fst (g w)
      | _ => Ret VUndef
      end
  | _ => Ret VUndef
  end.

Definition readable h w v (k : string) : Prop := ∃ x, read_value h w v k = Ret x.

(** [Object.keys(v)] and [Object.getOwnPropertyNames(v)] as functions of
    the heap. *)
Definition listed_keys (enumerable_only : bool) h v : outcome (list string) :=
  match v with
  | VUndef | VNull => Throw TypeError
  | VRef l =>
      match h !! l with
      | Some o =>
          match o_ownKeys_throws o with
          | Some e => Throw e
          | None =>
              Ret (map fst (filter (fun kp => orb (negb enumerable_only)
                                                  (prop_enumerable (snd kp)) = true)
                                   (o_props o)))
          end
      | None => Ret []
      end
  | _ => Ret []
  end.

Definition keys_or_empty (r : outcome (list string)) : list string :=
  match r with
  | Ret ks => ks
  | Throw _ => []
  end.

(** The names that [collectMembersWide] walks for one source. *)
Definition all_keys h v : list string :=
  keys_or_empty (listed_keys true h v) ++ keys_or_empty (listed_keys false h v).

(** One step of the loop of [collectMembers] over the keys. *)
Definition scan_one (hits : list (string → option string)) h w v
    (rs : list string) (key : string) : list string :=
  match read_value h w v key with
  | Ret _ => hits_of hits key rs
  | Throw _ => rs
  end.

(** [collectMembers] for rules that depend on the key only. *)
Definition pure_collectMembers (hits : list (string → option string)) h w
    (source : jsval) (rs0 : list string) : list string :=
  if truthy source then
    match listed_keys true h source with
    | Ret keys => foldl (scan_one hits h w source) rs0 keys
    | Throw _ => rs0
    end
  else rs0.

(** The state [st'] is [st] but for the cursors of the patterns. *)
Definition cursor_only (st st' : State W) : Prop :=
  ∃ li, st' = set_lastIndex li st.

(** The rule [m], observed by nobody, adds [hit key] for every key and
    changes cursors only. *)
Definition key_only (m : Matcher W) (hit : string → option string) : Prop :=
  ∀ key value src rs st,
    ∃ st', Collector.apply_matcher key value src None m rs st
           = (Ret (add_hit (hit key) rs), st')
           ∧ cursor_only st st'.

End ReferenceReads.

(** * Properties *)

(** ** Reasoning about the monad *)

Section MonadFacts.
Context {W : Type}.

Lemma returns_ret {A} (P : A → Prop) (a : A) : P a → returns P (ret a : M W A).
Proof. intros Ha st. by exists a, st. Qed.

Lemma returns_bind {A B} (P : A → Prop) (Q : B → Prop) (m : M W A) (k : A → M W B) :
  returns P m → (∀ a, P a → returns Q (k a)) → returns Q (bind m k).
Proof.
  intros Hm Hk st. destruct (Hm st) as (a & st' & E & Ha).
  destruct (Hk a Ha st') as (b & st'' & E' & Hb). exists b, st''.
  unfold bind. by rewrite E.
Qed.

Lemma returns_weaken {A} (P Q : A → Prop) (m : M W A) :
  returns P m → (∀ a, P a → Q a) → returns Q m.
Proof.
  intros Hm HPQ st. destruct (Hm st) as (a & st' & E & Ha). exists a, st'. auto.
Qed.

(** A handler that returns makes the whole [try] return; the result of the
    protected code, when it completes, has to be in [P] as well. *)
Lemma returns_try_catch {A} (P : A → Prop) (m : M W A) (h : jsval → M W A) :
  (∀ st a st', m st = (Ret a, st') → P a) →
  (∀ e, returns P (h e)) → returns P (try_catch m h).
Proof.
  intros Hm Hh st. unfold try_catch. destruct (m st) as [[a|e] st'] eqn:E.
  - exists a, st'. split; [done|]. by eapply Hm.
  - apply Hh.
Qed.

Lemma no_throw_ret {A} (a : A) : no_throw (ret a : M W A).
Proof. by apply returns_ret. Qed.

Lemma no_throw_bind {A B} (m : M W A) (k : A → M W B) :
  no_throw m → (∀ a, no_throw (k a)) → no_throw (bind m k).
Proof. intros Hm Hk. eapply returns_bind; [exact Hm|]. intros a _. apply Hk. Qed.

Lemma no_throw_try_catch {A} (m : M W A) (h : jsval → M W A) :
  (∀ e, no_throw (h e)) → no_throw (try_catch m h).
Proof. intros Hh. by apply returns_try_catch. Qed.

Lemma no_throw_get_state : no_throw (get_state : M W (State W)).
Proof. intros st. by exists st, st. Qed.

Lemma no_throw_modify (f : State W → State W) : no_throw (modify f).
Proof. intros st. by exists tt, (f st). Qed.

Lemma no_throw_for_each {A B} (xs : list A) (body : A → B → M W B) (b : B) :
  (∀ x b', x ∈ xs → no_throw (body x b')) → no_throw (for_each xs body b).
Proof.
  revert b. induction xs as [|x xs IH]; intros b Hbody; simpl.
  - apply no_throw_ret.
  - apply no_throw_bind.
    + apply Hbody. by left.
    + intros b'. apply IH. intros y b'' Hy. apply Hbody. by right.
Qed.

Lemma reads_only_ret {A} (a : A) : reads_only (ret a : M W A).
Proof. by intros st. Qed.

Lemma reads_only_throw {A} e : reads_only (throw e : M W A).
Proof. by intros st. Qed.

Lemma reads_only_get_state : reads_only (get_state : M W (State W)).
Proof. by intros st. Qed.

Lemma reads_only_bind {A B} (m : M W A) (k : A → M W B) :
  reads_only m → (∀ a, reads_only (k a)) → reads_only (bind m k).
Proof.
  intros Hm Hk st. unfold bind. specialize (Hm st).
  destruct (m st) as [[a|e] st']; simpl in *; subst; [apply Hk|done].
Qed.

Lemma reads_only_try_catch {A} (m : M W A) (h : jsval → M W A) :
  reads_only m → (∀ e, reads_only (h e)) → reads_only (try_catch m h).
Proof.
  intros Hm Hh st. unfold try_catch. specialize (Hm st).
  destruct (m st) as [[a|e] st']; simpl in *; subst; [done|apply Hh].
Qed.

Lemma reads_only_for_each {A B} (xs : list A) (body : A → B → M W B) (b : B) :
  (∀ x b', reads_only (body x b')) → reads_only (for_each xs body b).
Proof.
  intros Hbody. revert b. induction xs as [|x xs IH]; intros b; simpl.
  - apply reads_only_ret.
  - apply reads_only_bind; [apply Hbody|apply IH].
Qed.

Lemma reads_only_of_outcome {A} (r : outcome A) : reads_only (of_outcome r : M W A).
Proof. destruct r; [apply reads_only_ret|apply reads_only_throw]. Qed.

Lemma reads_only_to_string v : reads_only (to_string v : M W string).
Proof.
  destruct v as [| |[]| | |l]; try apply reads_only_ret.
  apply reads_only_bind; [apply reads_only_get_state|].
  intros st. destruct (heap st !! l); [apply reads_only_of_outcome|apply reads_only_ret].
Qed.

End MonadFacts.

Create HintDb nothrow.
#[local] Hint Resolve no_throw_ret no_throw_get_state no_throw_modify : nothrow.

(** ** Preset packs *)

Section PackFacts.
Context {W : Type}.
Implicit Types (arrays : gmap loc (list (Matcher W))).

Lemma new_array_fresh xs arrays :
  ∃ l, Packs.new_array xs arrays = (Ret l, <[l := xs]> arrays) ∧ arrays !! l = None.
Proof.
  exists (fresh (dom arrays)). split; [done|].
  apply not_elem_of_dom, is_fresh.
Qed.

Lemma table_intact_initial :
  Packs.table_intact (Packs.initial_arrays : gmap loc (list (Matcher W))).
Proof.
  intros name a rules H. unfold Packs.matcherPacks in H. simpl in H.
  repeat (case_match; simplify_eq; try done).
Qed.

Lemma table_intact_insert arrays l xs :
  Packs.table_intact arrays → arrays !! l = None →
  Packs.table_intact (<[l := xs]> arrays).
Proof.
  intros Hi Hl name a rules H. rewrite lookup_insert_ne; [by eapply Hi|].
  intros ->. apply Hi in H. congruence.
Qed.

(** Writing to an array that is not one of the table leaves the table. *)
Lemma table_intact_mutate arrays l xs ys :
  Packs.table_intact arrays → arrays !! l = None →
  Packs.table_intact (Packs.mutate_array l ys (<[l := xs]> arrays)).
Proof.
  intros Hi Hl. unfold Packs.mutate_array. rewrite insert_insert_eq.
  by apply table_intact_insert.
Qed.

(** [C9] The accessor returns a copy: for a pack name, the result is a new
    array holding the canned rules; whatever sequence of contents the caller
    gives to that array afterwards, the table keeps its lists, and the next
    call for the same name returns the canned rules again. *)
Theorem getMatcherPack_defensive_copy arrays name a rules :
  Packs.table_intact arrays →
  assoc name Packs.matcherPacks = Some (a, rules) →
  ∃ l, Packs.getMatcherPack name arrays = (Ret l, <[l := rules]> arrays)
       ∧ arrays !! l = None
       ∧ ∀ muts : list (list (Matcher W)),
           let arrays' := foldl (fun s xs => Packs.mutate_array l xs s)
                                (<[l := rules]> arrays) muts in
           Packs.table_intact arrays'
           ∧ arrays' !! a = Some rules
           ∧ ∃ l', Packs.getMatcherPack name arrays' = (Ret l', <[l' := rules]> arrays')
                   ∧ l' ≠ l.
Proof.
  intros Hi Hn.
  destruct (new_array_fresh rules arrays) as (l & El & Hl).
  exists l. split; [|split; [done|]].
  - unfold Packs.getMatcherPack, Packs.lookup_pack. rewrite Hn.
    by rewrite (Hi _ _ _ Hn).
  - intros muts.
    assert (Hfold : ∀ muts, ∃ xs,
               foldl (fun s ys => Packs.mutate_array l ys s) (<[l := rules]> arrays) muts
               = <[l := xs]> arrays).
    { clear muts. intros muts. generalize rules at 1 as xs.
      induction muts as [|ys muts IH]; intros xs; simpl.
      - by exists xs.
      - unfold Packs.mutate_array at 2. rewrite insert_insert_eq. apply IH. }
    destruct (Hfold muts) as (xs & ->). simpl.
    assert (Hi' : Packs.table_intact (<[l := xs]> arrays)) by by apply table_intact_insert.
    split; [done|]. split; [by eapply Hi'|].
    destruct (new_array_fresh rules (<[l := xs]> arrays)) as (l' & El' & Hl').
    exists l'. split.
    + unfold Packs.getMatcherPack, Packs.lookup_pack. rewrite Hn.
      by rewrite (Hi' _ _ _ Hn).
    + intros ->. by rewrite lookup_insert_eq in Hl'.
Qed.

(** A name that is neither a pack nor a member of [Object.prototype] gives
    a new empty array. *)
Lemma getMatcherPack_unknown arrays name :
  assoc name (Packs.matcherPacks : list (string * (loc * list (Matcher W)))) = None →
  name ∉ Packs.Object_prototype_names →
  ∃ l, Packs.getMatcherPack name arrays = (Ret l, <[l := []]> arrays)
       ∧ arrays !! l = None.
Proof.
  intros Hn Hp. unfold Packs.getMatcherPack, Packs.lookup_pack. rewrite Hn.
  rewrite bool_decide_eq_false_2 by done. apply new_array_fresh.
Qed.

(** Every name of a member of [Object.prototype] makes the accessor throw. *)
Lemma getMatcherPack_inherited arrays name :
  name ∈ Packs.Object_prototype_names →
  Packs.getMatcherPack name arrays = (Throw TypeError, arrays).
Proof.
  intros Hn. unfold Packs.getMatcherPack, Packs.lookup_pack.
  assert (Ha : assoc name (Packs.matcherPacks : list (string * (loc * list (Matcher W)))) = None).
  { unfold Packs.Object_prototype_names in Hn.
    repeat (apply elem_of_cons in Hn as [-> | Hn]; [reflexivity|]).
    by apply not_elem_of_nil in Hn. }
  rewrite Ha. by rewrite bool_decide_eq_true_2.
Qed.

End PackFacts.

Lemma getMatcherPack_defensive_copy_witness :
  ∃ l, Packs.getMatcherPack (W := unit) "network" Packs.initial_arrays
       = (Ret l, <[l := Packs.network]> Packs.initial_arrays).
Proof.
  destruct (getMatcherPack_defensive_copy (W := unit) Packs.initial_arrays
              "network" 1 Packs.network) as (l & E & _).
  - apply table_intact_initial.
  - reflexivity.
  - by exists l.
Defined.

(** [C10] The name ["toString"] is not a key of the table, and the accessor
    throws: the lookup finds the function inherited from [Object.prototype],
    which is truthy and has no [slice]. *)
Theorem getMatcherPack_inherited_name_throws :
  assoc "toString" (Packs.matcherPacks (W := unit)) = None
  ∧ Packs.getMatcherPack (W := unit) "toString" Packs.initial_arrays
    = (Throw TypeError, Packs.initial_arrays).
Proof. split; reflexivity. Qed.

(** ** The default source *)

Section DefaultSource.
Context {W : Type}.
Implicit Types (st : State W).

Lemma typeof_undefined st v :
  negb (String.eqb (typeof st v) "undefined") = negb (bool_decide (v = VUndef)).
Proof.
  destruct v; simpl; try done.
  destruct (heap st !! l) as [o|]; [destruct (o_call o)|]; done.
Qed.

Lemma Collector_getDefaultSource_order st :
  Collector.getDefaultSource st = probe_in_order order_globalThis_first st.
Proof.
  unfold Collector.getDefaultSource, probe_in_order, bind, get_state. simpl.
  rewrite !typeof_undefined.
  repeat (case_bool_decide; simpl; try done).
Qed.

Lemma CrawlerJs_getDefaultSource_order st :
  CrawlerJs.getDefaultSource st = probe_in_order order_window_first st.
Proof.
  unfold CrawlerJs.getDefaultSource, probe_in_order, bind, get_state. simpl.
  rewrite !typeof_undefined.
  repeat (case_bool_decide; simpl; try done).
Qed.

Lemma probe_found order st v :
  first_defined (order (genv st)) = Some v →
  probe_in_order order st = (Ret v, st) ∧ v ≠ VUndef.
Proof.
  intros H. split.
  - unfold probe_in_order, bind, get_state. by rewrite H.
  - induction (order (genv st)) as [|x xs IH]; simpl in H; [done|].
    case_bool_decide; [by apply IH|congruence].
Qed.

Lemma Collector_seedSet_reads_only rs values : reads_only (W := W) (Collector.seedSet rs values).
Proof.
  destruct values as [v|arr]; simpl.
  - repeat case_match; try apply reads_only_ret.
    apply reads_only_bind; [apply reads_only_to_string|intros; apply reads_only_ret].
  - apply reads_only_for_each. intros x b. case_match; [|apply reads_only_ret].
    apply reads_only_bind; [apply reads_only_to_string|intros; apply reads_only_ret].
Qed.

Lemma CrawlerJs_addAll_reads_only rs values : reads_only (W := W) (CrawlerJs.addAll rs values).
Proof.
  destruct values as [v|arr]; simpl.
  - repeat case_match; try apply reads_only_ret.
    apply reads_only_bind; [apply reads_only_to_string|intros; apply reads_only_ret].
  - apply reads_only_for_each. intros x b. case_match; [|apply reads_only_ret].
    apply reads_only_bind; [apply reads_only_to_string|intros; apply reads_only_ret].
Qed.

(** [C2] Each collector resolves the default object by probing three
    bindings in an order of its own, and falls back to a new empty object:
    [globalThis], [window], [global] in the collector with matcher packs,
    and [window], [globalThis], [global] in [crawler.js]. Within one
    collector, [collectMembers] without [source] and [collectMembersWide]
    without [root] behave as with the first defined binding of that order. *)
Theorem default_source_order_per_collector st :
  Collector.getDefaultSource st = probe_in_order order_globalThis_first st
  ∧ CrawlerJs.getDefaultSource st = probe_in_order order_window_first st
  ∧ (∀ v defaults extra matchers onMatch expand,
       first_defined (order_globalThis_first (genv st)) = Some v →
       Collector.collectMembers
         {| Collector.co_source := VUndef; Collector.co_defaults := defaults;
            Collector.co_extra := extra; Collector.co_matchers := matchers;
            Collector.co_onMatch := onMatch |} st
       = Collector.collectMembers
         {| Collector.co_source := v; Collector.co_defaults := defaults;
            Collector.co_extra := extra; Collector.co_matchers := matchers;
            Collector.co_onMatch := onMatch |} st
       ∧ Collector.collectMembersWide
         {| Collector.wo_root := VUndef; Collector.wo_defaults := defaults;
            Collector.wo_extra := extra; Collector.wo_matchers := matchers;
            Collector.wo_onMatch := onMatch; Collector.wo_expandChildren := expand |} st
       = Collector.collectMembersWide
         {| Collector.wo_root := v; Collector.wo_defaults := defaults;
            Collector.wo_extra := extra; Collector.wo_matchers := matchers;
            Collector.wo_onMatch := onMatch; Collector.wo_expandChildren := expand |} st)
  ∧ (∀ v defaults extra matchers,
       first_defined (order_window_first (genv st)) = Some v →
       CrawlerJs.collectMembers
         {| CrawlerJs.co_source := VUndef; CrawlerJs.co_defaults := defaults;
            CrawlerJs.co_extra := extra; CrawlerJs.co_matchers := matchers |} st
       = CrawlerJs.collectMembers
         {| CrawlerJs.co_source := v; CrawlerJs.co_defaults := defaults;
            CrawlerJs.co_extra := extra; CrawlerJs.co_matchers := matchers |} st
       ∧ CrawlerJs.collectMembersWide
         {| CrawlerJs.wo_root := VUndef; CrawlerJs.wo_defaults := defaults;
            CrawlerJs.wo_extra := extra; CrawlerJs.wo_matchers := matchers |} st
       = CrawlerJs.collectMembersWide
         {| CrawlerJs.wo_root := v; CrawlerJs.wo_defaults := defaults;
            CrawlerJs.wo_extra := extra; CrawlerJs.wo_matchers := matchers |} st).
Proof.
  split; [apply Collector_getDefaultSource_order|].
  split; [apply CrawlerJs_getDefaultSource_order|].
  split.
  - intros v defaults extra matchers onMatch expand Hv.
    split.
    + unfold Collector.collectMembers; simpl.
      unfold bind at 1. rewrite Collector_getDefaultSource_order.
      destruct (probe_found _ _ _ Hv) as [-> Hne].
      by destruct v.
    + unfold Collector.collectMembersWide; simpl.
      unfold bind. 
      pose proof (Collector_seedSet_reads_only [] (Collector.default_seeds defaults) st) as H1.
      destruct (Collector.seedSet [] _ st) as [[rs|e] st1]; simpl in H1; subst st1; [|done].
      pose proof (Collector_seedSet_reads_only rs (Collector.default_seeds extra) st) as H2.
      destruct (Collector.seedSet rs _ st) as [[rs'|e] st2]; simpl in H2; subst st2; [|done].
      rewrite Collector_getDefaultSource_order.
      destruct (probe_found _ _ _ Hv) as [E Hne].
      destruct (truthy v); simpl; [by rewrite E|].
      by rewrite Collector_getDefaultSource_order, !E.
  - intros v defaults extra matchers Hv.
    split.
    + unfold CrawlerJs.collectMembers; simpl.
      unfold bind at 1. rewrite CrawlerJs_getDefaultSource_order.
      destruct (probe_found _ _ _ Hv) as [-> Hne].
      by destruct v.
    + unfold CrawlerJs.collectMembersWide; simpl.
      unfold bind.
      pose proof (CrawlerJs_addAll_reads_only [] (Collector.default_seeds defaults) st) as H1.
      destruct (CrawlerJs.addAll [] _ st) as [[rs|e] st1]; simpl in H1; subst st1; [|done].
      pose proof (CrawlerJs_addAll_reads_only rs (Collector.default_seeds extra) st) as H2.
      destruct (CrawlerJs.addAll rs _ st) as [[rs'|e] st2]; simpl in H2; subst st2; [|done].
      rewrite CrawlerJs_getDefaultSource_order.
      destruct (probe_found _ _ _ Hv) as [E Hne].
      destruct (truthy v); simpl; [by rewrite E|].
      by rewrite CrawlerJs_getDefaultSource_order, !E.
Qed.

End DefaultSource.

Lemma default_source_order_per_collector_witness :
  first_defined (order_globalThis_first (genv two_globals)) = Some (VRef 10)
  ∧ Collector.collectMembers
      {| Collector.co_source := VUndef; Collector.co_defaults := SeedArray [];
         Collector.co_extra := SeedArray []; Collector.co_matchers := match_all;
         Collector.co_onMatch := None |} two_globals
    = Collector.collectMembers
      {| Collector.co_source := VRef 10; Collector.co_defaults := SeedArray [];
         Collector.co_extra := SeedArray []; Collector.co_matchers := match_all;
         Collector.co_onMatch := None |} two_globals.
Proof.
  split; [reflexivity|].
  destruct (default_source_order_per_collector two_globals) as (_ & _ & H & _).
  apply (H (VRef 10) (SeedArray []) (SeedArray []) match_all None None).
  reflexivity.
Defined.

(** Where [window] and [globalThis] are different objects, the two
    collectors resolve different default objects: the entry points of the
    repository do not observe one order. *)
Lemma default_source_order_differs :
  fst (Collector.getDefaultSource two_globals) = Ret (VRef 10)
  ∧ fst (CrawlerJs.getDefaultSource two_globals) = Ret (VRef 11)
  ∧ fst (Collector.collectMembers
           {| Collector.co_source := VUndef; Collector.co_defaults := SeedArray [];
              Collector.co_extra := SeedArray []; Collector.co_matchers := match_all;
              Collector.co_onMatch := None |} two_globals) = Ret ["setTimeout"]
  ∧ fst (CrawlerJs.collectMembers
           {| CrawlerJs.co_source := VUndef; CrawlerJs.co_defaults := SeedArray [];
              CrawlerJs.co_extra := SeedArray []; CrawlerJs.co_matchers := match_all |}
           two_globals) = Ret ["document"]
  ∧ fst (Collector.collectMembersWide
           {| Collector.wo_root := VUndef; Collector.wo_defaults := SeedArray [];
              Collector.wo_extra := SeedArray []; Collector.wo_matchers := match_all;
              Collector.wo_onMatch := None; Collector.wo_expandChildren := None |}
           two_globals) = Ret ["setTimeout"]
  ∧ fst (CrawlerJs.collectMembersWide
           {| CrawlerJs.wo_root := VUndef; CrawlerJs.wo_defaults := SeedArray [];
              CrawlerJs.wo_extra := SeedArray []; CrawlerJs.wo_matchers := match_all |}
           two_globals) = Ret ["document"].
Proof. repeat split; vm_compute; reflexivity. Qed.

(** ** Regular expressions with a cursor *)

(** [C6] In [crawler.js] the cursor is not reset: two calls of
    [collectMembers] with the same [/a/g] object over [{ xa: 1 }] give
    [["xa"]] and then [[]]. *)
Theorem CrawlerJs_regex_cursor_not_reset :
  fst ((first <- CrawlerJs.collectMembers crawler_regex_options;;
        second <- CrawlerJs.collectMembers crawler_regex_options;;
        ret (first, second)) one_member)
  = Ret (["xa"], []).
Proof. vm_compute. reflexivity. Qed.

(** The later collector resets the cursor, and the two calls agree. *)
Lemma Collector_regex_two_calls_agree :
  fst ((first <- Collector.collectMembers collector_regex_options;;
        second <- Collector.collectMembers collector_regex_options;;
        ret (first, second)) one_member)
  = Ret (["xa"], ["xa"]).
Proof. vm_compute. reflexivity. Qed.

Section RegexReset.
Context {W : Type}.

(** After the reset, the built-in test does not depend on the cursor that
    an earlier use has left. *)
Lemma Collector_regex_test_stateless (r : RegExp W) key (st : State W) li :
  rx_test r = None → rx_exec r = None →
  fst ((rx_set_lastIndex r 0;;; RegExp_test r key) (set_lastIndex li st))
  = fst ((rx_set_lastIndex r 0;;; RegExp_test r key) st).
Proof.
  intros Ht He. unfold RegExp_test. rewrite Ht, He.
  unfold rx_builtin_test, bind, get_state, rx_lastIndex.
  destruct (rx_lastIndex_writable r) eqn:Hw;
    unfold rx_set_lastIndex; rewrite Hw; unfold modify, throw, ret; simpl; [|done].
  rewrite !lookup_insert_eq. simpl.
  destruct (rx_global r || rx_sticky r); simpl;
    repeat (case_match; simpl; try done).
Qed.

End RegexReset.

(** ** The logging wrappers *)

(** One call of [addLoggingToFunctions]: one observation per call of [f]. *)
Lemma instrument_once_logs_once :
  let run := (ScopeLogger.addLoggingToFunctions (VRef 10) (ScopeLogger.default_options quiet);;;
              ScopeLogger.invoke (VRef 10) "f" []) (state_with_f returns_one true true) in
  fst run = Ret (VNum 1)
  ∧ trace (snd run) = [call_observation (Some (VNum 1)) (Some VUndef)].
Proof. vm_compute. split; reflexivity. Qed.

(** [C5] Two calls of [addLoggingToFunctions] on the same object with the
    same options wrap [f] twice: the registry of wrapped keys is local to a
    call, so the second call wraps the wrapper of the first, and one call of
    [f] hands two observations to the logger. *)
Theorem instrument_twice_logs_twice :
  let run := (ScopeLogger.addLoggingToFunctions (VRef 10) (ScopeLogger.default_options quiet);;;
              ScopeLogger.addLoggingToFunctions (VRef 10) (ScopeLogger.default_options quiet);;;
              ScopeLogger.invoke (VRef 10) "f" []) (state_with_f returns_one true true) in
  fst run = Ret (VNum 1)
  ∧ trace (snd run) = [call_observation (Some (VNum 1)) (Some VUndef);
                       call_observation (Some (VNum 1)) (Some VUndef)].
Proof. vm_compute. split; reflexivity. Qed.

(** [C3] For a member that is neither writable nor configurable, the
    installation fails and is swallowed, the member keeps its value, and the
    pair of target and key is in the registry all the same: [markWrapped]
    records it before the installation is tried. *)
Theorem failed_install_is_recorded :
  let run := ScopeLogger.addLoggingToFunctions (VRef 10) (ScopeLogger.default_options quiet)
               (state_with_f returns_one false false) in
  fst run = Ret tt
  ∧ own_prop (heap (snd run)) 10 "f" = Some (Data (VRef 11) false true false)
  ∧ wrappedTargets (snd run) !! 10 = Some {["f"]}.
Proof. vm_compute. repeat split; reflexivity. Qed.

Section WrapperFacts.
Context {W : Type}.
Implicit Types (st : State W).

Lemma runLogger_eq (logger : sink W) info st :
  ScopeLogger.runLogger logger info st
  = (Ret tt, set_world (snd (logger info (world st)))
                       (set_trace (trace st ++ [info]) st)).
Proof.
  unfold ScopeLogger.runLogger, bind, modify, try_catch, user, ret. simpl.
  destruct (logger info (world st)) as [[x|e] w]; reflexivity.
Qed.

(** [C7] When the wrapped function throws [E], the wrapper throws [E], and
    between the throw of the function and the throw of the wrapper exactly
    one observation goes to the logger: phase [call], with the error [E].
    Nothing but the logger's own effect on the observed program changes;
    a failure of the logger changes nothing of this. *)
Theorem wrapper_rethrows_after_one_observation
    label key awaitPromises (logger : sink W) (f : fnbody W) this args st E st1 :
  ScopeLogger.call_fn f this args st = (Throw E, st1) →
  let info := {| ob_label := label; ob_key := key; ob_args := args;
                 ob_result := Some VUndef; ob_error := Some E;
                 ob_thisArg := this; ob_phase := PhCall |} in
  ∃ st2,
    ScopeLogger.call_fn (Wrapper label key awaitPromises logger (Some f)) this args st
    = (Throw E, st2)
    ∧ trace st2 = trace st1 ++ [info]
    ∧ heap st2 = heap st1 ∧ jobs st2 = jobs st1
    ∧ world st2 = snd (logger info (world st1))
    ∧ (∀ g, f = Native g → trace st1 = trace st).
Proof.
  intros Hf info. eexists. split.
  - simpl. unfold ScopeLogger.wrapper_body, bind at 1, try_catch. rewrite Hf.
    unfold bind. rewrite runLogger_eq. reflexivity.
  - simpl. repeat split. intros g ->. simpl in Hf. unfold user in Hf.
    destruct (g this args (world st)) as [r w]. by inversion Hf.
Qed.

End WrapperFacts.

Lemma wrapper_rethrows_after_one_observation_witness :
  ∃ st2,
    ScopeLogger.call_fn (Wrapper "[LOG]" "f" false quiet (Some throws_E)) (VRef 10) []
      (state_with_f throws_E true true) = (Throw (VStr "E"), st2)
    ∧ trace st2 = [call_observation (Some VUndef) (Some (VStr "E"))].
Proof.
  destruct (wrapper_rethrows_after_one_observation "[LOG]" "f" false quiet throws_E
              (VRef 10) [] (state_with_f throws_E true true) (VStr "E")
              (state_with_f throws_E true true) eq_refl)
    as (st2 & E & Ht & _).
  exists st2. split; [exact E|exact Ht].
Defined.

(** The same through [addLoggingToFunctions]: the instrumented member
    throws [E] and the logger receives one observation. *)
Lemma instrumented_member_rethrows :
  let run := (ScopeLogger.addLoggingToFunctions (VRef 10) (ScopeLogger.default_options quiet);;;
              ScopeLogger.invoke (VRef 10) "f" []) (state_with_f throws_E true true) in
  fst run = Throw (VStr "E")
  ∧ trace (snd run) = [call_observation (Some VUndef) (Some (VStr "E"))].
Proof. vm_compute. split; reflexivity. Qed.

(** ** Promises returned by wrapped functions *)

Section PromiseFacts.
Context {W : Type}.
Implicit Types (st : State W).

Lemma fresh_not_in st l o : heap st !! l = Some o → fresh (dom (heap st)) ≠ l.
Proof.
  intros H E. apply (is_fresh (dom (heap st))). rewrite E.
  apply elem_of_dom. by exists o.
Qed.

Lemma fresh_lookup st : heap st !! fresh (dom (heap st)) = None.
Proof. apply not_elem_of_dom, is_fresh. Qed.

Lemma promise_react_spec p mk st o s rs :
  heap st !! p = Some o → o_promise o = Some (s, rs) →
  let d := fresh (dom (heap st)) in
  let h := <[d := ScopeLogger.promise_object (genv st) Pending []]> (heap st) in
  ScopeLogger.promise_react p mk st
  = (Ret d, match s with
            | Pending => set_heap (<[p := ScopeLogger.set_promise Pending (rs ++ [mk d]) o]> h) st
            | _ => set_jobs (jobs st ++ [(mk d, s)]) (set_heap h st)
            end).
Proof.
  intros Hp Ho d h.
  unfold ScopeLogger.promise_react, bind, get_state, alloc, modify, ret. simpl.
  fold d. rewrite lookup_insert_ne by (by apply (fresh_not_in st p o)).
  rewrite Hp, Ho. by destruct s.
Qed.

Lemma settle_spec p s st o rs :
  heap st !! p = Some o → o_promise o = Some (Pending, rs) →
  ScopeLogger.settle p s st
  = (Ret tt, set_jobs (jobs st ++ map (fun r => (r, s)) rs)
               (set_heap (<[p := ScopeLogger.set_promise s [] o]> (heap st)) st)).
Proof.
  intros Hp Ho. unfold ScopeLogger.settle, modify. by rewrite Hp, Ho.
Qed.

Lemma settle_settled p s st o s' rs :
  heap st !! p = Some o → o_promise o = Some (s', rs) → s' ≠ Pending →
  ScopeLogger.settle p s st = (Ret tt, st).
Proof.
  intros Hp Ho Hs. unfold ScopeLogger.settle, modify. rewrite Hp, Ho. by destruct s'.
Qed.

Lemma run_jobs_step fuel st j rest :
  jobs st = j :: rest →
  ScopeLogger.run_jobs (S fuel) st
  = (ScopeLogger.run_job j;;; ScopeLogger.run_jobs fuel) (set_jobs rest st).
Proof. intros H. simpl. unfold bind at 1, get_state. rewrite H. reflexivity. Qed.

Lemma run_jobs_empty fuel st : jobs st = [] → ScopeLogger.run_jobs fuel st = (Ret tt, st).
Proof. intros H. destruct fuel; [done|]. simpl. unfold bind, get_state. by rewrite H. Qed.



End PromiseFacts.



(** ** The collectors never throw on well-formed input *)


(** The built-in [test] calls the member [exec] of the pattern, and that call
    is not guarded either. *)
Lemma collect_throws_on_hostile_exec :
  fst (Collector.collectMembers
         {| Collector.co_source := VRef 10; Collector.co_defaults := SeedArray [];
            Collector.co_extra := SeedArray []; Collector.co_matchers := hostile_exec_rule;
            Collector.co_onMatch := None |} one_member) = Throw (VStr "boom")
  ∧ fst (Collector.collectMembersWide
           {| Collector.wo_root := VRef 10; Collector.wo_defaults := SeedArray [];
              Collector.wo_extra := SeedArray []; Collector.wo_matchers := hostile_exec_rule;
              Collector.wo_onMatch := None; Collector.wo_expandChildren := None |}
           one_member) = Throw (VStr "boom").
Proof. split; vm_compute; reflexivity. Qed.

Section NeverThrows.
Context {W : Type}.
Implicit Types (st : State W) (v : jsval).

Ltac nothrow_step :=
  match goal with
  | |- no_throw (ret _) => apply no_throw_ret
  | |- no_throw get_state => apply no_throw_get_state
  | |- no_throw (modify _) => apply no_throw_modify
  | |- no_throw (try_catch _ _) => apply no_throw_try_catch; intros ?
  | |- no_throw (bind _ _) => apply no_throw_bind; [|intros ?]
  | |- no_throw (if ?b then _ else _) => destruct b
  | |- no_throw (match ?x with _ => _ end) => destruct x
  end.
Ltac nothrow := repeat nothrow_step.












Lemma no_throw_addSourceM obj srcs : no_throw (Collector.addSourceM obj srcs : M W _).
Proof. unfold Collector.addSourceM. nothrow. Qed.

Lemma no_throw_expand_child root c srcs : no_throw (Collector.expand_child root c srcs : M W _).
Proof. unfold Collector.expand_child. nothrow. Qed.

Lemma no_throw_add_member root p srcs : no_throw (Collector.add_member root p srcs : M W _).
Proof. unfold Collector.add_member. nothrow. Qed.

Lemma no_throw_add_chain root srcs : no_throw (Collector.add_chain root srcs : M W _).
Proof. unfold Collector.add_chain. nothrow. Qed.

Lemma no_throw_push_name c n names : no_throw (Collector.push_name c n names : M W _).
Proof. unfold Collector.push_name. nothrow. Qed.

Lemma no_throw_add_alias g nm srcs : no_throw (Collector.add_alias g nm srcs : M W _).
Proof. unfold Collector.add_alias. nothrow. Qed.

Lemma no_throw_add_aliases root srcs : no_throw (Collector.add_aliases root srcs : M W _).
Proof.
  unfold Collector.add_aliases.
  apply no_throw_bind; [apply no_throw_get_state|]. intros st. cbv zeta.
  destruct (truthy (Collector.alias_global st)); [|apply no_throw_ret].
  repeat (apply no_throw_bind; [apply no_throw_push_name|intros ?]).
  apply no_throw_for_each. intros nm s _. apply no_throw_add_alias.
Qed.

Lemma no_throw_family root expand : no_throw (Collector.family root expand : M W _).
Proof.
  unfold Collector.family.
  apply no_throw_bind; [apply no_throw_addSourceM|]. intros s0.
  apply no_throw_bind.
  { apply no_throw_for_each. intros c s _. apply no_throw_expand_child. }
  intros s1.
  apply no_throw_bind; [apply no_throw_add_member|]. intros s2.
  apply no_throw_bind; [apply no_throw_add_member|]. intros s3.
  apply no_throw_bind; [apply no_throw_add_chain|]. intros s4.
  apply no_throw_add_aliases.
Qed.



End NeverThrows.


(** ** The family of a root is scanned once per member *)

Section FamilyFacts.
Context {W : Type}.
Implicit Types (st : State W) (v : jsval).

Lemma ensures_any {A} (m : M W A) : ensures (fun _ => True) m.
Proof. by intros st a st' _. Qed.

Lemma ensures_ret {A} (P : A → Prop) a : P a → ensures P (ret a : M W A).
Proof. intros Ha st a' st' H. by inversion H; subst. Qed.

Lemma ensures_bind {A B} (Q : B → Prop) (m : M W A) (k : A → M W B) :
  (∀ a, ensures Q (k a)) → ensures Q (bind m k).
Proof.
  intros Hk st b st' H. unfold bind in H.
  destruct (m st) as [[a|e] st1]; [by eapply Hk|done].
Qed.

Lemma ensures_try_catch {A} (P : A → Prop) (m : M W A) (h : jsval → M W A) :
  ensures P m → (∀ e, ensures P (h e)) → ensures P (try_catch m h).
Proof.
  intros Hm Hh st a st' H. unfold try_catch in H.
  destruct (m st) as [[a'|e] st1] eqn:E.
  - inversion H; subst. by eapply Hm.
  - by eapply Hh.
Qed.

Lemma ensures_for_each {A B} (P : B → Prop) (xs : list A) (body : A → B → M W B) b :
  P b → (∀ x b', P b' → ensures P (body x b')) → ensures P (for_each xs body b).
Proof.
  intros Hb Hbody. revert b Hb. induction xs as [|x xs IH]; intros b Hb; simpl.
  - by apply ensures_ret.
  - intros st b'' st'' H. unfold bind in H.
    destruct (body x b st) as [[b'|e] st1] eqn:E; [|done].
    eapply IH; [|exact H]. by eapply Hbody.
Qed.

Ltac ensures_step :=
  match goal with
  | |- ensures _ (ret _) => apply ensures_ret; try done
  | |- ensures _ (try_catch _ _) => apply ensures_try_catch; [|intros ?]
  | |- ensures _ (bind _ _) => apply ensures_bind; intros ?
  | |- ensures _ (if ?b then _ else _) => destruct b
  | |- ensures _ (match ?x with _ => _ end) => destruct x
  end.

Lemma addSource_NoDup st obj (sources : list jsval) :
  NoDup sources → NoDup (Collector.addSource st obj sources).
Proof.
  intros Hs. unfold Collector.addSource.
  repeat case_match; try done. case_bool_decide; [done|].
  apply NoDup_app. split_and!; [done| |apply NoDup_singleton].
  intros x Hx ->%list_elem_of_singleton. done.
Qed.

Lemma addSourceM_NoDup obj (sources : list jsval) :
  NoDup sources → ensures (NoDup (A := jsval)) (Collector.addSourceM obj sources : M W _).
Proof.
  intros Hs st a st' H. unfold Collector.addSourceM, bind, get_state, ret in H.
  inversion H; subst. by apply addSource_NoDup.
Qed.

Lemma walk_chain_NoDup fuel proto (sources : list jsval) :
  NoDup sources → ensures (NoDup (A := jsval)) (Collector.walk_chain fuel proto sources : M W _).
Proof.
  revert proto sources. induction fuel as [|fuel IH]; intros proto sources Hs; simpl.
  - by apply ensures_ret.
  - apply ensures_bind. intros st.
    destruct (_ && _); [|by apply ensures_ret].
    apply ensures_try_catch.
    + apply ensures_bind. intros proto'. by apply IH, addSource_NoDup.
    + intros e. by apply ensures_ret, addSource_NoDup.
Qed.

Lemma add_chain_NoDup root (sources : list jsval) :
  NoDup sources → ensures (NoDup (A := jsval)) (Collector.add_chain root sources : M W _).
Proof.
  intros Hs. unfold Collector.add_chain.
  apply ensures_try_catch; [|intros e; by apply ensures_ret].
  apply ensures_bind. intros proto. apply ensures_bind. intros st.
  by apply walk_chain_NoDup.
Qed.

Lemma add_aliases_NoDup root (sources : list jsval) :
  NoDup sources → ensures (NoDup (A := jsval)) (Collector.add_aliases root sources : M W _).
Proof.
  intros Hs. unfold Collector.add_aliases.
  apply ensures_bind. intros st. cbv zeta.
  destruct (truthy (Collector.alias_global st)); [|by apply ensures_ret].
  do 3 (apply ensures_bind; intros ?).
  apply ensures_for_each; [done|].
  intros nm s Hn. unfold Collector.add_alias.
  repeat ensures_step. by apply addSourceM_NoDup.
Qed.

(** The closure of a root holds no reference twice. *)
Lemma family_NoDup root expand :
  ensures (NoDup (A := jsval)) (Collector.family root expand : M W _).
Proof.
  unfold Collector.family.
  intros st srcs st' H. unfold bind at 1 in H.
  destruct (Collector.addSourceM root [] st) as [[s0|e] st0] eqn:E0; [|done].
  assert (N0 : NoDup s0) by (eapply addSourceM_NoDup; [apply NoDup_nil_2|exact E0]).
  unfold bind at 1 in H.
  destruct (for_each expand _ s0 st0) as [[s1|e] st1] eqn:E1; [|done].
  assert (N1 : NoDup s1).
  { eapply (ensures_for_each (NoDup (A := jsval))); [exact N0| |exact E1].
    intros c s Hs. unfold Collector.expand_child.
    repeat ensures_step. by apply addSourceM_NoDup. }
  assert (Hmember : ∀ p s, NoDup s →
            ensures (NoDup (A := jsval)) (Collector.add_member root p s : M W _)).
  { intros p s Hs. unfold Collector.add_member.
    repeat ensures_step. by apply addSourceM_NoDup. }
  unfold bind at 1 in H.
  destruct (Collector.add_member root "constructor" s1 st1) as [[s2|e] st2] eqn:E2; [|done].
  assert (N2 : NoDup s2) by (by eapply Hmember).
  unfold bind at 1 in H.
  destruct (Collector.add_member root "prototype" s2 st2) as [[s3|e] st3] eqn:E3; [|done].
  assert (N3 : NoDup s3) by (by eapply Hmember).
  unfold bind at 1 in H.
  destruct (Collector.add_chain root s3 st3) as [[s4|e] st4] eqn:E4; [|done].
  assert (N4 : NoDup s4).
  { eapply add_chain_NoDup; [exact N3|exact E4]. }
  eapply add_aliases_NoDup; [exact N4|exact H].
Qed.

End FamilyFacts.

Section ReadOnlyFacts.
Context {W : Type}.
Implicit Types (st : State W) (v : jsval).

Ltac readonly_step :=
  match goal with
  | |- reads_only (ret _) => apply reads_only_ret
  | |- reads_only (throw _) => apply reads_only_throw
  | |- reads_only get_state => apply reads_only_get_state
  | |- reads_only (of_outcome _) => apply reads_only_of_outcome
  | |- reads_only (to_string _) => apply reads_only_to_string
  | |- reads_only (try_catch _ _) => apply reads_only_try_catch; [|intros ?]
  | |- reads_only (bind _ _) => apply reads_only_bind; [|intros ?]
  | |- reads_only (if ?b then _ else _) => destruct b
  | |- reads_only (match ?x with _ => _ end) => destruct x
  end.
Ltac readonly := repeat readonly_step.

Lemma set_world_same st : set_world (world st) st = st.
Proof. by destruct st. Qed.

Lemma assoc_elem {A} k (ps : list (string * A)) a : assoc k ps = Some a → (k, a) ∈ ps.
Proof.
  induction ps as [|[k' a'] ps IH]; simpl; [done|].
  destruct (String.eqb k k') eqn:E.
  - apply String.eqb_eq in E. intros H. inversion H; subst. left.
  - intros H. right. by apply IH.
Qed.

(** A heap without accessors has quiet getters. *)
Lemma data_only_quiet (h : gmap loc (object W)) : data_only h = true → quiet_getters h.
Proof.
  intros H l o k g s e c Hl Hin w. unfold data_only in H.
  rewrite forallb_forall in H. specialize (H (l, o)).
  rewrite <- list_elem_of_In, elem_of_map_to_list in H. specialize (H Hl).
  rewrite forallb_forall in H. specialize (H (k, Accessor (Some g) s e c)).
  rewrite <- list_elem_of_In in H. by specialize (H Hin).
Qed.

(** It is enough that each getter listed in the heap is quiet. *)
Lemma quiet_getters_listed (h : gmap loc (object W)) :
  Forall (fun lo : loc * object W =>
            Forall (fun kp : string * prop W =>
                      match snd kp with
                      | Accessor (Some g) _ _ _ => ∀ w, snd (g w) = w
                      | _ => True
                      end) (o_props (snd lo))) (map_to_list h) →
  quiet_getters h.
Proof.
  intros H l o k g s e c Hl Hin w.
  rewrite Forall_forall in H. specialize (H (l, o)).
  rewrite elem_of_map_to_list in H. specialize (H Hl). simpl in H.
  rewrite Forall_forall in H. by specialize (H _ Hin w).
Qed.

(** A property that a lookup finds is a property of an object of the
    heap. *)
Lemma find_prop_elem (h : gmap loc (object W)) l k p :
  find_prop h l k = Some p → ∃ l' o, h !! l' = Some o ∧ (k, p) ∈ o_props o.
Proof.
  unfold find_prop. generalize (size h). intros fuel. revert l.
  induction fuel as [|fuel IH]; intros l; simpl; [done|].
  destruct (h !! l) as [o|] eqn:El; [|done].
  destruct (assoc k (o_props o)) as [p'|] eqn:Ea.
  - intros H. inversion H; subst. exists l, o. split; [done|]. by apply assoc_elem.
  - destruct (o_proto o) as [l'|]; [apply IH|done].
Qed.

(** In a heap with quiet getters, a read is a function of the heap and of
    the observed program, and changes nothing. *)
Lemma get_read v k st :
  quiet_getters (heap st) → get v k st = (read_value (heap st) (world st) v k, st).
Proof.
  intros Hq. destruct v as [| |b|n|x|l]; simpl; try done.
  unfold bind, get_state. simpl.
  destruct (find_prop (heap st) l k) as [[x w e c|[g|] s e c]|] eqn:E; try done.
  destruct (find_prop_elem _ _ _ _ E) as (l' & o & Hl & Hin).
  unfold user. pose proof (Hq _ _ _ _ _ _ _ Hl Hin (world st)) as Hw.
  destruct (g (world st)) as [r w]. simpl in *. subst w. by rewrite set_world_same.
Qed.

Lemma reads_quietly_of {A} (m : M W A) : reads_only m → reads_quietly m.
Proof. intros H st _. apply H. Qed.

Lemma reads_quietly_bind {A B} (m : M W A) (k : A → M W B) :
  reads_quietly m → (∀ a, reads_quietly (k a)) → reads_quietly (bind m k).
Proof.
  intros Hm Hk st Hq. unfold bind. specialize (Hm st Hq).
  destruct (m st) as [[a|e] st1]; simpl in *; subst st1; [by apply Hk|done].
Qed.

Lemma reads_quietly_try_catch {A} (m : M W A) (h : jsval → M W A) :
  reads_quietly m → (∀ e, reads_quietly (h e)) → reads_quietly (try_catch m h).
Proof.
  intros Hm Hh st Hq. unfold try_catch. specialize (Hm st Hq).
  destruct (m st) as [[a|e] st1]; simpl in *; subst st1; [done|by apply Hh].
Qed.

Lemma reads_quietly_for_each {A B} (xs : list A) (body : A → B → M W B) (b : B) :
  (∀ x b', reads_quietly (body x b')) → reads_quietly (for_each xs body b).
Proof.
  intros H. revert b. induction xs as [|x xs IH]; intros b; simpl.
  - apply reads_quietly_of, reads_only_ret.
  - apply reads_quietly_bind; [apply H|]. intros b'. apply IH.
Qed.

Lemma reads_quietly_get v k : reads_quietly (get v k : M W jsval).
Proof. intros st Hq. by rewrite get_read. Qed.

Lemma reads_only_has_in k v : reads_only (has_in k v : M W bool).
Proof. unfold has_in. readonly. Qed.

Lemma reads_only_getPrototypeOf v : reads_only (getPrototypeOf v : M W jsval).
Proof. unfold getPrototypeOf. readonly. Qed.

Lemma reads_only_own_names b v : reads_only (own_names b v : M W (list string)).
Proof. unfold own_names. readonly. Qed.

Lemma reads_only_addSourceM obj srcs : reads_only (Collector.addSourceM obj srcs : M W _).
Proof. unfold Collector.addSourceM. readonly. Qed.

Lemma reads_only_walk_chain fuel proto srcs :
  reads_only (Collector.walk_chain fuel proto srcs : M W _).
Proof.
  revert proto srcs. induction fuel as [|fuel IH]; intros proto srcs; simpl.
  - apply reads_only_ret.
  - apply reads_only_bind; [apply reads_only_get_state|]. intros st.
    destruct (_ && _); [|apply reads_only_ret].
    apply reads_only_try_catch; [|intros; apply reads_only_ret].
    apply reads_only_bind; [apply reads_only_getPrototypeOf|]. intros p. apply IH.
Qed.

Ltac quiet_step :=
  match goal with
  | |- reads_quietly (ret _) => apply reads_quietly_of, reads_only_ret
  | |- reads_quietly (throw _) => apply reads_quietly_of, reads_only_throw
  | |- reads_quietly get_state => apply reads_quietly_of, reads_only_get_state
  | |- reads_quietly (to_string _) => apply reads_quietly_of, reads_only_to_string
  | |- reads_quietly (get _ _) => apply reads_quietly_get
  | |- reads_quietly (has_in _ _) => apply reads_quietly_of, reads_only_has_in
  | |- reads_quietly (getPrototypeOf _) => apply reads_quietly_of, reads_only_getPrototypeOf
  | |- reads_quietly (Collector.addSourceM _ _) =>
      apply reads_quietly_of, reads_only_addSourceM
  | |- reads_quietly (try_catch _ _) => apply reads_quietly_try_catch; [|intros ?]
  | |- reads_quietly (bind _ _) => apply reads_quietly_bind; [|intros ?]
  | |- reads_quietly (if ?b then _ else _) => destruct b
  | |- reads_quietly (match ?x with _ => _ end) => destruct x
  end.
Ltac quiet := repeat quiet_step.

Lemma reads_quietly_push_name c n names :
  reads_quietly c → reads_quietly n →
  reads_quietly (Collector.push_name c n names : M W _).
Proof. intros Hc Hn. unfold Collector.push_name. quiet; done. Qed.

Lemma reads_quietly_expand_child root c s :
  reads_quietly (Collector.expand_child root c s : M W _).
Proof. unfold Collector.expand_child. quiet. Qed.

Lemma reads_quietly_add_member root p s :
  reads_quietly (Collector.add_member root p s : M W _).
Proof. unfold Collector.add_member. quiet. Qed.

Lemma reads_quietly_add_chain root s :
  reads_quietly (Collector.add_chain root s : M W _).
Proof.
  unfold Collector.add_chain.
  apply reads_quietly_try_catch; [|intros; quiet].
  apply reads_quietly_bind; [quiet|]. intros p.
  apply reads_quietly_bind; [quiet|]. intros st.
  apply reads_quietly_of, reads_only_walk_chain.
Qed.

Lemma reads_quietly_add_aliases root s :
  reads_quietly (Collector.add_aliases root s : M W _).
Proof.
  unfold Collector.add_aliases.
  apply reads_quietly_bind; [quiet|]. intros st. cbv zeta.
  destruct (truthy (Collector.alias_global st)); [|quiet].
  apply reads_quietly_bind.
  { apply reads_quietly_push_name; quiet. }
  intros n1. apply reads_quietly_bind.
  { apply reads_quietly_push_name; quiet. }
  intros n2. apply reads_quietly_bind.
  { apply reads_quietly_push_name; quiet. }
  intros n3. apply reads_quietly_for_each. intros nm s'. unfold Collector.add_alias.
  quiet.
Qed.

(** The construction of the closure reads the heap; it changes nothing
    when the getters it runs change nothing. *)
Lemma reads_quietly_family root expand :
  reads_quietly (Collector.family root expand : M W _).
Proof.
  unfold Collector.family.
  apply reads_quietly_bind; [quiet|]. intros s0.
  apply reads_quietly_bind.
  { apply reads_quietly_for_each. intros c s. apply reads_quietly_expand_child. }
  intros s1.
  apply reads_quietly_bind; [apply reads_quietly_add_member|]. intros s2.
  apply reads_quietly_bind; [apply reads_quietly_add_member|]. intros s3.
  apply reads_quietly_bind; [apply reads_quietly_add_chain|]. intros s4.
  apply reads_quietly_add_aliases.
Qed.

(** Listing the keys of a source always gives a list and changes nothing. *)
Lemma allKeys_of_total src st :
  ∃ keys, Collector.allKeys_of src st = (Ret keys, st).
Proof.
  assert (Hro : reads_only (Collector.allKeys_of src : M W _)).
  { unfold Collector.allKeys_of. readonly; apply reads_only_own_names. }
  assert (Hnt : no_throw (Collector.allKeys_of src : M W _)).
  { unfold Collector.allKeys_of.
    apply no_throw_bind; [apply no_throw_try_catch; intros; apply no_throw_ret|]. intros ks.
    apply no_throw_bind; [apply no_throw_try_catch; intros; apply no_throw_ret|]. intros ns.
    apply no_throw_ret. }
  destruct (Hnt st) as (keys & st' & E & _). specialize (Hro st).
  rewrite E in Hro. simpl in Hro. subst st'. by exists keys.
Qed.

Lemma getDefaultSource_world st :
  ∃ r st', Collector.getDefaultSource st = (Ret r, st') ∧ world st' = world st.
Proof.
  unfold Collector.getDefaultSource, bind, get_state. simpl.
  repeat case_match; simplify_eq; by eexists _, _.
Qed.

End ReadOnlyFacts.

(** * Further properties of the collectors *)

Section CollectorShape.
Context {W : Type}.
Implicit Types (st : State W) (v : jsval) (rs : list string).

Lemma set_lastIndex_same st : set_lastIndex (lastIndex st) st = st.
Proof. by destruct st. Qed.

Lemma cursor_only_refl st : cursor_only st st.
Proof. exists (lastIndex st). by rewrite set_lastIndex_same. Qed.

Lemma cursor_only_trans st1 st2 st3 :
  cursor_only st1 st2 → cursor_only st2 st3 → cursor_only st1 st3.
Proof. intros [li1 ->] [li2 ->]. by exists li2. Qed.

Lemma cursor_only_heap st st' : cursor_only st st' → heap st' = heap st.
Proof. by intros [li ->]. Qed.

Lemma cursor_only_world st st' : cursor_only st st' → world st' = world st.
Proof. by intros [li ->]. Qed.

Lemma plain_seed_primitive v : plain_seed v → primitive v.
Proof. by destruct v. Qed.

Lemma plain_seeds_ok (s : seeds) : plain_seeds s → seeds_ok s.
Proof.
  destruct s as [v|vs]; simpl; [apply plain_seed_primitive|].
  intros H. eapply Forall_impl; [exact H|]. apply plain_seed_primitive.
Qed.

Lemma to_string_primitive v st :
  primitive v → to_string v st = (Ret (pure_string v), st).
Proof. destruct v as [| |[]| | |l]; simpl; try done. Qed.

Lemma set_add_NoDup s rs : NoDup rs → NoDup (set_add s rs).
Proof.
  intros H. unfold set_add. case_bool_decide; [done|].
  apply NoDup_app. split_and!; [done| |apply NoDup_singleton].
  intros x Hx ->%list_elem_of_singleton. done.
Qed.

Lemma set_add_prefix s rs : rs `prefix_of` set_add s rs.
Proof. unfold set_add. case_bool_decide; [done|]. by apply prefix_app_r. Qed.

Lemma elem_of_set_add s x rs : x ∈ set_add s rs ↔ x = s ∨ x ∈ rs.
Proof.
  unfold set_add. case_bool_decide.
  - split; [auto|]. intros [->|]; done.
  - rewrite elem_of_app, list_elem_of_singleton. tauto.
Qed.

(** Seeding, for seeds that are not objects. *)
Lemma seed_loop_pure (vs : list jsval) rs st :
  Forall primitive vs →
  for_each vs (fun v set =>
      if negb (nullish v) then s <- to_string v;; ret (set_add s set) else ret set) rs st
  = (Ret (foldl (fun rs v => set_add (pure_string v) rs) rs
                (filter (fun v => nullish v = false) vs)), st).
Proof.
  intros Hvs. revert rs. induction Hvs as [|v vs Hv Hvs IH]; intros rs; [done|].
  cbn [for_each]. unfold bind at 1.
  destruct (nullish v) eqn:En; cbn [negb].
  - unfold ret at 1. rewrite IH. by rewrite filter_cons_False by (rewrite En; done).
  - unfold bind at 1. rewrite to_string_primitive by done. unfold ret at 1.
    rewrite IH. by rewrite filter_cons_True by done.
Qed.

Lemma seedSet_pure rs (s : seeds) st :
  seeds_ok s →
  Collector.seedSet rs (Collector.default_seeds s) st = (Ret (seed_into rs s), st).
Proof.
  intros Hs. unfold seed_into. destruct s as [v|vs].
  - destruct v as [| |b|n|x|l]; simpl in *; try done.
    + by destruct b.
    + destruct (n =? 0)%Z; simpl; [done|]. by destruct n.
    + destruct (String.eqb x ""); done.
  - simpl. by apply seed_loop_pure.
Qed.

Lemma addAll_pure rs (s : seeds) st :
  seeds_ok s →
  CrawlerJs.addAll rs (Collector.default_seeds s) st = (Ret (seed_into rs s), st).
Proof.
  intros Hs. unfold seed_into. destruct s as [v|vs].
  - destruct v as [| |b|n|x|l]; simpl in *; try done.
    + by destruct b.
    + destruct (n =? 0)%Z; simpl; [done|]. by destruct n.
    + destruct (String.eqb x ""); done.
  - simpl. by apply seed_loop_pure.
Qed.

Lemma own_names_listed b v st : own_names b v st = (listed_keys b (heap st) v, st).
Proof.
  destruct v as [| |b'|n|x|l]; simpl; try done.
  unfold bind, get_state. simpl.
  destruct (heap st !! l) as [o|]; [|done]. by destruct (o_ownKeys_throws o).
Qed.

End CollectorShape.

Section KeyOnlyRules.
Context {W : Type}.
Implicit Types (st : State W) (v : jsval) (rs : list string) (m : Matcher W).

(** The test of a plain rule is [pure_match], whatever the cursor. *)
Lemma test_matcher_plain m key value src st :
  plain_rule m →
  ∃ st', Collector.test_matcher m key value src st = (Ret (pure_match m key), st')
         ∧ cursor_only st st'.
Proof.
  intros (_ & Hc & Hr). unfold Collector.test_matcher, pure_match. cbv zeta.
  destruct (String.eqb (m_type m) "prefix"); [eexists; split; [done|apply cursor_only_refl]|].
  destruct (String.eqb (m_type m) "suffix"); [eexists; split; [done|apply cursor_only_refl]|].
  destruct (String.eqb (m_type m) "includes"); [eexists; split; [done|apply cursor_only_refl]|].
  destruct (String.eqb (m_type m) "regex") eqn:E.
  - apply String.eqb_eq in E.
    destruct (m_value m) as [s|r|p|x] eqn:Ev;
      try (eexists; split; [done|apply cursor_only_refl]).
    destruct (Hr r E eq_refl) as (Ht & He & Hw).
    unfold RegExp_test. rewrite Ht, He.
    unfold rx_builtin_test, bind, get_state, rx_lastIndex.
    unfold rx_set_lastIndex. rewrite Hw. unfold modify, ret. simpl.
    destruct (rx_global r || rx_sticky r); simpl;
      rewrite ?lookup_insert_eq; simpl; rewrite Nat.sub_0_r;
      destruct (rx_search _ _ _ _) as [e|]; simpl;
      (eexists; split;
       [ f_equal; f_equal; first [by apply bool_decide_eq_true_2
                                 | by apply bool_decide_eq_false_2; intros [? ?]]
       | first [by eexists | apply cursor_only_refl] ]).
  - destruct (String.eqb (m_type m) "custom") eqn:E'.
    + apply String.eqb_eq in E'. done.
    + eexists; split; [done|apply cursor_only_refl].
Qed.

Lemma key_only_plain m : plain_rule m → key_only m (plain_hit m).
Proof.
  intros Hm key value src rs st.
  destruct (test_matcher_plain m key value src st Hm) as (st' & E & Hc).
  destruct Hm as (Ht & _ & _).
  exists st'. split; [|done].
  unfold Collector.apply_matcher, bind at 1. rewrite E. unfold plain_hit.
  destruct (pure_match m key); simpl; [|done].
  rewrite Ht. unfold bind, ret. simpl.
  destruct (String.eqb key "") eqn:Ek.
  - apply String.eqb_eq in Ek. subst key. by rewrite bool_decide_eq_true_2.
  - rewrite bool_decide_eq_false_2; [done|].
    intros H. inversion H; subst. by rewrite String.eqb_refl in Ek.
Qed.

(** The rule of [getEventNames] adds the key without its first two
    characters. *)
Lemma key_only_on_rule : key_only (CrawlerJsHelpers.on_rule (W := W)) on_hit.
Proof.
  intros key value src rs st. exists st. split; [|apply cursor_only_refl].
  unfold Collector.apply_matcher, Collector.test_matcher, on_hit,
    bind, try_catch, user, ret. cbn -[slice_from startsWith].
  destruct (startsWith key "on"); cbn -[slice_from]; [|done].
  rewrite set_world_same.
  destruct (String.eqb (slice_from 2 key) "") eqn:Ek.
  - apply String.eqb_eq in Ek. rewrite Ek. by rewrite bool_decide_eq_true_2.
  - rewrite bool_decide_eq_false_2; [done|].
    intros H. assert (H' : slice_from 2 key = "") by congruence.
    rewrite H' in Ek. done.
Qed.

Lemma applyMatchers_key_only ms hits key value src rs st :
  Forall2 key_only ms hits →
  ∃ st', Collector.applyMatchers ms key value src rs None st
         = (Ret (hits_of hits key rs), st')
         ∧ cursor_only st st'.
Proof.
  intros H. revert rs st. induction H as [|m hit ms hits Hm _ IH]; intros rs st.
  - exists st. split; [done|apply cursor_only_refl].
  - destruct (Hm key value src rs st) as (st1 & E1 & Hc1).
    destruct (IH (add_hit (hit key) rs) st1) as (st2 & E2 & Hc2).
    exists st2. split; [|by eapply cursor_only_trans].
    unfold Collector.applyMatchers in *. cbn [for_each]. unfold bind. by rewrite E1.
Qed.

Lemma scan_keys_key_only ms hits source keys rs st :
  quiet_getters (heap st) →
  Forall2 key_only ms hits →
  ∃ st', for_each keys (Collector.scan_key ms None source) rs st
         = (Ret (foldl (scan_one hits (heap st) (world st) source) rs keys), st')
         ∧ cursor_only st st'.
Proof.
  intros Hq H. revert rs st Hq. induction keys as [|k keys IH]; intros rs st Hq.
  - exists st. split; [done|apply cursor_only_refl].
  - assert (Hstep : ∃ st1, Collector.scan_key ms None source k rs st
                           = (Ret (scan_one hits (heap st) (world st) source rs k), st1)
                           ∧ cursor_only st st1).
    { unfold Collector.scan_key, scan_one, bind at 1, try_catch, bind at 1.
      rewrite get_read by done.
      destruct (read_value (heap st) (world st) source k) as [x|e].
      - by apply applyMatchers_key_only.
      - exists st. split; [done|apply cursor_only_refl]. }
    destruct Hstep as (st1 & E1 & Hc1).
    destruct (IH (scan_one hits (heap st) (world st) source rs k) st1) as (st2 & E2 & Hc2).
    { by rewrite (cursor_only_heap _ _ Hc1). }
    exists st2. split; [|by eapply cursor_only_trans].
    cbn [for_each foldl]. unfold bind. rewrite E1, E2.
    by rewrite (cursor_only_heap _ _ Hc1), (cursor_only_world _ _ Hc1).
Qed.

(** For rules that depend on the key only, [collectMembers] with a given
    source is a function of the heap, and changes cursors only. *)
Lemma collectMembers_key_only source defaults extra ms hits st :
  quiet_getters (heap st) →
  source ≠ VUndef → seeds_ok defaults → seeds_ok extra →
  Forall2 key_only ms hits →
  ∃ st', Collector.collectMembers
           {| Collector.co_source := source; Collector.co_defaults := defaults;
              Collector.co_extra := extra; Collector.co_matchers := ms;
              Collector.co_onMatch := None |} st
         = (Ret (pure_collectMembers hits (heap st) (world st) source
                   (seeded defaults extra)), st')
         ∧ cursor_only st st'.
Proof.
  intros Hq Hs Hd He Hms. unfold Collector.collectMembers.
  cbn [Collector.co_source Collector.co_defaults Collector.co_extra
       Collector.co_matchers Collector.co_onMatch].
  unfold bind at 1.
  destruct source as [| |b|n|x|l] eqn:Esrc; [done|..].
  all: rewrite <- Esrc in *; unfold ret at 1.
  all: unfold bind at 1; rewrite seedSet_pure by done.
  all: unfold bind at 1; rewrite seedSet_pure by done.
  all: fold (seeded defaults extra); unfold pure_collectMembers.
  all: destruct (truthy source); cbn [negb];
         [|exists st; split; [done|apply cursor_only_refl]].
  all: unfold bind at 1, try_catch, bind at 1, Object_keys; rewrite own_names_listed.
  all: destruct (listed_keys true (heap st) source) as [keys|e];
         [by apply scan_keys_key_only|exists st; split; [done|apply cursor_only_refl]].
Qed.

End KeyOnlyRules.

Section ResultSetFacts.
Context {W : Type}.
Implicit Types (st : State W) (v : jsval) (rs : list string).

(** A property of result sets that adding a string keeps. *)
Definition add_stable (P : list string → Prop) : Prop :=
  ∀ s rs, P rs → P (set_add s rs).

Lemma ensures_bind_strong {A B} (P : A → Prop) (Q : B → Prop) (m : M W A) (k : A → M W B) :
  ensures P m → (∀ a, P a → ensures Q (k a)) → ensures Q (bind m k).
Proof.
  intros Hm Hk st b st' H. unfold bind in H.
  destruct (m st) as [[a|e] st1] eqn:E; [|done].
  eapply Hk; [|exact H]. by eapply Hm.
Qed.

Lemma add_output_stable P rs (out : jsval) :
  add_stable P → P rs →
  ensures P (if negb (nullish out) && negb (bool_decide (out = VStr ""))
             then s <- to_string out;; ret (set_add s rs)
             else ret rs : M W (list string)).
Proof.
  intros HP Hrs. destruct (_ && _); [|by apply ensures_ret].
  apply ensures_bind. intros s. by apply ensures_ret, HP.
Qed.

Lemma Collector_apply_matcher_stable P key value src onMatch (m : Matcher W) rs :
  add_stable P → P rs →
  ensures P (Collector.apply_matcher key value src onMatch m rs).
Proof.
  intros HP Hrs. unfold Collector.apply_matcher.
  apply ensures_bind. intros matched.
  destruct (negb matched); [by apply ensures_ret|].
  apply ensures_bind. intros out.
  eapply ensures_bind_strong; [by apply add_output_stable|].
  intros rs' Hrs'. apply ensures_bind. intros _. by apply ensures_ret.
Qed.

Lemma CrawlerJs_apply_matcher_stable P key value src (m : Matcher W) rs :
  add_stable P → P rs →
  ensures P (CrawlerJs.apply_matcher key value src m rs).
Proof.
  intros HP Hrs. unfold CrawlerJs.apply_matcher.
  apply ensures_bind. intros matched.
  destruct matched; [|by apply ensures_ret].
  apply ensures_bind. intros out. by apply add_output_stable.
Qed.

Lemma Collector_scan_stable P ms onMatch source keys rs :
  add_stable P → P rs →
  ensures P (for_each keys (Collector.scan_key (W := W) ms onMatch source) rs).
Proof.
  intros HP Hrs. apply ensures_for_each; [done|].
  intros k rs' Hrs'. unfold Collector.scan_key.
  apply ensures_bind. intros [x|]; [|by apply ensures_ret].
  apply ensures_for_each; [done|].
  intros m rs'' H''. by apply Collector_apply_matcher_stable.
Qed.

Lemma CrawlerJs_scan_stable P ms source keys rs :
  add_stable P → P rs →
  ensures P (for_each keys (CrawlerJs.scan_key (W := W) ms source) rs).
Proof.
  intros HP Hrs. apply ensures_for_each; [done|].
  intros k rs' Hrs'. unfold CrawlerJs.scan_key.
  apply ensures_bind. intros [x|]; [|by apply ensures_ret].
  apply ensures_for_each; [done|].
  intros m rs'' H''. by apply CrawlerJs_apply_matcher_stable.
Qed.

Lemma Collector_scan_sources_stable P ms onMatch srcs rs :
  add_stable P → P rs →
  ensures P (for_each srcs (Collector.scan_source (W := W) ms onMatch) rs).
Proof.
  intros HP Hrs. apply ensures_for_each; [done|].
  intros src rs' Hrs'. unfold Collector.scan_source.
  apply ensures_bind. intros allKeys.
  eapply (ensures_bind_strong (fun acc : gset string * list string => P (snd acc))).
  - apply ensures_for_each; [done|].
    intros k [seen rs''] H''. simpl in H''. unfold Collector.scan_wide_key.
    destruct (bool_decide _); [by apply ensures_ret|].
    apply ensures_bind. intros [x|]; [|by apply ensures_ret].
    eapply ensures_bind_strong.
    + apply ensures_for_each; [exact H''|].
      intros m r Hr. by apply Collector_apply_matcher_stable.
    + intros r Hr. by apply ensures_ret.
  - intros acc Hacc. by apply ensures_ret.
Qed.

Lemma CrawlerJs_scan_sources_stable P ms srcs rs :
  add_stable P → P rs →
  ensures P (for_each srcs (CrawlerJs.scan_source (W := W) ms) rs).
Proof.
  intros HP Hrs. apply ensures_for_each; [done|].
  intros src rs' Hrs'. unfold CrawlerJs.scan_source.
  apply ensures_bind. intros allKeys.
  eapply (ensures_bind_strong (fun acc : gset string * list string => P (snd acc))).
  - apply ensures_for_each; [done|].
    intros k [seen rs''] H''. simpl in H''. unfold CrawlerJs.scan_wide_key.
    destruct (bool_decide _); [by apply ensures_ret|].
    apply ensures_bind. intros [x|]; [|by apply ensures_ret].
    eapply ensures_bind_strong.
    + apply ensures_for_each; [exact H''|].
      intros m r Hr. by apply CrawlerJs_apply_matcher_stable.
    + intros r Hr. by apply ensures_ret.
  - intros acc Hacc. by apply ensures_ret.
Qed.

Lemma seed_step_stable P :
  add_stable P →
  ∀ (x : jsval) rs, P rs →
    ensures P (if negb (nullish x) then s <- to_string x;; ret (set_add s rs)
               else ret rs : M W (list string)).
Proof.
  intros HP x rs Hrs. destruct (negb _); [|by apply ensures_ret].
  apply ensures_bind. intros s. by apply ensures_ret, HP.
Qed.

Lemma Collector_seedSet_stable P rs (s : seeds) :
  add_stable P → P rs → ensures P (Collector.seedSet rs s : M W _).
Proof.
  intros HP Hrs. destruct s as [v|vs]; simpl.
  - destruct (negb (truthy v)); [by apply ensures_ret|]. by apply seed_step_stable.
  - apply ensures_for_each; [done|]. by apply seed_step_stable.
Qed.

Lemma CrawlerJs_addAll_stable P rs (s : seeds) :
  add_stable P → P rs → ensures P (CrawlerJs.addAll rs s : M W _).
Proof.
  intros HP Hrs. destruct s as [v|vs]; simpl.
  - destruct (negb (truthy v)); [by apply ensures_ret|]. by apply seed_step_stable.
  - apply ensures_for_each; [done|]. by apply seed_step_stable.
Qed.

Lemma on_return_ensures {A} (P : A → Prop) (m : M W A) st :
  ensures P m → on_return (fst (m st)) P.
Proof.
  intros H. destruct (m st) as [[a|e] st'] eqn:E; simpl; [|done]. by eapply H.
Qed.

(** What holds after seeding and is kept by additions holds of the result
    of every entry point of both collectors. *)
Lemma Collector_collectMembers_ensures (S1 P : list string → Prop)
    (o : Collector.CollectOptions W) :
  add_stable P →
  ensures S1 (Collector.seedSet [] (Collector.default_seeds (Collector.co_defaults o)) : M W _) →
  (∀ rs1, S1 rs1 →
     ensures P (Collector.seedSet rs1 (Collector.default_seeds (Collector.co_extra o)) : M W _)) →
  ensures P (Collector.collectMembers o).
Proof.
  intros HP H1 H2. unfold Collector.collectMembers.
  apply ensures_bind. intros src.
  eapply ensures_bind_strong; [exact H1|]. intros rs1 Hrs1.
  eapply ensures_bind_strong; [by apply H2|]. intros rs2 Hrs2.
  destruct (negb (truthy src)); [by apply ensures_ret|].
  apply ensures_bind. intros [keys|]; [|by apply ensures_ret].
  by apply Collector_scan_stable.
Qed.

Lemma Collector_collectMembersWide_ensures (S1 P : list string → Prop)
    (o : Collector.WideOptions W) :
  add_stable P →
  ensures S1 (Collector.seedSet [] (Collector.default_seeds (Collector.wo_defaults o)) : M W _) →
  (∀ rs1, S1 rs1 →
     ensures P (Collector.seedSet rs1 (Collector.default_seeds (Collector.wo_extra o)) : M W _)) →
  ensures P (Collector.collectMembersWide o).
Proof.
  intros HP H1 H2. unfold Collector.collectMembersWide.
  eapply ensures_bind_strong; [exact H1|]. intros rs1 Hrs1.
  eapply ensures_bind_strong; [by apply H2|]. intros rs2 Hrs2.
  apply ensures_bind. intros root. apply ensures_bind. intros srcs.
  by apply Collector_scan_sources_stable.
Qed.

Lemma CrawlerJs_collectMembers_ensures (S1 P : list string → Prop)
    (o : CrawlerJs.CollectOptions W) :
  add_stable P →
  ensures S1 (CrawlerJs.addAll [] (Collector.default_seeds (CrawlerJs.co_defaults o)) : M W _) →
  (∀ rs1, S1 rs1 →
     ensures P (CrawlerJs.addAll rs1 (Collector.default_seeds (CrawlerJs.co_extra o)) : M W _)) →
  ensures P (CrawlerJs.collectMembers o).
Proof.
  intros HP H1 H2. unfold CrawlerJs.collectMembers.
  apply ensures_bind. intros src.
  eapply ensures_bind_strong; [exact H1|]. intros rs1 Hrs1.
  eapply ensures_bind_strong; [by apply H2|]. intros rs2 Hrs2.
  destruct (negb (truthy src)); [by apply ensures_ret|].
  apply ensures_bind. intros [keys|]; [|by apply ensures_ret].
  by apply CrawlerJs_scan_stable.
Qed.

Lemma CrawlerJs_collectMembersWide_ensures (S1 P : list string → Prop)
    (o : CrawlerJs.WideOptions W) :
  add_stable P →
  ensures S1 (CrawlerJs.addAll [] (Collector.default_seeds (CrawlerJs.wo_defaults o)) : M W _) →
  (∀ rs1, S1 rs1 →
     ensures P (CrawlerJs.addAll rs1 (Collector.default_seeds (CrawlerJs.wo_extra o)) : M W _)) →
  ensures P (CrawlerJs.collectMembersWide o).
Proof.
  intros HP H1 H2. unfold CrawlerJs.collectMembersWide.
  eapply ensures_bind_strong; [exact H1|]. intros rs1 Hrs1.
  eapply ensures_bind_strong; [by apply H2|]. intros rs2 Hrs2.
  apply ensures_bind. intros root. apply ensures_bind. intros srcs.
  by apply CrawlerJs_scan_sources_stable.
Qed.

Lemma add_stable_NoDup : add_stable (NoDup (A := string)).
Proof. intros s rs. apply set_add_NoDup. Qed.

Lemma add_stable_prefix (rs0 : list string) : add_stable (fun rs => rs0 `prefix_of` rs).
Proof. intros s rs H. etrans; [exact H|apply set_add_prefix]. Qed.

(** [X1] The result of [collectMembers] and of [collectMembersWide], in both
    collectors, never holds a string twice: for every source, root, seeds,
    rules and observer. *)
Theorem results_hold_no_string_twice
    (oc : Collector.CollectOptions W) (ow : Collector.WideOptions W)
    (lc : CrawlerJs.CollectOptions W) (lw : CrawlerJs.WideOptions W) st :
  on_return (fst (Collector.collectMembers oc st)) (NoDup (A := string))
  ∧ on_return (fst (Collector.collectMembersWide ow st)) (NoDup (A := string))
  ∧ on_return (fst (CrawlerJs.collectMembers lc st)) (NoDup (A := string))
  ∧ on_return (fst (CrawlerJs.collectMembersWide lw st)) (NoDup (A := string)).
Proof.
  split_and!; apply on_return_ensures.
  - apply (Collector_collectMembers_ensures (NoDup (A := string)));
      [apply add_stable_NoDup| |intros rs1 H1];
      apply Collector_seedSet_stable; auto using add_stable_NoDup, NoDup_nil_2.
  - apply (Collector_collectMembersWide_ensures (NoDup (A := string)));
      [apply add_stable_NoDup| |intros rs1 H1];
      apply Collector_seedSet_stable; auto using add_stable_NoDup, NoDup_nil_2.
  - apply (CrawlerJs_collectMembers_ensures (NoDup (A := string)));
      [apply add_stable_NoDup| |intros rs1 H1];
      apply CrawlerJs_addAll_stable; auto using add_stable_NoDup, NoDup_nil_2.
  - apply (CrawlerJs_collectMembersWide_ensures (NoDup (A := string)));
      [apply add_stable_NoDup| |intros rs1 H1];
      apply CrawlerJs_addAll_stable; auto using add_stable_NoDup, NoDup_nil_2.
Qed.

Lemma seedSet_exact rs (s : seeds) :
  seeds_ok s →
  ensures (fun rs' => rs' = seed_into rs s)
          (Collector.seedSet rs (Collector.default_seeds s) : M W _).
Proof. intros Hs st a st' H. rewrite seedSet_pure in H by done. by inversion H. Qed.

Lemma addAll_exact rs (s : seeds) :
  seeds_ok s →
  ensures (fun rs' => rs' = seed_into rs s)
          (CrawlerJs.addAll rs (Collector.default_seeds s) : M W _).
Proof. intros Hs st a st' H. rewrite addAll_pure in H by done. by inversion H. Qed.

(** [X2] The seeds come first: when [defaults] and [extra] hold strings,
    booleans and integers that a number holds exactly, the result of each
    entry point starts with the seeded strings, in the order given
    ([defaults], then [extra], without repetitions), whatever the traversal
    adds after them. *)
Theorem seeds_come_first source root defaults extra matchers onMatch expand st :
  plain_seeds defaults → plain_seeds extra →
  on_return (fst (Collector.collectMembers
                    {| Collector.co_source := source; Collector.co_defaults := defaults;
                       Collector.co_extra := extra; Collector.co_matchers := matchers;
                       Collector.co_onMatch := onMatch |} st))
            (fun res => seeded defaults extra `prefix_of` res)
  ∧ on_return (fst (Collector.collectMembersWide
                      {| Collector.wo_root := root; Collector.wo_defaults := defaults;
                         Collector.wo_extra := extra; Collector.wo_matchers := matchers;
                         Collector.wo_onMatch := onMatch;
                         Collector.wo_expandChildren := expand |} st))
              (fun res => seeded defaults extra `prefix_of` res)
  ∧ on_return (fst (CrawlerJs.collectMembers
                      {| CrawlerJs.co_source := source; CrawlerJs.co_defaults := defaults;
                         CrawlerJs.co_extra := extra;
                         CrawlerJs.co_matchers := matchers |} st))
              (fun res => seeded defaults extra `prefix_of` res)
  ∧ on_return (fst (CrawlerJs.collectMembersWide
                      {| CrawlerJs.wo_root := root; CrawlerJs.wo_defaults := defaults;
                         CrawlerJs.wo_extra := extra;
                         CrawlerJs.wo_matchers := matchers |} st))
              (fun res => seeded defaults extra `prefix_of` res).
Proof.
  intros Hd%plain_seeds_ok He%plain_seeds_ok.
  assert (Hext : ∀ rs1, rs1 = seed_into [] defaults →
            ensures (fun rs => seeded defaults extra `prefix_of` rs)
              (Collector.seedSet rs1 (Collector.default_seeds extra) : M W _)).
  { intros rs1 -> st1 a st' H. rewrite seedSet_pure in H by done. by inversion H. }
  assert (Hext' : ∀ rs1, rs1 = seed_into [] defaults →
            ensures (fun rs => seeded defaults extra `prefix_of` rs)
              (CrawlerJs.addAll rs1 (Collector.default_seeds extra) : M W _)).
  { intros rs1 -> st1 a st' H. rewrite addAll_pure in H by done. by inversion H. }
  split_and!; apply on_return_ensures.
  - eapply Collector_collectMembers_ensures;
      [apply add_stable_prefix|by apply seedSet_exact|exact Hext].
  - eapply Collector_collectMembersWide_ensures;
      [apply add_stable_prefix|by apply seedSet_exact|exact Hext].
  - eapply CrawlerJs_collectMembers_ensures;
      [apply add_stable_prefix|by apply addAll_exact|exact Hext'].
  - eapply CrawlerJs_collectMembersWide_ensures;
      [apply add_stable_prefix|by apply addAll_exact|exact Hext'].
Qed.

End ResultSetFacts.

Lemma seeds_come_first_witness :
  on_return (fst (Collector.collectMembers
                    {| Collector.co_source := VRef 10;
                       Collector.co_defaults := SeedArray [VStr "a"];
                       Collector.co_extra := SeedValue (VStr "b");
                       Collector.co_matchers := match_all;
                       Collector.co_onMatch := None |} one_member))
            (fun res => seeded (SeedArray [VStr "a"]) (SeedValue (VStr "b")) `prefix_of` res).
Proof.
  destruct (seeds_come_first (W := unit) (VRef 10) VUndef (SeedArray [VStr "a"])
              (SeedValue (VStr "b")) match_all None None one_member) as [H _].
  - simpl. repeat constructor.
  - simpl. exact I.
  - exact H.
Defined.

Section PlainRules.
Context {W : Type}.
Implicit Types (st : State W) (v : jsval) (rs : list string) (h : gmap loc (object W)).

Lemma hits_of_elem hits key rs x :
  x ∈ hits_of hits key rs ↔ x ∈ rs ∨ ∃ hit, hit ∈ hits ∧ hit key = Some x.
Proof.
  unfold hits_of. revert rs. induction hits as [|hit hits IH]; intros rs; simpl.
  - split; [auto|]. intros [H|(hit & Hh & _)]; [done|]. by apply not_elem_of_nil in Hh.
  - rewrite IH. split.
    + intros [H|(hit' & Hh & E)].
      * destruct (hit key) as [s|] eqn:Es; simpl in H; [|auto].
        apply elem_of_set_add in H as [->|H]; [|auto].
        right. exists hit. split; [by left|done].
      * right. exists hit'. split; [by right|done].
    + intros [H|(hit' & Hh & E)].
      * left. destruct (hit key); simpl; [|done]. apply elem_of_set_add. auto.
      * apply elem_of_cons in Hh as [->|Hh].
        -- left. rewrite E. simpl. apply elem_of_set_add. auto.
        -- right. by exists hit'.
Qed.

Lemma scan_fold_elem hits h (w : W) v keys rs x :
  x ∈ foldl (scan_one hits h w v) rs keys
  ↔ x ∈ rs ∨ ∃ k hit, k ∈ keys ∧ readable h w v k ∧ hit ∈ hits ∧ hit k = Some x.
Proof.
  revert rs. induction keys as [|k keys IH]; intros rs; simpl.
  - split; [auto|]. intros [H|(k & hit & Hk & _)]; [done|]. by apply not_elem_of_nil in Hk.
  - rewrite IH. split; unfold scan_one at 1.
    + intros [H|(k' & hit & Hk & Hr & Hh & E)].
      * destruct (read_value h w v k) as [y|e] eqn:Er; [|auto].
        apply hits_of_elem in H as [H|(hit & Hh & E)]; [auto|].
        right. exists k, hit. split_and!; [by left|by exists y|done|done].
      * right. exists k', hit. split_and!; [by right|done..].
    + intros [H|(k' & hit & Hk & Hr & Hh & E)].
      * left. destruct (read_value h w v k); [|done]. apply hits_of_elem. auto.
      * apply elem_of_cons in Hk as [->|Hk].
        -- left. destruct Hr as [y ->]. apply hits_of_elem. right. by exists hit.
        -- right. by exists k', hit.
Qed.

Lemma plain_rules_key_only (ms : list (Matcher W)) :
  Forall plain_rule ms → Forall2 key_only ms (map plain_hit ms).
Proof.
  induction 1 as [|m ms Hm _ IH]; simpl; constructor; [by apply key_only_plain|done].
Qed.

(** [X3] Two calls in a row give the same list. Over an object whose
    getters have no effect, with rules that have no callbacks (string rules
    and regular expressions with the built-in [test] and [exec], no
    transform) and no observer, a second [collectMembers] returns what the
    first one returned, whatever cursors the patterns carried before. *)
Theorem Collector_collectMembers_repeatable
    (l : loc) defaults extra (ms : list (Matcher W)) st :
  quiet_getters (heap st) →
  plain_seeds defaults → plain_seeds extra → Forall plain_rule ms →
  let o := {| Collector.co_source := VRef l; Collector.co_defaults := defaults;
              Collector.co_extra := extra; Collector.co_matchers := ms;
              Collector.co_onMatch := None |} in
  ∃ res, fst ((first <- Collector.collectMembers o;;
               second <- Collector.collectMembers o;;
               ret (first, second)) st) = Ret (res, res).
Proof.
  intros Hq Hd%plain_seeds_ok He%plain_seeds_ok Hms o. apply plain_rules_key_only in Hms.
  destruct (collectMembers_key_only (VRef l) defaults extra ms _ st Hq
              ltac:(discriminate) Hd He Hms) as (st1 & E1 & Hc1).
  assert (Hq1 : quiet_getters (heap st1)) by (by rewrite (cursor_only_heap _ _ Hc1)).
  destruct (collectMembers_key_only (VRef l) defaults extra ms _ st1 Hq1
              ltac:(discriminate) Hd He Hms) as (st2 & E2 & Hc2).
  eexists. subst o. unfold bind at 1. rewrite E1. unfold bind at 1. rewrite E2.
  rewrite (cursor_only_heap _ _ Hc1), (cursor_only_world _ _ Hc1). reflexivity.
Qed.

(** The members of the result of [collectMembers] for rules without
    callbacks. *)
Lemma collectMembers_plain_members_of
    source defaults extra (ms : list (Matcher W)) st :
  quiet_getters (heap st) →
  source ≠ VUndef → seeds_ok defaults → seeds_ok extra → Forall plain_rule ms →
  ∃ res st',
    Collector.collectMembers
      {| Collector.co_source := source; Collector.co_defaults := defaults;
         Collector.co_extra := extra; Collector.co_matchers := ms;
         Collector.co_onMatch := None |} st = (Ret res, st')
    ∧ cursor_only st st'
    ∧ ∀ s, s ∈ res ↔
           s ∈ seeded defaults extra
           ∨ (truthy source = true
              ∧ s ∈ keys_or_empty (listed_keys true (heap st) source)
              ∧ readable (heap st) (world st) source s
              ∧ s ≠ ""
              ∧ ∃ m, m ∈ ms ∧ pure_match m s = true).
Proof.
  intros Hq Hs Hd He Hms.
  destruct (collectMembers_key_only source defaults extra ms _ st Hq Hs Hd He
              (plain_rules_key_only ms Hms)) as (st' & E & Hc).
  eexists _, st'. split; [exact E|]. split; [done|].
  intros s. unfold pure_collectMembers.
  destruct (truthy source); [|split; [auto|intros [?|(? & _)]; done]].
  destruct (listed_keys true (heap st) source) as [keys|e]; simpl.
  - rewrite scan_fold_elem. split.
    + intros [H|(k & hit & Hk & Hr & Hh & Ehit)]; [auto|].
      apply list_elem_of_fmap in Hh as (m & -> & Hm). unfold plain_hit in Ehit.
      destruct (pure_match m k) eqn:Em; simpl in Ehit; [|done].
      destruct (String.eqb k "") eqn:Ek; simpl in Ehit; [done|].
      inversion Ehit; subst. right. split_and!; try done.
      * intros ->. done.
      * by exists m.
    + intros [H|(_ & Hk & Hr & Hne & m & Hm & Em)]; [auto|].
      right. exists s, (plain_hit m). split_and!; try done.
      * apply list_elem_of_fmap. by exists m.
      * unfold plain_hit. rewrite Em. simpl.
        destruct (String.eqb s "") eqn:Ek; [|done]. by apply String.eqb_eq in Ek.
  - split; [auto|]. intros [H|(_ & Hk & _)]; [done|]. by apply not_elem_of_nil in Hk.
Qed.

(** [X4] What [collectMembers] returns for an object whose getters have no
    effect and for rules without callbacks: a string is in the result
    exactly when it is a seed, or a non-empty enumerable own key of the
    object that can be read without an error and that one of the rules
    matches. Only cursors of patterns change. *)
Theorem Collector_collectMembers_plain_members
    (l : loc) defaults extra (ms : list (Matcher W)) st :
  quiet_getters (heap st) →
  plain_seeds defaults → plain_seeds extra → Forall plain_rule ms →
  ∃ res st',
    Collector.collectMembers
      {| Collector.co_source := VRef l; Collector.co_defaults := defaults;
         Collector.co_extra := extra; Collector.co_matchers := ms;
         Collector.co_onMatch := None |} st = (Ret res, st')
    ∧ cursor_only st st'
    ∧ ∀ s, s ∈ res ↔
           s ∈ seeded defaults extra
           ∨ (s ∈ keys_or_empty (listed_keys true (heap st) (VRef l))
              ∧ readable (heap st) (world st) (VRef l) s
              ∧ s ≠ ""
              ∧ ∃ m, m ∈ ms ∧ pure_match m s = true).
Proof.
  intros Hq Hd%plain_seeds_ok He%plain_seeds_ok Hms.
  destruct (collectMembers_plain_members_of (VRef l) defaults extra ms st)
    as (res & st' & E & Hc & Hmem); [done..|].
  exists res, st'. split_and!; [done..|].
  intros s. rewrite Hmem. split.
  - intros [H|(_ & H)]; auto.
  - intros [H|H]; auto.
Qed.

End PlainRules.

Lemma Collector_collectMembers_repeatable_witness :
  let o := {| Collector.co_source := VRef 10; Collector.co_defaults := SeedArray [];
              Collector.co_extra := SeedArray []; Collector.co_matchers := match_all;
              Collector.co_onMatch := None |} in
  ∃ res, fst ((first <- Collector.collectMembers o;;
               second <- Collector.collectMembers o;;
               ret (first, second)) (getter_host "xa" reads_count)) = Ret (res, res).
Proof.
  apply (Collector_collectMembers_repeatable (W := nat) 10 (SeedArray []) (SeedArray [])
           match_all (getter_host "xa" reads_count)).
  - apply quiet_getters_listed. vm_compute. repeat constructor.
  - constructor.
  - constructor.
  - constructor; [|constructor]. split_and!; [reflexivity|discriminate|].
    intros r H. discriminate.
Defined.

(** The pattern [/a/g] over [{ xa: 1 }], twice: the cursor that the first
    call leaves is reset by the second. *)
Lemma regex_rule_repeatable :
  fst ((first <- Collector.collectMembers collector_regex_options;;
        second <- Collector.collectMembers collector_regex_options;;
        ret (first, second)) one_member) = Ret (["xa"], ["xa"]).
Proof. vm_compute. reflexivity. Qed.

(** A getter with an effect is outside: when the getter [xa] gives a value
    on its first read and throws afterwards, the first call returns [xa]
    and the second one nothing. *)
Lemma effectful_getter_not_repeatable :
  let o := {| Collector.co_source := VRef 10; Collector.co_defaults := SeedArray [];
              Collector.co_extra := SeedArray []; Collector.co_matchers := match_all;
              Collector.co_onMatch := None |} in
  fst ((first <- Collector.collectMembers o;;
        second <- Collector.collectMembers o;;
        ret (first, second)) (getter_host "xa" (once (VNum 1)))) = Ret (["xa"], []).
Proof. vm_compute. reflexivity. Qed.

Lemma Collector_collectMembers_plain_members_witness :
  ∃ res st',
    Collector.collectMembers
      {| Collector.co_source := VRef 10; Collector.co_defaults := SeedArray [];
         Collector.co_extra := SeedArray []; Collector.co_matchers := match_all;
         Collector.co_onMatch := None |} (getter_host "xa" reads_count) = (Ret res, st')
    ∧ ("xa" ∈ res).
Proof.
  destruct (Collector_collectMembers_plain_members (W := nat) 10 (SeedArray [])
              (SeedArray []) match_all (getter_host "xa" reads_count))
    as (res & st' & E & _ & Hmem).
  - apply quiet_getters_listed. vm_compute. repeat constructor.
  - constructor.
  - constructor.
  - constructor; [|constructor]. split_and!; [reflexivity|discriminate|].
    intros r H. discriminate.
  - exists res, st'. split; [exact E|]. apply Hmem. right.
    split_and!.
    + vm_compute. left.
    + exists (VNum 0). reflexivity.
    + discriminate.
    + eexists. split; [left|]. reflexivity.
Defined.

Section EdgeCases.
Context {W : Type}.
Implicit Types (st : State W) (v : jsval) (rs : list string).

Lemma scan_without_rules onMatch source keys rs st :
  quiet_getters (heap st) →
  for_each keys (Collector.scan_key (W := W) [] onMatch source) rs st = (Ret rs, st).
Proof.
  intros Hq. induction keys as [|k keys IH]; [done|].
  cbn [for_each]. unfold bind at 1, Collector.scan_key, bind at 1, try_catch, bind at 1.
  rewrite get_read by done.
  destruct (read_value (heap st) (world st) source k); simpl; exact IH.
Qed.

(** [X5] Nothing to scan: when the source is falsy ([null], [0], [""],
    [false]), when listing the keys of the object throws, or when there are
    no rules, the result of [collectMembers] is exactly the seeded strings,
    and rules and observer are not called. In the first and in the last
    case the state is as before, the getters of the source having no
    effect. *)
Theorem Collector_collectMembers_seeds_only (l : loc) source defaults extra ms onMatch st :
  quiet_getters (heap st) →
  plain_seeds defaults → plain_seeds extra →
  (truthy source = false ∧ source ≠ VUndef)
  ∨ (source = VRef l ∧ ∃ e, listed_keys true (heap st) source = Throw e)
  ∨ (source = VRef l ∧ ms = []) →
  let run := Collector.collectMembers
               {| Collector.co_source := source; Collector.co_defaults := defaults;
                  Collector.co_extra := extra; Collector.co_matchers := ms;
                  Collector.co_onMatch := onMatch |} st in
  fst run = Ret (seeded defaults extra)
  ∧ ((∀ e, listed_keys true (heap st) source ≠ Throw e) → snd run = st).
Proof.
  intros Hq Hd%plain_seeds_ok He%plain_seeds_ok Hcase run.
  assert (Hs : source ≠ VUndef).
  { destruct Hcase as [[_ H]|[[-> _]|[-> _]]]; done. }
  assert (E : run = (Ret (seeded defaults extra), st)).
  { subst run. unfold Collector.collectMembers.
    cbn [Collector.co_source Collector.co_defaults Collector.co_extra
         Collector.co_matchers Collector.co_onMatch].
    unfold bind at 1.
    destruct source as [| |b|n|x|l'] eqn:Esrc; [done|..].
    all: rewrite <- Esrc in *; unfold ret at 1.
    all: unfold bind at 1; rewrite seedSet_pure by done.
    all: unfold bind at 1; rewrite seedSet_pure by done.
    all: fold (seeded defaults extra).
    all: destruct (truthy source) eqn:Et; cbn [negb]; [|done].
    all: unfold bind at 1, try_catch, bind at 1, Object_keys; rewrite own_names_listed.
    all: destruct Hcase as [[Hc _]|[[_ [e Hc]]|[_ Hc]]]; [done|by rewrite Hc|].
    all: subst ms; destruct (listed_keys true (heap st) source); [|done].
    all: by apply scan_without_rules. }
  rewrite E. done.
Qed.



End EdgeCases.


Section Agreement.
Context {W : Type}.
Implicit Types (st : State W) (v : jsval) (rs : list string).

Lemma for_each_ext {A B} (xs : list A) (f g : A → B → M W B) b st :
  (∀ x b' st', x ∈ xs → f x b' st' = g x b' st') →
  for_each xs f b st = for_each xs g b st.
Proof.
  revert b st. induction xs as [|x xs IH]; intros b st H; [done|].
  cbn [for_each]. unfold bind. rewrite H by left.
  destruct (g x b st) as [[b'|e] st']; [|done].
  apply IH. intros y b'' st'' Hy. apply H. by right.
Qed.

Lemma bind_ext {A B} (m : M W A) (k k' : A → M W B) st :
  (∀ a st', k a st' = k' a st') → bind m k st = bind m k' st.
Proof. intros H. unfold bind. destruct (m st) as [[a|e] st']; [apply H|done]. Qed.

Lemma bind_ret_r {A} (m : M W A) st : bind m (fun a => ret a) st = m st.
Proof. unfold bind. by destruct (m st) as [[a|e] st']. Qed.

Lemma test_matcher_agree (m : Matcher W) key value src st :
  m_type m ≠ "regex" →
  CrawlerJs.test_matcher m key value src st = Collector.test_matcher m key value src st.
Proof.
  intros H. apply String.eqb_neq in H.
  unfold CrawlerJs.test_matcher, Collector.test_matcher. cbv zeta. by rewrite H.
Qed.

Lemma apply_matcher_agree (m : Matcher W) key value src rs st :
  m_type m ≠ "regex" →
  CrawlerJs.apply_matcher key value src m rs st
  = Collector.apply_matcher key value src None m rs st.
Proof.
  intros H. unfold CrawlerJs.apply_matcher, Collector.apply_matcher.
  unfold bind at 1. symmetry. unfold bind at 1. rewrite test_matcher_agree by done.
  destruct (Collector.test_matcher m key value src st) as [[[]|e] st1]; [|done..].
  cbn [negb]. apply bind_ext. intros out st2.
  unfold bind at 1.
  destruct ((if negb (nullish out) && negb (bool_decide (out = VStr ""))
             then s <- to_string out;; ret (set_add s rs) else ret rs) st2)
    as [[rs'|e] st3]; done.
Qed.

Lemma applyMatchers_agree (ms : list (Matcher W)) key value src rs st :
  Forall (fun m => m_type m ≠ "regex") ms →
  CrawlerJs.applyMatchers ms key value src rs st
  = Collector.applyMatchers ms key value src rs None st.
Proof.
  intros H. apply for_each_ext. intros m b st' Hm. apply apply_matcher_agree.
  by apply (proj1 (Forall_forall _ _) H).
Qed.

Lemma scan_source_agree (ms : list (Matcher W)) src rs st :
  Forall (fun m => m_type m ≠ "regex") ms →
  CrawlerJs.scan_source ms src rs st = Collector.scan_source ms None src rs st.
Proof.
  intros H. unfold CrawlerJs.scan_source, Collector.scan_source.
  apply bind_ext. intros keys st1. unfold bind.
  rewrite (for_each_ext keys (CrawlerJs.scan_wide_key ms src)
             (Collector.scan_wide_key ms None src)); [done|].
  intros k [seen rs'] st2 _. unfold CrawlerJs.scan_wide_key, Collector.scan_wide_key.
  case_bool_decide; [done|]. apply bind_ext. intros [x|] st3; [|done].
  unfold bind. by rewrite applyMatchers_agree.
Qed.

Lemma family_agree root st :
  CrawlerJs.family (W := W) root st = Collector.family root [] st.
Proof.
  unfold CrawlerJs.family, Collector.family. apply bind_ext. intros s st1.
  cbn [for_each]. unfold bind at 3. done.
Qed.

Lemma collectMembers_agree (ms : list (Matcher W)) source defaults extra st :
  Forall (fun m => m_type m ≠ "regex") ms → source ≠ VUndef →
  CrawlerJs.collectMembers
    {| CrawlerJs.co_source := source; CrawlerJs.co_defaults := defaults;
       CrawlerJs.co_extra := extra; CrawlerJs.co_matchers := ms |} st
  = Collector.collectMembers
      {| Collector.co_source := source; Collector.co_defaults := defaults;
         Collector.co_extra := extra; Collector.co_matchers := ms;
         Collector.co_onMatch := None |} st.
Proof.
  intros H Hs. unfold CrawlerJs.collectMembers, Collector.collectMembers.
  cbn [CrawlerJs.co_source CrawlerJs.co_defaults CrawlerJs.co_extra CrawlerJs.co_matchers
       Collector.co_source Collector.co_defaults Collector.co_extra
       Collector.co_matchers Collector.co_onMatch].
  destruct source as [| |b|n|x|l] eqn:Esrc; [done|..].
  all: rewrite <- Esrc in *; apply bind_ext; intros src st1.
  all: apply bind_ext; intros rs1 st2; apply bind_ext; intros rs2 st3.
  all: destruct (negb (truthy src)); [done|].
  all: apply bind_ext; intros [keys|] st4; [|done].
  all: apply for_each_ext; intros k rs3 st5 _.
  all: unfold CrawlerJs.scan_key, Collector.scan_key.
  all: apply bind_ext; intros [x'|] st6; [|done].
  all: by apply applyMatchers_agree.
Qed.

Lemma collectMembersWide_agree (ms : list (Matcher W)) root defaults extra st :
  Forall (fun m => m_type m ≠ "regex") ms → truthy root = true →
  CrawlerJs.collectMembersWide
    {| CrawlerJs.wo_root := root; CrawlerJs.wo_defaults := defaults;
       CrawlerJs.wo_extra := extra; CrawlerJs.wo_matchers := ms |} st
  = Collector.collectMembersWide
      {| Collector.wo_root := root; Collector.wo_defaults := defaults;
         Collector.wo_extra := extra; Collector.wo_matchers := ms;
         Collector.wo_onMatch := None; Collector.wo_expandChildren := None |} st.
Proof.
  intros H Hs. unfold CrawlerJs.collectMembersWide, Collector.collectMembersWide.
  cbn [CrawlerJs.wo_root CrawlerJs.wo_defaults CrawlerJs.wo_extra CrawlerJs.wo_matchers
       Collector.wo_root Collector.wo_defaults Collector.wo_extra
       Collector.wo_matchers Collector.wo_onMatch Collector.wo_expandChildren].
  rewrite Hs. cbn [negb Collector.expandList].
  apply bind_ext; intros rs1 st2; apply bind_ext; intros rs2 st3.
  apply bind_ext; intros root' st4.
  unfold bind. rewrite family_agree.
  destruct (Collector.family root' [] st4) as [[srcs|e] st5]; [|done].
  apply for_each_ext. intros s rs3 st6 _. by apply scan_source_agree.
Qed.

(** [X7] The two collectors agree wherever their sources agree: with no rule
    of type ["regex"], no observer and no [expandChildren], and a source that
    needs no default, [collectMembers] and [collectMembersWide] of
    [crawler.js] return the same result in the same final state as those of
    the later collector. *)
Theorem collectors_agree_without_regex (ms : list (Matcher W)) source defaults extra st :
  Forall (fun m => m_type m ≠ "regex") ms →
  (source ≠ VUndef →
   CrawlerJs.collectMembers
     {| CrawlerJs.co_source := source; CrawlerJs.co_defaults := defaults;
        CrawlerJs.co_extra := extra; CrawlerJs.co_matchers := ms |} st
   = Collector.collectMembers
       {| Collector.co_source := source; Collector.co_defaults := defaults;
          Collector.co_extra := extra; Collector.co_matchers := ms;
          Collector.co_onMatch := None |} st)
  ∧ (truthy source = true →
     CrawlerJs.collectMembersWide
       {| CrawlerJs.wo_root := source; CrawlerJs.wo_defaults := defaults;
          CrawlerJs.wo_extra := extra; CrawlerJs.wo_matchers := ms |} st
     = Collector.collectMembersWide
         {| Collector.wo_root := source; Collector.wo_defaults := defaults;
            Collector.wo_extra := extra; Collector.wo_matchers := ms;
            Collector.wo_onMatch := None; Collector.wo_expandChildren := None |} st).
Proof.
  intros H. split; intros Hs.
  - by apply collectMembers_agree.
  - by apply collectMembersWide_agree.
Qed.

End Agreement.

Lemma collectors_agree_without_regex_witness :
  CrawlerJs.collectMembers
    {| CrawlerJs.co_source := VRef 10; CrawlerJs.co_defaults := SeedArray [];
       CrawlerJs.co_extra := SeedArray []; CrawlerJs.co_matchers := match_all |} one_member
  = Collector.collectMembers
      {| Collector.co_source := VRef 10; Collector.co_defaults := SeedArray [];
         Collector.co_extra := SeedArray []; Collector.co_matchers := match_all;
         Collector.co_onMatch := None |} one_member.
Proof.
  destruct (collectors_agree_without_regex (W := unit) match_all (VRef 10)
              (SeedArray []) (SeedArray []) one_member) as [H _].
  - repeat constructor. discriminate.
  - apply H. discriminate.
Defined.

Section WideMembers.
Context {W : Type}.
Implicit Types (st : State W) (v : jsval) (rs : list string) (h : gmap loc (object W)).

Lemma allKeys_of_listed src st :
  Collector.allKeys_of src st = (Ret (all_keys (heap st) src), st).
Proof.
  unfold Collector.allKeys_of, all_keys, bind, try_catch, Object_keys,
    Object_getOwnPropertyNames.
  rewrite own_names_listed.
  destruct (listed_keys true (heap st) src); unfold ret; cbv beta iota;
    rewrite own_names_listed;
    destruct (listed_keys false (heap st) src); done.
Qed.

(** The loop over the merged keys of one source; a name met before is
    skipped. *)
Lemma scan_wide_keys_key_only (ms : list (Matcher W)) hits src keys
    (seen : gset string) rs st :
  quiet_getters (heap st) →
  Forall2 key_only ms hits →
  ∃ acc st',
    for_each keys (Collector.scan_wide_key ms None src) (seen, rs) st = (Ret acc, st')
    ∧ cursor_only st st'
    ∧ ∀ s, s ∈ snd acc ↔
           s ∈ rs ∨ ∃ k hit, k ∈ keys ∧ (k ∉ seen)
                             ∧ readable (heap st) (world st) src k
                             ∧ hit ∈ hits ∧ hit k = Some s.
Proof.
  intros Hq Hms. revert seen rs st Hq.
  induction keys as [|k keys IH]; intros seen rs st Hq.
  - exists (seen, rs), st. split_and!; [done|apply cursor_only_refl|].
    intros s. split; [auto|]. intros [H|(k & hit & Hk & _)]; [done|].
    by apply not_elem_of_nil in Hk.
  - cbn [for_each]. unfold bind at 1, Collector.scan_wide_key at 1.
    case_bool_decide as Hseen.
    + destruct (IH seen rs st Hq) as (acc & st' & E & Hc & Hmem).
      exists acc, st'. unfold ret at 1. split_and!; [done..|].
      intros s. rewrite Hmem. split.
      * intros [H|(k' & hit & Hk & Hrest)]; [auto|].
        right. exists k', hit. split; [by right|done].
      * intros [H|(k' & hit & Hk & Hn & Hrest)]; [auto|].
        apply elem_of_cons in Hk as [->|Hk]; [done|].
        right. by exists k', hit.
    + unfold bind at 1, try_catch, bind at 1. rewrite get_read by done.
      destruct (read_value (heap st) (world st) src k) as [x|e] eqn:Er.
      * unfold ret at 1. unfold bind at 1.
        destruct (applyMatchers_key_only ms hits k x src rs st Hms) as (st1 & E1 & Hc1).
        rewrite E1. unfold ret at 1.
        destruct (IH ({[k]} ∪ seen) (hits_of hits k rs) st1) as (acc & st' & E & Hc & Hmem).
        { by rewrite (cursor_only_heap _ _ Hc1). }
        exists acc, st'. split_and!; [done|by eapply cursor_only_trans|].
        intros s.
        rewrite Hmem, hits_of_elem, (cursor_only_heap _ _ Hc1), (cursor_only_world _ _ Hc1).
        split.
        -- intros [[H|(hit & Hh & Eh)]|(k' & hit & Hk & Hn & Hrest)]; [auto| |].
           ++ right. exists k, hit. split_and!; [by left|done|by exists x|done|done].
           ++ right. exists k', hit. split_and!; [by right|by intros ?; apply Hn, elem_of_union; right|apply Hrest..].
        -- intros [H|(k' & hit & Hk & Hn & Hr & Hh & Eh)]; [auto|].
           destruct (decide (k' = k)) as [->|Hne].
           ++ left. right. by exists hit.
           ++ apply elem_of_cons in Hk as [->|Hk]; [done|].
              right. exists k', hit. split_and!; [done|by apply not_elem_of_union; split; [apply not_elem_of_singleton|]|done..].
      * unfold ret at 1.
        destruct (IH ({[k]} ∪ seen) rs st Hq) as (acc & st' & E & Hc & Hmem).
        exists acc, st'. split_and!; [done..|].
        intros s. rewrite Hmem. split.
        -- intros [H|(k' & hit & Hk & Hn & Hrest)]; [auto|].
           right. exists k', hit. split_and!; [by right|by intros ?; apply Hn, elem_of_union; right|apply Hrest..].
        -- intros [H|(k' & hit & Hk & Hn & Hr & Hh & Eh)]; [auto|].
           destruct (decide (k' = k)) as [->|Hne].
           ++ destruct Hr as [y Hy]. congruence.
           ++ apply elem_of_cons in Hk as [->|Hk]; [done|].
              right. exists k', hit. split_and!; [done|by apply not_elem_of_union; split; [apply not_elem_of_singleton|]|done..].
Qed.

Lemma scan_source_key_only (ms : list (Matcher W)) hits src rs st :
  quiet_getters (heap st) →
  Forall2 key_only ms hits →
  ∃ rs' st',
    Collector.scan_source ms None src rs st = (Ret rs', st')
    ∧ cursor_only st st'
    ∧ ∀ s, s ∈ rs' ↔
           s ∈ rs ∨ ∃ k hit, k ∈ all_keys (heap st) src
                             ∧ readable (heap st) (world st) src k
                             ∧ hit ∈ hits ∧ hit k = Some s.
Proof.
  intros Hq Hms. unfold Collector.scan_source, bind at 1. rewrite allKeys_of_listed.
  destruct (scan_wide_keys_key_only ms hits src (all_keys (heap st) src) ∅ rs st Hq Hms)
    as (acc & st' & E & Hc & Hmem).
  exists (snd acc), st'. unfold bind. rewrite E. split_and!; [done..|].
  intros s. rewrite Hmem. split.
  - intros [H|(k & hit & Hk & _ & Hrest)]; [auto|]. right. by exists k, hit.
  - intros [H|(k & hit & Hk & Hrest)]; [auto|].
    right. exists k, hit. split_and!; [done|apply not_elem_of_empty|apply Hrest..].
Qed.

Lemma scan_sources_key_only (ms : list (Matcher W)) hits srcs rs st :
  quiet_getters (heap st) →
  Forall2 key_only ms hits →
  ∃ rs' st',
    for_each srcs (Collector.scan_source ms None) rs st = (Ret rs', st')
    ∧ cursor_only st st'
    ∧ ∀ s, s ∈ rs' ↔
           s ∈ rs ∨ ∃ src k hit, src ∈ srcs ∧ k ∈ all_keys (heap st) src
                                 ∧ readable (heap st) (world st) src k
                                 ∧ hit ∈ hits ∧ hit k = Some s.
Proof.
  intros Hq Hms. revert rs st Hq. induction srcs as [|src srcs IH]; intros rs st Hq.
  - exists rs, st. split_and!; [done|apply cursor_only_refl|].
    intros s. split; [auto|]. intros [H|(src & k & hit & Hs & _)]; [done|].
    by apply not_elem_of_nil in Hs.
  - destruct (scan_source_key_only ms hits src rs st Hq Hms)
      as (rs1 & st1 & E1 & Hc1 & Hm1).
    destruct (IH rs1 st1) as (rs2 & st2 & E2 & Hc2 & Hm2).
    { by rewrite (cursor_only_heap _ _ Hc1). }
    exists rs2, st2. cbn [for_each]. unfold bind. rewrite E1.
    split_and!; [done|by eapply cursor_only_trans|].
    intros s.
    rewrite Hm2, Hm1, (cursor_only_heap _ _ Hc1), (cursor_only_world _ _ Hc1). split.
    + intros [[H|(k & hit & Hrest)]|(src' & k & hit & Hs & Hrest)]; [auto| |].
      * right. exists src, k, hit. split; [by left|done].
      * right. exists src', k, hit. split; [by right|done].
    + intros [H|(src' & k & hit & Hs & Hrest)]; [auto|].
      apply elem_of_cons in Hs as [->|Hs].
      * left. right. by exists k, hit.
      * right. by exists src', k, hit.
Qed.

Lemma family_reads root expand st :
  quiet_getters (heap st) →
  ∃ srcs, Collector.family (W := W) root expand st = (Ret srcs, st).
Proof.
  intros Hq. destruct (no_throw_family root expand st) as (srcs & st' & E & _).
  pose proof (reads_quietly_family root expand st Hq) as Hro.
  rewrite E in Hro. simpl in Hro. subst st'. by exists srcs.
Qed.

(** For rules that depend on the key only, [collectMembersWide] over a
    truthy root is a function of the heap, and changes cursors only. *)
Lemma collectMembersWide_key_only root defaults extra expand (ms : list (Matcher W)) hits st :
  quiet_getters (heap st) →
  truthy root = true → seeds_ok defaults → seeds_ok extra →
  Forall2 key_only ms hits →
  ∃ srcs res st',
    Collector.family root (Collector.expandList expand) st = (Ret srcs, st)
    ∧ Collector.collectMembersWide
        {| Collector.wo_root := root; Collector.wo_defaults := defaults;
           Collector.wo_extra := extra; Collector.wo_matchers := ms;
           Collector.wo_onMatch := None; Collector.wo_expandChildren := expand |} st
      = (Ret res, st')
    ∧ cursor_only st st'
    ∧ ∀ s, s ∈ res ↔
           s ∈ seeded defaults extra
           ∨ ∃ src k hit, src ∈ srcs ∧ k ∈ all_keys (heap st) src
                          ∧ readable (heap st) (world st) src k
                          ∧ hit ∈ hits ∧ hit k = Some s.
Proof.
  intros Hq Hr Hd He Hms.
  destruct (family_reads root (Collector.expandList expand) st Hq) as [srcs Ef].
  destruct (scan_sources_key_only ms hits srcs (seeded defaults extra) st Hq Hms)
    as (res & st' & E & Hc & Hmem).
  exists srcs, res, st'. split_and!; [done| |done..].
  unfold Collector.collectMembersWide.
  cbn [Collector.wo_root Collector.wo_defaults Collector.wo_extra
       Collector.wo_matchers Collector.wo_onMatch Collector.wo_expandChildren].
  unfold bind at 1; rewrite seedSet_pure by done.
  unfold bind at 1; rewrite seedSet_pure by done.
  rewrite Hr. cbn [negb]. unfold bind at 1, ret at 1.
  unfold bind at 1. rewrite Ef. exact E.
Qed.

Lemma plain_hit_elem (ms : list (Matcher W)) k s :
  (∃ hit, hit ∈ map plain_hit ms ∧ hit k = Some s)
  ↔ k = s ∧ s ≠ "" ∧ ∃ m, m ∈ ms ∧ pure_match m s = true.
Proof.
  split.
  - intros (hit & Hh & E). apply list_elem_of_fmap in Hh as (m & -> & Hm).
    unfold plain_hit in E. destruct (pure_match m k) eqn:Em; simpl in E; [|done].
    destruct (String.eqb k "") eqn:Ek; simpl in E; [done|].
    inversion E; subst. split_and!; [done| |by exists m].
    intros ->. done.
  - intros (-> & Hne & m & Hm & Em). exists (plain_hit m). split.
    + apply list_elem_of_fmap. by exists m.
    + unfold plain_hit. rewrite Em. simpl.
      destruct (String.eqb s "") eqn:Ek; [|done]. by apply String.eqb_eq in Ek.
Qed.

(** [X8] What [collectMembersWide] returns for an object, in a heap whose
    getters have no effect, and for rules without callbacks: a string is in
    the result exactly when it is a seed, or a non-empty own property name,
    enumerable or not, of a member of the family of the root, that can be
    read there without an error and that one of the rules matches. The
    family is computed without a change of state, and the whole call changes
    cursors of patterns only. *)
Theorem Collector_collectMembersWide_plain_members
    (l : loc) defaults extra expand (ms : list (Matcher W)) st :
  quiet_getters (heap st) →
  plain_seeds defaults → plain_seeds extra → Forall plain_rule ms →
  ∃ srcs res st',
    Collector.family (VRef l) (Collector.expandList expand) st = (Ret srcs, st)
    ∧ Collector.collectMembersWide
        {| Collector.wo_root := VRef l; Collector.wo_defaults := defaults;
           Collector.wo_extra := extra; Collector.wo_matchers := ms;
           Collector.wo_onMatch := None; Collector.wo_expandChildren := expand |} st
      = (Ret res, st')
    ∧ cursor_only st st'
    ∧ ∀ s, s ∈ res ↔
           s ∈ seeded defaults extra
           ∨ (s ≠ ""
              ∧ (∃ m, m ∈ ms ∧ pure_match m s = true)
              ∧ ∃ src, src ∈ srcs ∧ s ∈ all_keys (heap st) src
                       ∧ readable (heap st) (world st) src s).
Proof.
  intros Hq Hd%plain_seeds_ok He%plain_seeds_ok Hms.
  destruct (collectMembersWide_key_only (VRef l) defaults extra expand ms _ st
              Hq eq_refl Hd He (plain_rules_key_only ms Hms))
    as (srcs & res & st' & Ef & E & Hc & Hmem).
  exists srcs, res, st'. split_and!; [done..|].
  intros s. rewrite Hmem. split.
  - intros [H|(src & k & hit & Hs & Hk & Hr & Hh)]; [auto|].
    assert (Hx : ∃ hit, hit ∈ map plain_hit ms ∧ hit k = Some s) by (by exists hit).
    apply plain_hit_elem in Hx as (-> & Hne & Hm).
    right. split_and!; [done..|]. by exists src.
  - intros [H|(Hne & Hm & src & Hs & Hk & Hr)]; [auto|].
    destruct (proj2 (plain_hit_elem ms s s)) as (hit & Hh & Eh); [done|].
    right. by exists src, s, hit.
Qed.

End WideMembers.

Lemma Collector_collectMembersWide_plain_members_witness :
  ∃ res st',
    Collector.collectMembersWide
      {| Collector.wo_root := VRef 10; Collector.wo_defaults := SeedArray [];
         Collector.wo_extra := SeedArray []; Collector.wo_matchers := match_all;
         Collector.wo_onMatch := None; Collector.wo_expandChildren := None |}
      shared_prototype = (Ret res, st')
    ∧ cursor_only shared_prototype st'.
Proof.
  destruct (Collector_collectMembersWide_plain_members (W := list visit) 10 (SeedArray [])
              (SeedArray []) None match_all shared_prototype)
    as (srcs & res & st' & _ & E & Hc & _).
  - apply data_only_quiet. vm_compute. reflexivity.
  - constructor.
  - constructor.
  - constructor; [|constructor]. split_and!; [reflexivity|discriminate|].
    intros r H. discriminate.
  - exists res, st'. split; [exact E|exact Hc].
Defined.

Section FamilyInvariant.
Context {W : Type}.
Implicit Types (st : State W) (v : jsval).
Variable P : list jsval → Prop.
Hypothesis P_add : ∀ st obj s, P s → P (Collector.addSource st obj s).

Ltac inv_step :=
  match goal with
  | |- ensures _ (ret _) => apply ensures_ret; try done
  | |- ensures _ (try_catch _ _) => apply ensures_try_catch; [|intros ?]
  | |- ensures _ (bind _ _) => apply ensures_bind; intros ?
  | |- ensures _ (if ?b then _ else _) => destruct b
  | |- ensures _ (match ?x with _ => _ end) => destruct x
  end.

Lemma addSourceM_inv obj s : P s → ensures P (Collector.addSourceM obj s : M W _).
Proof using P_add.
  intros Hs st a st' H. unfold Collector.addSourceM, bind, get_state, ret in H.
  inversion H; subst. by apply P_add.
Qed.

Lemma walk_chain_inv fuel proto s :
  P s → ensures P (Collector.walk_chain fuel proto s : M W _).
Proof using P_add.
  revert proto s. induction fuel as [|fuel IH]; intros proto s Hs; simpl.
  - by apply ensures_ret.
  - apply ensures_bind. intros st.
    destruct (_ && _); [|by apply ensures_ret].
    apply ensures_try_catch.
    + apply ensures_bind. intros proto'. by apply IH, P_add.
    + intros e. by apply ensures_ret, P_add.
Qed.

Lemma add_chain_inv root s : P s → ensures P (Collector.add_chain root s : M W _).
Proof using P_add.
  intros Hs. unfold Collector.add_chain.
  apply ensures_try_catch; [|intros e; by apply ensures_ret].
  apply ensures_bind. intros proto. apply ensures_bind. intros st.
  by apply walk_chain_inv.
Qed.

Lemma add_aliases_inv root s : P s → ensures P (Collector.add_aliases root s : M W _).
Proof using P_add.
  intros Hs. unfold Collector.add_aliases.
  apply ensures_bind. intros st. cbv zeta.
  destruct (truthy (Collector.alias_global st)); [|by apply ensures_ret].
  do 3 (apply ensures_bind; intros ?).
  apply ensures_for_each; [done|].
  intros nm s' Hn. unfold Collector.add_alias.
  repeat inv_step. by apply addSourceM_inv.
Qed.

Lemma add_member_inv root p s : P s → ensures P (Collector.add_member root p s : M W _).
Proof using P_add.
  intros Hs. unfold Collector.add_member. repeat inv_step. by apply addSourceM_inv.
Qed.

(** A property of the set of sources that [addSource] keeps, and that holds
    once the root is added, holds of the family. *)
Lemma family_invariant root expand :
  (∀ st, P (Collector.addSource st root [])) →
  ensures P (Collector.family root expand : M W _).
Proof using P_add.
  intros Hroot. unfold Collector.family.
  intros st srcs st' H. unfold bind at 1 in H.
  destruct (Collector.addSourceM root [] st) as [[s0|e] st0] eqn:E0; [|done].
  assert (N0 : P s0).
  { unfold Collector.addSourceM, bind, get_state, ret in E0. inversion E0; subst.
    apply Hroot. }
  unfold bind at 1 in H.
  destruct (for_each expand _ s0 st0) as [[s1|e] st1] eqn:E1; [|done].
  assert (N1 : P s1).
  { eapply (ensures_for_each P); [exact N0| |exact E1].
    intros c s Hs. unfold Collector.expand_child.
    repeat inv_step. by apply addSourceM_inv. }
  assert (Hmember : ∀ p s, P s → ensures P (Collector.add_member root p s : M W _)).
  { intros p s Hs. unfold Collector.add_member.
    repeat inv_step. by apply addSourceM_inv. }
  unfold bind at 1 in H.
  destruct (Collector.add_member root "constructor" s1 st1) as [[s2|e] st2] eqn:E2; [|done].
  assert (N2 : P s2) by (by eapply Hmember).
  unfold bind at 1 in H.
  destruct (Collector.add_member root "prototype" s2 st2) as [[s3|e] st3] eqn:E3; [|done].
  assert (N3 : P s3) by (by eapply Hmember).
  unfold bind at 1 in H.
  destruct (Collector.add_chain root s3 st3) as [[s4|e] st4] eqn:E4; [|done].
  assert (N4 : P s4).
  { eapply add_chain_inv; [exact N3|exact E4]. }
  eapply add_aliases_inv; [exact N4|exact H].
Qed.

End FamilyInvariant.

Section FamilyShape.
Context {W : Type}.
Implicit Types (st : State W) (v : jsval).

Lemma addSource_references st obj (s : list jsval) :
  Forall is_reference s → Forall is_reference (Collector.addSource st obj s).
Proof.
  intros Hs. unfold Collector.addSource.
  destruct (truthy obj) eqn:Et; cbn [negb]; [|done].
  destruct (negb _ && negb _) eqn:Ety; [done|].
  case_bool_decide; [done|].
  apply Forall_app. split; [done|]. constructor; [|constructor].
  destruct obj as [| |b|n|x|l]; first [done|by simpl in Ety|by eexists].
Qed.

Lemma addSource_head st obj (s : list jsval) r :
  head s = Some r → head (Collector.addSource st obj s) = Some r.
Proof.
  intros Hs. unfold Collector.addSource.
  repeat case_match; try done. by destruct s.
Qed.

Lemma addSource_object st (l : loc) :
  Collector.addSource st (VRef l) [] = [VRef l].
Proof.
  unfold Collector.addSource. simpl.
  destruct (heap st !! l) as [o|]; [destruct (o_call o)|]; done.
Qed.

(** [X9] The family of an object, in every heap whose getters have no
    effect and for every list of children: it is computed without an error
    and without a change of state; it starts with the object itself; it
    holds object references only (no primitive value, no [null]); and it
    holds none of them twice. *)
Theorem family_shape (l : loc) expand st :
  quiet_getters (heap st) →
  ∃ srcs,
    Collector.family (VRef l) expand st = (Ret srcs, st)
    ∧ head srcs = Some (VRef l)
    ∧ NoDup srcs
    ∧ Forall is_reference srcs.
Proof.
  intros Hq. destruct (family_reads (VRef l) expand st Hq) as [srcs E].
  exists srcs. split_and!; [done| | |].
  - eapply (family_invariant (fun s => head s = Some (VRef l))); [| |exact E].
    + intros. by apply addSource_head.
    + intros st0. by rewrite addSource_object.
  - by eapply family_NoDup.
  - eapply (family_invariant (Forall is_reference)); [| |exact E].
    + intros. by apply addSource_references.
    + intros st0. apply addSource_references. constructor.
Qed.

Lemma family_has_root (l : loc) expand st srcs st' :
  Collector.family (W := W) (VRef l) expand st = (Ret srcs, st') → VRef l ∈ srcs.
Proof.
  intros E.
  assert (H : head srcs = Some (VRef l)).
  { eapply (family_invariant (fun s => head s = Some (VRef l))); [| |exact E].
    - intros. by apply addSource_head.
    - intros st0. by rewrite addSource_object. }
  destruct srcs as [|x srcs]; [done|]. simpl in H. inversion H. left.
Qed.

(** [X10] The wide scan finds what the plain scan finds: for an object, in
    a heap whose getters have no effect, and for rules without callbacks,
    every string that [collectMembers] returns is also returned by
    [collectMembersWide] with the same root, seeds and rules, whatever
    [expandChildren] is. *)
Theorem wide_contains_single (l : loc) defaults extra expand (ms : list (Matcher W)) st :
  quiet_getters (heap st) →
  plain_seeds defaults → plain_seeds extra → Forall plain_rule ms →
  ∃ single st1 wide st2,
    Collector.collectMembers
      {| Collector.co_source := VRef l; Collector.co_defaults := defaults;
         Collector.co_extra := extra; Collector.co_matchers := ms;
         Collector.co_onMatch := None |} st = (Ret single, st1)
    ∧ Collector.collectMembersWide
        {| Collector.wo_root := VRef l; Collector.wo_defaults := defaults;
           Collector.wo_extra := extra; Collector.wo_matchers := ms;
           Collector.wo_onMatch := None; Collector.wo_expandChildren := expand |} st
      = (Ret wide, st2)
    ∧ single ⊆ wide.
Proof.
  intros Hq Hd%plain_seeds_ok He%plain_seeds_ok Hms.
  destruct (collectMembers_plain_members_of (VRef l) defaults extra ms st)
    as (single & st1 & E1 & _ & Hm1); [done..|].
  destruct (collectMembersWide_key_only (VRef l) defaults extra expand ms _ st
              Hq eq_refl Hd He (plain_rules_key_only ms Hms))
    as (srcs & wide & st2 & Ef & E2 & _ & Hm2).
  exists single, st1, wide, st2. split_and!; [done..|].
  intros s Hs. apply Hm1 in Hs as [Hs|(_ & Hk & Hr & Hne & Hm)]; apply Hm2; [auto|].
  destruct (proj2 (plain_hit_elem ms s s)) as (hit & Hh & Eh); [done|].
  right. exists (VRef l), s, hit. split_and!; [|apply elem_of_app; by left|done..].
  by eapply family_has_root.
Qed.

End FamilyShape.

Section ScannedOnce.
Implicit Types (st : State (list visit)).

Lemma applyMatchers_counting k value src rs st :
  ∃ rs', Collector.applyMatchers [counting] k value src rs None st
         = (Ret rs', set_world (world st ++ [(src, k)]) st).
Proof.
  unfold Collector.applyMatchers, for_each, Collector.apply_matcher, Collector.test_matcher,
    bind, try_catch, user, ret. simpl.
  case_bool_decide; simpl; by eexists.
Qed.

(** One step of the loop over the keys of a source: the key is handed to
    the rule when it is not in [seen] and can be read, and it is in [seen]
    afterwards. *)
Lemma scan_wide_key_counting src k (seen : gset string) rs st :
  quiet_getters (heap st) →
  ∃ seen' rs' st' (vs : list string),
    Collector.scan_wide_key [counting] None src k (seen, rs) st = (Ret (seen', rs'), st')
    ∧ heap st' = heap st
    ∧ world st' = world st ++ (pair src <$> vs)
    ∧ (∀ x, x ∈ seen' ↔ x = k ∨ x ∈ seen)
    ∧ (vs = [] ∨ (vs = [k] ∧ k ∉ seen))
    ∧ (k ∉ seen → (∀ w, readable (heap st) w src k) → vs = [k]).
Proof.
  intros Hq. unfold Collector.scan_wide_key. case_bool_decide as Hk.
  - exists seen, rs, st, []. simpl. rewrite app_nil_r. split_and!; auto.
    + intros x. split; [auto|]. by intros [->|?].
    + done.
  - unfold bind at 1, try_catch, bind at 1. rewrite get_read by done.
    destruct (read_value (heap st) (world st) src k) as [x|e] eqn:Er.
    + destruct (applyMatchers_counting k x src rs st) as (rs' & E).
      unfold ret at 1. unfold bind. rewrite E.
      exists ({[k]} ∪ seen), rs', (set_world (world st ++ [(src, k)]) st), [k].
      split_and!; auto.
      intros y. rewrite elem_of_union, elem_of_singleton. done.
    + exists ({[k]} ∪ seen), rs, st, []. simpl. rewrite app_nil_r.
      split_and!; auto.
      * intros y. rewrite elem_of_union, elem_of_singleton. done.
      * intros _ Hr. destruct (Hr (world st)) as [y Hy]. congruence.
Qed.

Lemma scan_keys_counting src keys (seen : gset string) rs st :
  quiet_getters (heap st) →
  ∃ seen' rs' st' (ks : list string),
    for_each keys (Collector.scan_wide_key [counting] None src) (seen, rs) st
    = (Ret (seen', rs'), st')
    ∧ heap st' = heap st
    ∧ world st' = world st ++ (pair src <$> ks)
    ∧ NoDup ks
    ∧ (∀ k, k ∈ ks → (k ∉ seen) ∧ k ∈ keys)
    ∧ (∀ k, k ∈ keys → k ∉ seen → (∀ w, readable (heap st) w src k) → k ∈ ks).
Proof.
  revert seen rs st. induction keys as [|k keys IH]; intros seen rs st Hq.
  - exists seen, rs, st, []. simpl. rewrite app_nil_r.
    split_and!; [done..|constructor| |]; intros k Hk; by apply not_elem_of_nil in Hk.
  - destruct (scan_wide_key_counting src k seen rs st Hq)
      as (seen1 & rs1 & st1 & vs & E1 & Hh1 & Hw1 & Hseen & Hvs & Hall).
    destruct (IH seen1 rs1 st1) as (seen2 & rs2 & st2 & ks & E2 & Hh2 & Hw2 & Hnd & Hks & Hc).
    { by rewrite Hh1. }
    exists seen2, rs2, st2, (vs ++ ks). split_and!.
    + cbn [for_each]. unfold bind. by rewrite E1.
    + by rewrite Hh2.
    + rewrite Hw2, Hw1, fmap_app. by rewrite app_assoc.
    + destruct Hvs as [-> | [-> Hk]]; [done|]. simpl. constructor; [|done].
      intros Hk'. apply Hks in Hk' as [Hk' _]. apply Hk', Hseen. by left.
    + intros k' [Hk'|Hk']%elem_of_app.
      * destruct Hvs as [-> | [-> Hk]]; [by apply not_elem_of_nil in Hk'|].
        apply list_elem_of_singleton in Hk'. subst. split; [done|by left].
      * apply Hks in Hk' as [Hn Hin]. split; [|by right].
        intros Hs. apply Hn, Hseen. by right.
    + intros k' Hk' Hn Hr. apply elem_of_app.
      destruct (decide (k' = k)) as [->|Hne].
      * left. rewrite (Hall Hn Hr). by left.
      * right. apply elem_of_cons in Hk' as [->|Hk']; [done|].
        apply Hc; [done| |by rewrite Hh1].
        intros Hs. apply Hseen in Hs as [->|Hs]; done.
Qed.

Lemma scan_source_counting src rs st :
  quiet_getters (heap st) →
  ∃ rs' st' (ks : list string),
    Collector.scan_source [counting] None src rs st = (Ret rs', st')
    ∧ heap st' = heap st
    ∧ world st' = world st ++ (pair src <$> ks)
    ∧ NoDup ks
    ∧ (∀ k, k ∈ ks → k ∈ all_keys (heap st) src)
    ∧ (∀ k, k ∈ all_keys (heap st) src → (∀ w, readable (heap st) w src k) → k ∈ ks).
Proof.
  intros Hq. unfold Collector.scan_source. unfold bind at 1. rewrite allKeys_of_listed.
  destruct (scan_keys_counting src (all_keys (heap st) src) ∅ rs st Hq)
    as (seen' & rs' & st' & ks & E & Hh & Hw & Hnd & Hks & Hc).
  exists rs', st', ks. unfold bind. rewrite E. split_and!; [done..| |].
  - intros k Hk. by apply Hks.
  - intros k Hk Hr. apply Hc; [done|apply not_elem_of_empty|done].
Qed.

Lemma scan_sources_counting (srcs : list jsval) rs st :
  quiet_getters (heap st) →
  NoDup srcs →
  ∃ rs' st' (visits : list visit),
    for_each srcs (Collector.scan_source [counting] None) rs st = (Ret rs', st')
    ∧ world st' = world st ++ visits
    ∧ NoDup visits
    ∧ (∀ o k, (o, k) ∈ visits → o ∈ srcs ∧ k ∈ all_keys (heap st) o)
    ∧ (∀ o k, o ∈ srcs → k ∈ all_keys (heap st) o →
              (∀ w, readable (heap st) w o k) → (o, k) ∈ visits).
Proof.
  intros Hq Hnd. revert rs st Hq.
  induction Hnd as [|src srcs Hsrc Hnd IH]; intros rs st Hq.
  - exists rs, st, []. simpl. rewrite app_nil_r.
    split_and!; [done..|constructor| |]; intros o k Hk; by apply not_elem_of_nil in Hk.
  - destruct (scan_source_counting src rs st Hq)
      as (rs1 & st1 & ks & E1 & Hh1 & Hw1 & Hks & Hsound & Hcomp).
    destruct (IH rs1 st1) as (rs2 & st2 & visits & E2 & Hw2 & Hv & Hown & Hall).
    { by rewrite Hh1. }
    rewrite Hh1 in Hown, Hall.
    exists rs2, st2, ((pair src <$> ks) ++ visits). split_and!.
    + cbn [for_each]. unfold bind. by rewrite E1.
    + rewrite Hw2, Hw1. by rewrite app_assoc.
    + apply NoDup_app. split_and!; [|intros [o k] Ho Hin|done].
      * apply NoDup_fmap_2; [|done]. intros x y H. by inversion H.
      * apply list_elem_of_fmap in Ho as (k' & Heq & _). inversion Heq; subst.
        apply Hown in Hin as [Hin _]. done.
    + intros o k [Ho|Ho]%elem_of_app.
      * apply list_elem_of_fmap in Ho as (k' & Heq & Hk'). inversion Heq; subst.
        split; [by left|by apply Hsound].
      * apply Hown in Ho as [Ho Hk]. split; [by right|done].
    + intros o k Ho Hk Hr. apply elem_of_app.
      apply elem_of_cons in Ho as [->|Ho].
      * left. apply list_elem_of_fmap. exists k. split; [done|by apply Hcomp].
      * right. by apply Hall.
Qed.

Lemma addSource_mono st obj (x : jsval) (s : list jsval) :
  x ∈ s → x ∈ Collector.addSource st obj s.
Proof.
  intros Hx. unfold Collector.addSource. repeat case_match; try done.
  apply elem_of_app. by left.
Qed.

Lemma addSource_adds st (q : loc) (s : list jsval) :
  VRef q ∈ Collector.addSource st (VRef q) s.
Proof.
  unfold Collector.addSource. cbn [truthy negb].
  assert (Ht : negb (String.eqb (typeof st (VRef q)) "object")
               && negb (String.eqb (typeof st (VRef q)) "function") = false).
  { simpl. destruct (heap st !! q) as [o|]; [destruct (o_call o)|]; done. }
  rewrite Ht. case_bool_decide; [done|]. apply elem_of_app. right. by left.
Qed.

(** A member [p] of the root that holds an object puts it in the closure. *)
Lemma add_member_adds (l q : loc) p (s : list jsval) st :
  quiet_getters (heap st) →
  read_value (heap st) (world st) (VRef l) p = Ret (VRef q) →
  ∃ s', Collector.add_member (VRef l) p s st = (Ret s', st) ∧ VRef q ∈ s'.
Proof.
  intros Hq Hr. unfold Collector.add_member, try_catch. cbn [truthy].
  unfold bind at 1. rewrite get_read, Hr by done. cbn [truthy].
  unfold bind at 1. rewrite get_read, Hr by done.
  unfold Collector.addSourceM, bind, get_state, ret.
  eexists. split; [reflexivity|]. apply addSource_adds.
Qed.

(** The prototype of the root, when it is not one of the two built-in
    ones, is in the closure. *)
Lemma add_chain_adds (l q : loc) o (s s' : list jsval) st st' :
  heap st !! l = Some o → o_proto o = Some q →
  q ≠ ObjectPrototype (genv st) → q ≠ FunctionPrototype (genv st) →
  Collector.add_chain (VRef l) s st = (Ret s', st') → VRef q ∈ s'.
Proof.
  intros Hl Ho Hn1 Hn2 E. unfold Collector.add_chain, try_catch in E.
  unfold bind at 1, getPrototypeOf, bind at 1, get_state in E. rewrite Hl, Ho in E.
  unfold ret at 1 in E. unfold bind at 1, get_state in E.
  destruct (size (heap st)) as [|fuel] eqn:Es.
  { apply map_size_empty_inv in Es. rewrite Es in Hl. by rewrite lookup_empty in Hl. }
  cbn [Collector.walk_chain] in E. unfold bind at 1, get_state in E.
  cbn [truthy andb] in E.
  rewrite !bool_decide_eq_false_2 in E by (intros H; inversion H; done).
  cbn [negb andb] in E.
  set (s1 := Collector.addSource st (VRef q) s) in E.
  assert (H1 : VRef q ∈ s1) by apply addSource_adds.
  unfold try_catch in E.
  destruct ((proto' <- getPrototypeOf (VRef q);; Collector.walk_chain fuel proto' s1) st)
    as [[s2|e] st2] eqn:E2.
  - inversion E; subst.
    revert E2. apply (ensures_bind (fun s2 => VRef q ∈ s2)). intros proto'.
    apply walk_chain_inv; [|done]. intros. by apply addSource_mono.
  - unfold ret in E. inversion E; by subst.
Qed.

(** [C8] One call of [collectMembersWide] over an object. The closure holds
    the root, what its members [constructor] and [prototype] hold, and its
    prototype, each of them once however many ways lead to it. A predicate
    rule that records each owner and key it is asked about (the counting
    side channel) records every own property name of every member of the
    closure at most once, and exactly once when the name can be read. The
    getters of the heap do not write to the side channel, and the seeds are
    primitive values. *)
Theorem family_members_scanned_once (l : loc) defaults extra expand st :
  quiet_getters (heap st) → seeds_ok defaults → seeds_ok extra →
  ∃ (srcs : list jsval) res st' (visits : list visit),
    Collector.family (VRef l) (Collector.expandList expand) st = (Ret srcs, st)
    ∧ Collector.collectMembersWide
        {| Collector.wo_root := VRef l; Collector.wo_defaults := defaults;
           Collector.wo_extra := extra; Collector.wo_matchers := [counting];
           Collector.wo_onMatch := None;
           Collector.wo_expandChildren := expand |} st = (Ret res, st')
    ∧ world st' = world st ++ visits
    ∧ NoDup srcs
    ∧ VRef l ∈ srcs
    ∧ (∀ p q, p = "constructor" ∨ p = "prototype" →
              read_value (heap st) (world st) (VRef l) p = Ret (VRef q) → VRef q ∈ srcs)
    ∧ (∀ o q, heap st !! l = Some o → o_proto o = Some q →
              q ≠ ObjectPrototype (genv st) → q ≠ FunctionPrototype (genv st) →
              VRef q ∈ srcs)
    ∧ NoDup visits
    ∧ (∀ src k, (src, k) ∈ visits → src ∈ srcs ∧ k ∈ all_keys (heap st) src)
    ∧ (∀ src k, src ∈ srcs → k ∈ all_keys (heap st) src →
                (∀ w, readable (heap st) w src k) → (src, k) ∈ visits).
Proof.
  intros Hq Hd He.
  destruct (family_reads (VRef l) (Collector.expandList expand) st Hq) as [srcs Ef].
  assert (Hnd : NoDup srcs) by (by eapply family_NoDup).
  destruct (scan_sources_counting srcs (seeded defaults extra) st Hq Hnd)
    as (res & st' & visits & Es & Hw & Hv & Hsound & Hcomp).
  exists srcs, res, st', visits.
  assert (Hmono : ∀ x st0 obj s, x ∈ s → x ∈ Collector.addSource st0 obj s).
  { intros. by apply addSource_mono. }
  split_and!; [done| |done|done|by eapply family_has_root| | |done|done|done].
  - unfold Collector.collectMembersWide.
    cbn [Collector.wo_root Collector.wo_defaults Collector.wo_extra
         Collector.wo_matchers Collector.wo_onMatch Collector.wo_expandChildren].
    unfold bind at 1; rewrite seedSet_pure by done.
    unfold bind at 1; rewrite seedSet_pure by done.
    cbn [truthy negb]. unfold bind at 1, ret at 1.
    unfold bind at 1. rewrite Ef. exact Es.
  - intros p q Hp Hr. unfold Collector.family in Ef.
    unfold bind at 1 in Ef.
    destruct (Collector.addSourceM (VRef l) [] st) as [[s0|e] st0] eqn:E0; [|done].
    pose proof (reads_only_addSourceM (VRef l) [] st) as H0.
    rewrite E0 in H0. simpl in H0. subst st0.
    unfold bind at 1 in Ef.
    destruct (for_each (Collector.expandList expand) _ s0 st) as [[s1|e] st1] eqn:E1;
      [|done].
    pose proof (reads_quietly_for_each (Collector.expandList expand)
                  (Collector.expand_child (VRef l)) s0
                  (fun c s => reads_quietly_expand_child (VRef l) c s) st Hq) as H1.
    rewrite E1 in H1. simpl in H1. subst st1.
    unfold bind at 1 in Ef.
    destruct Hp as [-> | ->].
    + destruct (add_member_adds l q "constructor" s1 st Hq Hr) as (s2 & E2 & H2).
      rewrite E2 in Ef. unfold bind at 1 in Ef.
      destruct (Collector.add_member (VRef l) "prototype" s2 st) as [[s3|e] st3] eqn:E3;
        [|done].
      assert (H3 : VRef q ∈ s3).
      { eapply (add_member_inv (fun s => VRef q ∈ s)); [apply Hmono|exact H2|exact E3]. }
      unfold bind at 1 in Ef.
      destruct (Collector.add_chain (VRef l) s3 st3) as [[s4|e] st4] eqn:E4; [|done].
      assert (H4 : VRef q ∈ s4).
      { eapply (add_chain_inv (fun s => VRef q ∈ s)); [apply Hmono|exact H3|exact E4]. }
      eapply (add_aliases_inv (fun s => VRef q ∈ s)); [apply Hmono|exact H4|exact Ef].
    + destruct (Collector.add_member (VRef l) "constructor" s1 st) as [[s2|e] st2] eqn:E2;
        [|done].
      pose proof (reads_quietly_add_member (VRef l) "constructor" s1 st Hq) as H2.
      rewrite E2 in H2. simpl in H2. subst st2.
      unfold bind at 1 in Ef.
      destruct (add_member_adds l q "prototype" s2 st Hq Hr) as (s3 & E3 & H3).
      rewrite E3 in Ef. unfold bind at 1 in Ef.
      destruct (Collector.add_chain (VRef l) s3 st) as [[s4|e] st4] eqn:E4; [|done].
      assert (H4 : VRef q ∈ s4).
      { eapply (add_chain_inv (fun s => VRef q ∈ s)); [apply Hmono|exact H3|exact E4]. }
      eapply (add_aliases_inv (fun s => VRef q ∈ s)); [apply Hmono|exact H4|exact Ef].
  - intros o q Hl Ho Hn1 Hn2. unfold Collector.family in Ef.
    unfold bind at 1 in Ef.
    destruct (Collector.addSourceM (VRef l) [] st) as [[s0|e] st0] eqn:E0; [|done].
    pose proof (reads_only_addSourceM (VRef l) [] st) as H0.
    rewrite E0 in H0. simpl in H0. subst st0.
    unfold bind at 1 in Ef.
    destruct (for_each (Collector.expandList expand) _ s0 st) as [[s1|e] st1] eqn:E1;
      [|done].
    pose proof (reads_quietly_for_each (Collector.expandList expand)
                  (Collector.expand_child (VRef l)) s0
                  (fun c s => reads_quietly_expand_child (VRef l) c s) st Hq) as H1.
    rewrite E1 in H1. simpl in H1. subst st1.
    unfold bind at 1 in Ef.
    destruct (Collector.add_member (VRef l) "constructor" s1 st) as [[s2|e] st2] eqn:E2;
      [|done].
    pose proof (reads_quietly_add_member (VRef l) "constructor" s1 st Hq) as H2.
    rewrite E2 in H2. simpl in H2. subst st2.
    unfold bind at 1 in Ef.
    destruct (Collector.add_member (VRef l) "prototype" s2 st) as [[s3|e] st3] eqn:E3;
      [|done].
    pose proof (reads_quietly_add_member (VRef l) "prototype" s2 st Hq) as H3.
    rewrite E3 in H3. simpl in H3. subst st3.
    unfold bind at 1 in Ef.
    destruct (Collector.add_chain (VRef l) s3 st) as [[s4|e] st4] eqn:E4; [|done].
    assert (H4 : VRef q ∈ s4) by (by eapply add_chain_adds).
    eapply (add_aliases_inv (fun s => VRef q ∈ s)); [apply Hmono|exact H4|exact Ef].
Qed.

End ScannedOnce.

Lemma family_members_scanned_once_witness :
  ∃ visits : list visit,
    world (snd (Collector.collectMembersWide
                  {| Collector.wo_root := VRef 10; Collector.wo_defaults := SeedArray [];
                     Collector.wo_extra := SeedArray []; Collector.wo_matchers := [counting];
                     Collector.wo_onMatch := None; Collector.wo_expandChildren := None |}
                  shared_prototype)) = visits
    ∧ NoDup visits
    ∧ (VRef 11, "m") ∈ visits.
Proof.
  destruct (family_members_scanned_once 10 (SeedArray []) (SeedArray []) None
              shared_prototype)
    as (srcs & res & st' & visits & _ & E & Hw & _ & _ & Hmem & _ & Hnd & _ & Hcomp).
  - apply data_only_quiet. vm_compute. reflexivity.
  - constructor.
  - constructor.
  - exists visits. rewrite E. split_and!; [exact Hw|exact Hnd|].
    apply Hcomp.
    + apply (Hmem "prototype" 11); [by right|reflexivity].
    + vm_compute. left.
    + intros w. exists (VNum 1). reflexivity.
Defined.

(** The function [F] of [shared_prototype] reaches the object at reference
    11 as its member [prototype] and as its prototype: the key [m] of that
    object is handed to the rule once. *)
Lemma shared_prototype_scanned_once :
  let run := Collector.collectMembersWide
               {| Collector.wo_root := VRef 10; Collector.wo_defaults := SeedArray [];
                  Collector.wo_extra := SeedArray []; Collector.wo_matchers := [counting];
                  Collector.wo_onMatch := None; Collector.wo_expandChildren := None |}
               shared_prototype in
  fst run = Ret ["prototype"; "m"]
  ∧ world (snd run) = [(VRef 10, "prototype"); (VRef 11, "m")].
Proof. vm_compute. split; reflexivity. Qed.

(** A getter with an effect is outside: when the getter [prototype] gives
    [undefined] on its first read and throws afterwards, the plain scan
    returns the key and the wide scan, which reads the member while it
    builds the family, does not. *)
Lemma effectful_getter_single_not_in_wide :
  fst (Collector.collectMembers
         {| Collector.co_source := VRef 10; Collector.co_defaults := SeedArray [];
            Collector.co_extra := SeedArray []; Collector.co_matchers := match_all;
            Collector.co_onMatch := None |} (getter_host "prototype" (once VUndef)))
  = Ret ["prototype"]
  ∧ fst (Collector.collectMembersWide
           {| Collector.wo_root := VRef 10; Collector.wo_defaults := SeedArray [];
              Collector.wo_extra := SeedArray []; Collector.wo_matchers := match_all;
              Collector.wo_onMatch := None; Collector.wo_expandChildren := None |}
           (getter_host "prototype" (once VUndef)))
    = Ret [].
Proof. split; vm_compute; reflexivity. Qed.

Lemma wide_contains_single_witness :
  ∃ single wide,
    fst (Collector.collectMembers
           {| Collector.co_source := VRef 10; Collector.co_defaults := SeedArray [];
              Collector.co_extra := SeedArray []; Collector.co_matchers := match_all;
              Collector.co_onMatch := None |} shared_prototype) = Ret single
    ∧ fst (Collector.collectMembersWide
             {| Collector.wo_root := VRef 10; Collector.wo_defaults := SeedArray [];
                Collector.wo_extra := SeedArray []; Collector.wo_matchers := match_all;
                Collector.wo_onMatch := None; Collector.wo_expandChildren := None |}
             shared_prototype) = Ret wide
    ∧ single ⊆ wide.
Proof.
  destruct (wide_contains_single (W := list visit) 10 (SeedArray []) (SeedArray []) None
              match_all shared_prototype)
    as (single & st1 & wide & st2 & E1 & E2 & Hsub).
  - apply data_only_quiet. vm_compute. reflexivity.
  - constructor.
  - constructor.
  - constructor; [|constructor]. split_and!; [reflexivity|discriminate|].
    intros r H. discriminate.
  - exists single, wide. rewrite E1, E2. split_and!; [reflexivity|reflexivity|exact Hsub].
Defined.

(** * The helpers of [crawler.js] *)

Section Helpers.
Context {W : Type}.
Implicit Types (st : State W) (v : jsval) (rs : list string).

Lemma includes_empty s : includes s "" = true.
Proof. by destruct s. Qed.

Lemma seed_into_elem rs (sd : seeds) x :
  x ∈ seed_into rs sd ↔ x ∈ rs ∨ x ∈ map pure_string (seed_values sd).
Proof.
  unfold seed_into. generalize (seed_values sd). intros vs. revert rs.
  induction vs as [|v vs IH]; intros rs; simpl.
  - split; [auto|]. intros [H|H]; [done|]. by apply not_elem_of_nil in H.
  - rewrite IH, elem_of_set_add, elem_of_cons. tauto.
Qed.

(** [X11] What [getAllMemberNames] returns for an object, in a heap whose
    getters have no effect: exactly the non-empty own property names,
    enumerable or not, of the members of the family of the object that can
    be read there without an error. The heap and the state of the observed
    program stay as they are. *)
Theorem getAllMemberNames_members (l : loc) st :
  quiet_getters (heap st) →
  ∃ srcs res st',
    CrawlerJs.family (VRef l) st = (Ret srcs, st)
    ∧ CrawlerJsHelpers.getAllMemberNames (VRef l) st = (Ret res, st')
    ∧ cursor_only st st'
    ∧ ∀ s, s ∈ res ↔
           s ≠ "" ∧ ∃ src, src ∈ srcs ∧ s ∈ all_keys (heap st) src
                           ∧ readable (heap st) (world st) src s.
Proof.
  intros Hq.
  assert (Hplain : Forall (plain_rule (W := W))
            [ {| m_type := "includes"; m_value := MString ""; m_transform := None |} ]).
  { constructor; [|constructor]. split_and!; [done|done|]. intros r H. discriminate. }
  destruct (collectMembersWide_key_only (VRef l) (SeedValue VUndef) (SeedValue VUndef)
              None _ _ st Hq eq_refl I I (plain_rules_key_only _ Hplain))
    as (srcs & res & st' & Ef & E & Hc & Hmem).
  exists srcs, res, st'. split_and!; [by rewrite family_agree| |done|].
  - unfold CrawlerJsHelpers.getAllMemberNames. cbn [truthy]. unfold bind at 1, ret at 1.
    rewrite collectMembersWide_agree; [exact E| |done].
    constructor; [discriminate|constructor].
  - intros s. rewrite Hmem. split.
    + intros [H|(src & k & hit & Hs & Hk & Hr & Hh & Eh)].
      { by apply not_elem_of_nil in H. }
      apply list_elem_of_singleton in Hh. subst hit. unfold plain_hit in Eh.
      destruct (pure_match _ k && negb (String.eqb k "")) eqn:Em; [|done].
      inversion Eh; subst. apply andb_true_iff in Em as [_ Hne].
      split; [|by exists src].
      intros ->. done.
    + intros (Hne & src & Hs & Hk & Hr). right.
      eexists src, s, _. split_and!; [done..|by left|].
      unfold plain_hit, pure_match. simpl. rewrite includes_empty. simpl.
      destruct (String.eqb s "") eqn:Ek; [|done]. by apply String.eqb_eq in Ek.
Qed.

Lemma on_hit_elem k s :
  on_hit k = Some s ↔ s ≠ "" ∧ startsWith k "on" = true ∧ s = slice_from 2 k.
Proof.
  unfold on_hit. destruct (startsWith k "on"); cbn -[slice_from].
  - destruct (String.eqb (slice_from 2 k) "") eqn:E; cbn -[slice_from].
    + apply String.eqb_eq in E. split; [done|]. intros (Hne & _ & ->). done.
    + split.
      * intros H. assert (Hs : s = slice_from 2 k) by congruence.
        clear H. subst s. split_and!; [|done..].
        intros H'. rewrite H' in E. done.
      * by intros (_ & _ & ->).
  - split; [done|]. by intros (_ & ? & _).
Qed.

(** [X12] What [getEventNames] returns when the default source is an
    object whose getters have no effect, and the given names are strings,
    booleans or integers that a number holds exactly: a string is in the result exactly
    when it is one of the 23 built-in names, or one of the given names
    (["loaded"] when the argument is not an array), or what follows ["on"]
    in an enumerable own key of the source that starts with ["on"], can be
    read without an error and is longer than ["on"]. *)
Theorem getEventNames_members events (l : loc) st st0 :
  (∀ vs, events = SeedArray vs → Forall plain_seed vs) →
  CrawlerJs.getDefaultSource st = (Ret (VRef l), st0) →
  quiet_getters (heap st0) →
  ∃ res st',
    CrawlerJsHelpers.getEventNames events st = (Ret res, st')
    ∧ cursor_only st0 st'
    ∧ ∀ s, s ∈ res ↔
           s ∈ CrawlerJsHelpers.event_defaults
           ∨ s ∈ given_events events
           ∨ (s ≠ ""
              ∧ ∃ k, k ∈ keys_or_empty (listed_keys true (heap st0) (VRef l))
                     ∧ readable (heap st0) (world st0) (VRef l) k
                     ∧ startsWith k "on" = true
                     ∧ s = slice_from 2 k).
Proof.
  intros Hev Hsrc Hq.
  set (defaults := SeedArray (map VStr CrawlerJsHelpers.event_defaults)).
  set (extra := match events with
                | SeedArray vs => SeedArray vs
                | SeedValue _ => SeedArray [VStr "loaded"]
                end).
  assert (Hd : seeds_ok defaults) by (repeat constructor).
  assert (He : seeds_ok extra).
  { subst extra. destruct events as [v|vs]; [repeat constructor|].
    apply (plain_seeds_ok (SeedArray vs)). by apply Hev. }
  assert (Hrule : Forall2 key_only [CrawlerJsHelpers.on_rule (W := W)] [on_hit]).
  { constructor; [apply key_only_on_rule|constructor]. }
  destruct (collectMembers_key_only (VRef l) defaults extra _ _ st0 Hq
              ltac:(discriminate) Hd He Hrule) as (st' & E & Hc).
  eexists _, st'. split_and!; [|done|].
  - unfold CrawlerJsHelpers.getEventNames. fold defaults. fold extra.
    rewrite <- E. rewrite <- collectMembers_agree;
      [|constructor; [discriminate|constructor]|discriminate].
    unfold CrawlerJs.collectMembers.
    cbn [CrawlerJs.co_source CrawlerJs.co_defaults CrawlerJs.co_extra
         CrawlerJs.co_matchers].
    unfold bind at 1. rewrite Hsrc. symmetry. unfold bind at 1. reflexivity.
  - intros s. unfold pure_collectMembers. cbn [truthy].
    assert (Hseed : s ∈ seeded defaults extra
                    ↔ s ∈ CrawlerJsHelpers.event_defaults ∨ s ∈ given_events events).
    { unfold seeded. rewrite !seed_into_elem.
      change (map pure_string (seed_values defaults)) with CrawlerJsHelpers.event_defaults.
      assert (Hg : map pure_string (seed_values extra) = given_events events).
      { subst extra. by destruct events as [v|vs]. }
      rewrite Hg. split; [|tauto].
      intros [[H|H]|H]; [|tauto..]. by apply not_elem_of_nil in H. }
    destruct (listed_keys true (heap st0) (VRef l)) as [keys|e] eqn:Ek.
    + cbn [keys_or_empty]. rewrite scan_fold_elem, Hseed. split.
      * intros [[H|H]|(k & hit & Hk & Hr & Hh & Eh)]; [auto..|].
        apply list_elem_of_singleton in Hh. subst hit.
        apply on_hit_elem in Eh as (Hne & Hon & ->).
        right. right. split; [done|]. by exists k.
      * intros [H|[H|(Hne & k & Hk & Hr & Hon & ->)]]; [auto..|].
        right. exists k, on_hit. split_and!; [done|done|by left|].
        by apply on_hit_elem.
    + cbn [keys_or_empty]. rewrite Hseed. split; [tauto|].
      intros [H|[H|(_ & k & Hk & _)]]; [auto..|]. by apply not_elem_of_nil in Hk.
Qed.

End Helpers.

Section EventConstructors.
Context {W : Type}.
Implicit Types (st : State W) (v : jsval) (rs : list string).

Lemma endsWith_nonempty s : endsWith s "Event" = true → s ≠ "".
Proof. by intros H ->. Qed.

(** The predicate of the rule reads [val.name] twice; with quiet getters
    the two reads agree and nothing changes. *)
Lemma names_an_event_run val st :
  quiet_getters (heap st) →
  ∃ r, CrawlerJsHelpers.as_callback (CrawlerJsHelpers.names_an_event val) st
       = (r, world st)
       ∧ ∀ x, r = Ret x → truthy x = true →
              ∃ s, truthy val = true
                   ∧ read_value (heap st) (world st) val "name" = Ret (VStr s)
                   ∧ endsWith s "Event" = true.
Proof.
  intros Hq. unfold CrawlerJsHelpers.as_callback, CrawlerJsHelpers.names_an_event.
  unfold bind at 1, get_state.
  destruct (is_function st val) eqn:Ef.
  2: { eexists. split; [reflexivity|]. intros x H. inversion H; by subst. }
  unfold bind at 1. rewrite get_read by done.
  destruct (read_value (heap st) (world st) val "name") as [n|e] eqn:Er.
  2: { eexists. split; [reflexivity|]. intros x H. inversion H. }
  destruct (String.eqb (typeof st n) "string") eqn:Es.
  2: { eexists. split; [reflexivity|]. intros x H. inversion H; by subst. }
  unfold bind at 1. rewrite get_read, Er by done.
  destruct n as [| |b|z|s|l']; try done.
  2: { simpl in Es. repeat case_match; done. }
  eexists. split; [reflexivity|]. intros x H Ht. inversion H; subst.
  exists s. split_and!; [|done|done].
  destruct val as [| |b|z|y|l]; done.
Qed.

Lemma name_or_key_named key val st s :
  quiet_getters (heap st) →
  truthy val = true → read_value (heap st) (world st) val "name" = Ret (VStr s) → s ≠ "" →
  CrawlerJsHelpers.as_callback (CrawlerJsHelpers.name_or_key key val) st
  = (Ret (VStr s), world st).
Proof.
  intros Hq Hv Hr Hs. unfold CrawlerJsHelpers.as_callback, CrawlerJsHelpers.name_or_key.
  rewrite Hv. unfold bind at 1. rewrite get_read, Hr by done.
  assert (Ht : truthy (VStr s) = true).
  { simpl. destruct (String.eqb s "") eqn:E; [|done]. by apply String.eqb_eq in E. }
  rewrite Ht. by rewrite get_read, Hr.
Qed.

Lemma event_rule_adds_names key value src rs st :
  quiet_getters (heap st) →
  Forall (fun s => endsWith s "Event" = true) rs →
  ∃ rs', CrawlerJs.apply_matcher (W := W) key value src
           CrawlerJsHelpers.event_constructor_rule rs st = (Ret rs', st)
         ∧ Forall (fun s => endsWith s "Event" = true) rs'.
Proof.
  intros Hq Hrs.
  unfold CrawlerJs.apply_matcher, bind at 1.
  unfold CrawlerJs.test_matcher.
  cbn [m_type m_value m_transform CrawlerJsHelpers.event_constructor_rule String.eqb
       Ascii.eqb Bool.eqb].
  unfold try_catch, bind at 1, user.
  destruct (names_an_event_run value st Hq) as (r & -> & Hr).
  rewrite set_world_same.
  destruct r as [x|e]; [|by exists rs].
  unfold ret at 1.
  destruct (truthy x) eqn:Et; [|by exists rs].
  destruct (Hr x eq_refl Et) as (s & Hv & Hn & He).
  unfold bind at 1.
  rewrite (name_or_key_named key value st s Hq Hv Hn (endsWith_nonempty s He)).
  rewrite set_world_same.
  assert (Hb : negb (nullish (VStr s)) && negb (bool_decide (VStr s = VStr "")) = true).
  { simpl. apply negb_true_iff, bool_decide_eq_false_2. intros E. inversion E; subst. done. }
  rewrite Hb. unfold bind, ret. simpl. eexists. split; [reflexivity|].
  unfold set_add. destruct (bool_decide (s ∈ rs)); [done|].
  apply Forall_app. split; [done|]. by constructor.
Qed.

Lemma event_scan_keys src keys rs st :
  quiet_getters (heap st) →
  Forall (fun s => endsWith s "Event" = true) rs →
  ∃ rs', for_each keys
           (CrawlerJs.scan_key (W := W) [CrawlerJsHelpers.event_constructor_rule] src)
           rs st = (Ret rs', st)
         ∧ Forall (fun s => endsWith s "Event" = true) rs'.
Proof.
  intros Hq. revert rs. induction keys as [|k keys IH]; intros rs Hrs; [by exists rs|].
  cbn [for_each]. unfold bind at 1, CrawlerJs.scan_key, bind at 1, try_catch, bind at 1.
  rewrite get_read by done.
  destruct (read_value (heap st) (world st) src k) as [x|e]; unfold ret at 1.
  - unfold CrawlerJs.applyMatchers. cbn [for_each]. unfold bind at 1.
    destruct (event_rule_adds_names k x src rs st Hq Hrs) as (rs1 & -> & H1).
    unfold ret at 1. by apply IH.
  - by apply IH.
Qed.

Lemma alloc_quiet (o : object W) st :
  quiet_getters (heap st) → o_props o = [] →
  quiet_getters (heap (snd (alloc o st))).
Proof.
  intros Hq Ho l o' k g s e c Hl Hin. simpl in Hl.
  apply lookup_insert_Some in Hl as [[_ <-]|[_ Hl]].
  - rewrite Ho in Hin. by apply not_elem_of_nil in Hin.
  - by eapply Hq.
Qed.

Lemma CrawlerJs_getDefaultSource_quiet st :
  quiet_getters (heap st) →
  ∃ src st0, CrawlerJs.getDefaultSource st = (Ret src, st0) ∧ quiet_getters (heap st0).
Proof.
  intros Hq. unfold CrawlerJs.getDefaultSource, bind at 1, get_state. cbv zeta.
  repeat (match goal with |- context [if ?b then _ else _] => destruct b end;
          [by eexists _, _|]).
  unfold bind, ret.
  pose proof (alloc_quiet
                (plain_object (Some (ObjectPrototype (genv st))) []) st Hq eq_refl) as Ha.
  destruct (alloc _ st) as [[l|e] st0] eqn:E; [by eexists _, _|].
  unfold alloc in E. inversion E.
Qed.

(** [X13] Every string that [getEventConstructors] returns ends with
    ["Event"], for every source, in every heap whose getters have no
    effect: what is collected is the name of a function, read again after
    the test. *)
Theorem getEventConstructors_names source st :
  quiet_getters (heap st) →
  ∃ res st',
    CrawlerJsHelpers.getEventConstructors source st = (Ret res, st')
    ∧ Forall (fun s => endsWith s "Event" = true) res.
Proof.
  intros Hq. unfold CrawlerJsHelpers.getEventConstructors, CrawlerJs.collectMembers.
  cbn [CrawlerJs.co_source CrawlerJs.co_defaults CrawlerJs.co_extra CrawlerJs.co_matchers
       Collector.default_seeds CrawlerJs.addAll for_each].
  match goal with
  | |- ∃ res st', bind ?m _ st = _ ∧ _ =>
      assert (Hsrc : ∃ src st0, m st = (Ret src, st0) ∧ quiet_getters (heap st0))
  end.
  { destruct source; first [by apply CrawlerJs_getDefaultSource_quiet|by eexists _, _]. }
  destruct Hsrc as (src & st0 & E0 & Hq0).
  unfold bind at 1. rewrite E0.
  unfold bind at 1, ret at 1. unfold bind at 1, ret at 1.
  destruct (negb (truthy src)); [eexists _, _; split; [reflexivity|constructor]|].
  unfold bind at 1, try_catch, bind at 1, Object_keys. rewrite own_names_listed.
  destruct (listed_keys true (heap st0) src) as [keys|e];
    [|eexists _, _; split; [reflexivity|constructor]].
  unfold ret at 1.
  destruct (event_scan_keys src keys [] st0 Hq0 ltac:(constructor)) as (res & E & Hres).
  by exists res, st0.
Qed.

End EventConstructors.

(** * The wrapper of [scope-logger.js] *)

Section WrapperCalls.
Context {W : Type}.
Implicit Types (st : State W).

Lemma wrapper_body_returns label key awaitPromises (logger : sink W)
    (m : M W jsval) this args st v st1 :
  m st = (Ret v, st1) →
  awaitPromises = false ∨ ScopeLogger.is_promise st1 v = false →
  ScopeLogger.wrapper_body label key awaitPromises logger m this args st
  = (Ret v,
     set_world (snd (logger {| ob_label := label; ob_key := key; ob_args := args;
                               ob_result := Some v; ob_error := Some VUndef;
                               ob_thisArg := this; ob_phase := PhCall |} (world st1)))
       (set_trace (trace st1 ++
                   [{| ob_label := label; ob_key := key; ob_args := args;
                       ob_result := Some v; ob_error := Some VUndef;
                       ob_thisArg := this; ob_phase := PhCall |}]) st1)).
Proof.
  intros Hm Hc. unfold ScopeLogger.wrapper_body, bind at 1, try_catch. rewrite Hm.
  unfold bind at 1, get_state.
  assert (Hb : awaitPromises && truthy v && ScopeLogger.is_promise st1 v = false).
  { destruct Hc as [-> | ->]; [done|]. by rewrite andb_false_r. }
  destruct v as [| |b|n|x|l]; try (unfold bind; rewrite runLogger_eq; reflexivity).
  rewrite Hb. unfold bind; rewrite runLogger_eq; reflexivity.
Qed.

(** [X14] A wrapped call that returns: when the original function returns
    [v], and [awaitPromises] is off or [v] is falsy, the wrapper returns [v]
    itself, and exactly one observation goes to the logger, of phase [call]
    with the result [v]. The heap and the job queue are as the function left
    them; a failure of the logger changes nothing of this. *)
Theorem wrapper_returns_result_unchanged
    label key awaitPromises (logger : sink W) (f : fnbody W) this args st v st1 :
  ScopeLogger.call_fn f this args st = (Ret v, st1) →
  awaitPromises = false ∨ truthy v = false →
  let info := {| ob_label := label; ob_key := key; ob_args := args;
                 ob_result := Some v; ob_error := Some VUndef;
                 ob_thisArg := this; ob_phase := PhCall |} in
  ∃ st2,
    ScopeLogger.call_fn (Wrapper label key awaitPromises logger (Some f)) this args st
    = (Ret v, st2)
    ∧ trace st2 = trace st1 ++ [info]
    ∧ heap st2 = heap st1 ∧ jobs st2 = jobs st1
    ∧ world st2 = snd (logger info (world st1)).
Proof.
  intros Hf Hc info. eexists. split.
  - cbn [ScopeLogger.call_fn]. apply wrapper_body_returns; [done|].
    destruct Hc as [Hc|Hc]; [by left|right]. by destruct v.
  - done.
Qed.

(** Two jobs carry a rejection through [then] and [catch]: the first one
    rejects the promise of [then] without a word to the logger, the second
    one logs the rejection and rejects the promise of [catch]. *)
Lemma rejection_chain (c : logctx W) d1 d2 e fuel st od1 od2 :
  jobs st = [(ThenResolved c d1, Rejected e)] →
  heap st !! d1 = Some od1 → o_promise od1 = Some (Pending, [CatchRejected c d2]) →
  heap st !! d2 = Some od2 → o_promise od2 = Some (Pending, []) →
  d1 ≠ d2 →
  let st3 := snd (ScopeLogger.run_jobs (2 + fuel) st) in
  trace st3 = trace st ++
              [{| ob_label := lc_label c; ob_key := lc_key c; ob_args := lc_args c;
                  ob_result := None; ob_error := Some e;
                  ob_thisArg := lc_this c; ob_phase := PhRejected |}]
  ∧ promise_state st3 d2 = Some (Rejected e, [])
  ∧ jobs st3 = [].
Proof.
  intros Hj H1 Ho1 H2 Ho2 Hne st3.
  eassert (E : ScopeLogger.run_jobs (2 + fuel) st = (Ret tt, _)).
  { cbn [plus]. rewrite (run_jobs_step _ _ _ _ Hj).
    unfold bind at 1. cbn [ScopeLogger.run_job].
    erewrite (settle_spec d1 (Rejected e) _ od1 [CatchRejected c d2]); [|done..].
    erewrite run_jobs_step by (simpl; reflexivity).
    unfold bind at 1. cbn [ScopeLogger.run_job]. unfold bind at 1. rewrite runLogger_eq.
    erewrite (settle_spec d2 (Rejected e) _ od2 []); [|simpl; by rewrite lookup_insert_ne|done].
    rewrite run_jobs_empty by done. reflexivity. }
  subst st3. rewrite E. simpl. split; [done|]. split; [|done].
  unfold promise_state. simpl. by rewrite lookup_insert_eq.
Qed.

(** [X15] With [awaitPromises], a promise that is rejected is logged as
    such. The call is taken alone: no promise job is pending when the
    original function returns its promise [p], and [p] is then rejected with
    [e] already, or pending with no reaction of another party. Once [p] is
    rejected with [e] and the two jobs of the chain have run, the logger has
    received one more observation, of phase [rejected] with the error [e]
    and no result, and the promise that the wrapper returned is rejected
    with [e]. No [resolved] observation is made. *)
Theorem wrapper_logs_rejection
    label key (logger : sink W) (f : fnbody W) this args st st1 p o s rs :
  ScopeLogger.call_fn f this args st = (Ret (VRef p), st1) →
  heap st1 !! p = Some o →
  o_promise o = Some (s, rs) →
  let call_info := {| ob_label := label; ob_key := key; ob_args := args;
                      ob_result := Some (VRef p); ob_error := None;
                      ob_thisArg := this; ob_phase := PhCall |} in
  ∃ d st2,
    ScopeLogger.call_fn (Wrapper label key true logger (Some f)) this args st
    = (Ret (VRef d), st2)
    ∧ heap st1 !! d = None
    ∧ d ≠ p
    ∧ trace st2 = trace st1 ++ [call_info]
    ∧ ∀ e fuel,
        jobs st1 = [] →
        s = Rejected e ∨ (s = Pending ∧ rs = []) →
        let st3 := snd ((ScopeLogger.settle p (Rejected e);;;
                         ScopeLogger.run_jobs (2 + fuel)) st2) in
        trace st3 = trace st2 ++
                    [{| ob_label := label; ob_key := key; ob_args := args;
                        ob_result := None; ob_error := Some e;
                        ob_thisArg := this; ob_phase := PhRejected |}]
        ∧ promise_state st3 d = Some (Rejected e, [])
        ∧ jobs st3 = [].
Proof.
  intros Hf Hp Ho call_info.
  cbn [ScopeLogger.call_fn]. unfold ScopeLogger.wrapper_body, bind at 1, try_catch. rewrite Hf.
  unfold bind at 1, get_state.
  assert (Hprom : ScopeLogger.is_promise st1 (VRef p) = true).
  { simpl. rewrite Hp, Ho. by apply bool_decide_eq_true_2. }
  rewrite Hprom. cbn [andb truthy]. unfold bind at 1. rewrite runLogger_eq. fold call_info.
  set (sta := set_world _ _).
  assert (Hpa : heap sta !! p = Some o) by done.
  unfold bind at 1. rewrite (promise_react_spec p _ sta o s rs Hpa Ho).
  set (d1 := fresh (dom (heap sta))).
  set (c := {| lc_label := label; lc_key := key; lc_args := args;
               lc_this := this; lc_logger := logger |}).
  set (od1 := ScopeLogger.promise_object (genv sta) Pending []).
  set (stb := match s with Pending => _ | _ => _ end).
  assert (Hd1p : d1 ≠ p) by (by apply (fresh_not_in sta p o)).
  assert (Hb1 : heap stb !! d1 = Some od1).
  { subst stb. destruct s; simpl; rewrite ?(lookup_insert_ne _ p d1) by done;
      by rewrite lookup_insert_eq. }
  assert (Hbp : ∃ o', heap stb !! p = Some o'
                      ∧ o_promise o' = Some (s, match s with
                                                | Pending => rs ++ [ThenResolved c d1]
                                                | _ => rs
                                                end)).
  { subst stb. destruct s; simpl.
    - eexists. rewrite lookup_insert_eq. split; [done|]. done.
    - exists o. by rewrite lookup_insert_ne.
    - exists o. by rewrite lookup_insert_ne. }
  destruct Hbp as (o' & Hbp & Ho').
  assert (Hsub : ∀ l, is_Some (heap st1 !! l) → is_Some (heap stb !! l)).
  { intros l Hl. subst stb. destruct s; simpl;
      rewrite ?lookup_insert_is_Some'; auto. }
  unfold bind at 1.
  rewrite (promise_react_spec d1 _ stb od1 Pending [] Hb1 eq_refl).
  set (d2 := fresh (dom (heap stb))).
  set (od2 := ScopeLogger.promise_object (genv stb) Pending []).
  set (stc := set_heap _ stb).
  assert (Hd2p : d2 ≠ p) by (by apply (fresh_not_in stb p o')).
  assert (Hd21 : d2 ≠ d1) by (by apply (fresh_not_in stb d1 od1)).
  exists d2, stc. split; [done|].
  split.
  { destruct (heap st1 !! d2) eqn:E; [|done].
    destruct (Hsub d2) as [x Hx]; [by eexists|].
    pose proof (fresh_lookup stb) as Hfr. fold d2 in Hfr. congruence. }
  split; [done|].
  split.
  { subst stc stb sta. by destruct s. }
  intros e fuel Hjobs Hs.
  set (st3 := snd _).
  assert (Hc1 : heap stc !! d1 = Some (ScopeLogger.set_promise Pending ([] ++ [CatchRejected c d2]) od1)).
  { subst stc. simpl. by rewrite lookup_insert_eq. }
  assert (Hc2 : heap stc !! d2 = Some od2).
  { subst stc. simpl. rewrite lookup_insert_ne by done. by rewrite lookup_insert_eq. }
  assert (Hcp : heap stc !! p = Some o').
  { subst stc. simpl. by rewrite !lookup_insert_ne. }
  destruct Hs as [-> | [-> ->]].
  - assert (E3 : st3 = snd (ScopeLogger.run_jobs (2 + fuel) stc)).
    { subst st3. unfold bind at 1.
      by rewrite (settle_settled p _ stc o' (Rejected e) rs). }
    rewrite E3.
    apply (rejection_chain c d1 d2 e fuel stc
             (ScopeLogger.set_promise Pending ([] ++ [CatchRejected c d2]) od1) od2); try done.
    subst stc stb sta. simpl. by rewrite Hjobs.
  - set (std := set_jobs (jobs stc ++ map (fun r => (r, Rejected e)) ([] ++ [ThenResolved c d1]))
                  (set_heap (<[p := ScopeLogger.set_promise (Rejected e) [] o']> (heap stc)) stc)).
    assert (E3 : st3 = snd (ScopeLogger.run_jobs (2 + fuel) std)).
    { subst st3. unfold bind at 1.
      by rewrite (settle_spec p (Rejected e) stc o' ([] ++ [ThenResolved c d1])). }
    rewrite E3.
    destruct (rejection_chain c d1 d2 e fuel std
                (ScopeLogger.set_promise Pending ([] ++ [CatchRejected c d2]) od1) od2)
      as (Ht & Hps & Hj); try done.
    + subst std stc stb sta. simpl. by rewrite Hjobs.
    + subst std. simpl. by rewrite lookup_insert_ne.
    + subst std. simpl. by rewrite lookup_insert_ne.
Qed.

End WrapperCalls.

Section Installation.
Context {W : Type}.
Implicit Types (st : State W).

Lemma find_prop_own (h : gmap loc (object W)) l k o p :
  h !! l = Some o → assoc k (o_props o) = Some p → find_prop h l k = Some p.
Proof.
  intros Hl Hk. unfold find_prop. destruct (size h) eqn:E.
  - apply map_size_empty_inv in E. subst h. by rewrite lookup_empty in Hl.
  - simpl. by rewrite Hl, Hk.
Qed.

(** Reading a data property of the object itself gives its value and
    changes nothing. *)
Lemma get_data (l : loc) k o x w e c st :
  heap st !! l = Some o → assoc k (o_props o) = Some (Data x w e c) →
  get (VRef l) k st = (Ret x, st).
Proof.
  intros Hl Hk. unfold get, bind, get_state.
  by rewrite (find_prop_own _ _ _ _ _ Hl Hk).
Qed.

Lemma assoc_assoc_set {A} k (a : A) ps : assoc k (assoc_set k a ps) = Some a.
Proof.
  induction ps as [|[k' a'] ps IH]; simpl.
  - by rewrite String.eqb_refl.
  - destruct (String.eqb k k') eqn:E; simpl; [by rewrite String.eqb_refl|by rewrite E].
Qed.

Lemma new_function_spec (b : fnbody W) st :
  let f := fresh (dom (heap st)) in
  let fo := {| o_proto := Some (FunctionPrototype (genv st)); o_props := [];
               o_call := Some b; o_promise := None; o_extensible := true;
               o_ownKeys_throws := None; o_toString := Ret "function () { [code] }" |} in
  let h1 := <[f := fo]> (heap st) in
  let p := fresh (dom h1) in
  ScopeLogger.new_function b st
  = (Ret f,
     set_heap (<[f := set_props [("length", Data (VNum 0) false false true);
                                 ("name", Data (VStr "") false false true);
                                 ("prototype", Data (VRef p) true false false)] fo]>
                 (<[p := plain_object (Some (ObjectPrototype (genv st)))
                           [("constructor", Data (VRef f) true false true)]]> h1)) st).
Proof.
  intros f fo h1 p.
  assert (Hfp : p ≠ f).
  { intros E. apply (is_fresh (dom h1)). fold p. rewrite E.
    apply elem_of_dom. subst h1. rewrite lookup_insert_eq. by eexists. }
  unfold ScopeLogger.new_function, bind, get_state, alloc, modify, ret. simpl.
  fold f. fold fo. fold h1. fold p. rewrite lookup_insert_ne by done.
  subst h1. by rewrite lookup_insert_eq.
Qed.

Lemma wrapFunction_installs (l fl : loc) (o : ScopeLogger.LogOptions W) key value src
    e c st ob :
  lo_wrapTarget_root o →
  is_function st value = true →
  heap st !! l = Some ob →
  assoc key (o_props ob) = Some (Data (VRef fl) true e c) →
  key ∉ default ∅ (wrappedTargets st !! l) →
  ∃ f st',
    ScopeLogger.wrapFunction (VRef l) o key value src st = (Ret tt, st')
    ∧ heap st !! f = None
    ∧ get (VRef l) key st' = (Ret (VRef f), st')
    ∧ ScopeLogger.callee st' (VRef f)
      = Some (Wrapper (ScopeLogger.lo_label o) key (ScopeLogger.lo_awaitPromises o)
                (ScopeLogger.lo_logger o) (ScopeLogger.callee st (VRef fl)))
    ∧ key ∈ default ∅ (wrappedTargets st' !! l)
    ∧ world st' = world st ∧ trace st' = trace st ∧ jobs st' = jobs st.
Proof.
  intros [Hw1 Hw2] Hfn Hl Hk Hm.
  apply String.eqb_neq in Hw1, Hw2.
  unfold ScopeLogger.wrapFunction. unfold bind at 1, get_state. rewrite Hfn. cbn [negb].
  unfold bind at 1, ScopeLogger.resolveTarget. rewrite Hw1, Hw2. unfold ret at 1.
  cbn [truthy negb]. unfold bind at 1, ScopeLogger.markWrapped. cbn [truthy negb].
  unfold bind at 1, get_state. rewrite bool_decide_eq_false_2 by done.
  unfold bind at 1, modify, ret at 1.
  set (st1 := set_wrappedTargets _ st).
  unfold bind at 1, try_catch, bind at 1, getOwnPropertyDescriptor, bind at 1, get_state.
  unfold ret at 1, own_prop. change (heap st1) with (heap st). rewrite Hl, Hk.
  unfold ret at 1. unfold bind at 1.
  rewrite (get_data l key ob (VRef fl) true e c st1 Hl Hk).
  unfold bind at 1, get_state.
  change (ScopeLogger.callee st1 (VRef fl)) with (ScopeLogger.callee st (VRef fl)).
  set (b := Wrapper _ _ _ _ _).
  unfold try_catch, bind at 1. rewrite new_function_spec.
  set (f := fresh (dom (heap st1))).
  set (h1 := <[f := _]> (heap st1)).
  set (p := fresh (dom h1)).
  set (st2 := set_heap _ st1).
  assert (Hlf : f ≠ l) by (by apply (fresh_not_in st1 l ob)).
  assert (Hfp : p ≠ f).
  { intros E. apply (is_fresh (dom h1)). fold p. rewrite E.
    apply elem_of_dom. subst h1. rewrite lookup_insert_eq. by eexists. }
  assert (Hlp : p ≠ l).
  { intros E. apply (is_fresh (dom h1)). fold p. rewrite E.
    apply elem_of_dom. subst h1. rewrite lookup_insert_ne by done. by exists ob. }
  assert (Hl2 : heap st2 !! l = Some ob).
  { subst st2 h1. simpl. by rewrite !lookup_insert_ne. }
  unfold assign, bind at 1, get_state. rewrite Hl2, Hk.
  unfold define_own, modify. rewrite Hl2.
  exists f. eexists. split; [reflexivity|].
  split; [apply (fresh_lookup st1)|].
  split.
  { eapply get_data; [apply lookup_insert_eq|].
    cbn [o_props set_props]. apply assoc_assoc_set. }
  split.
  { unfold ScopeLogger.callee. cbn [heap set_heap].
    rewrite lookup_insert_ne by done. subst st2. cbn [heap set_heap].
    rewrite lookup_insert_eq. reflexivity. }
  split.
  { cbn. rewrite lookup_insert_eq. cbn. apply elem_of_union. left.
    by apply elem_of_singleton. }
  done.
Qed.


(** [X16] Installing a wrapper on a writable member: when the member [key]
    of the object holds a function and the pair is not yet marked,
    [wrapFunction] with the default [wrapTarget] stores a new function
    object under [key], marks the pair, and leaves the observed program, the
    trace and the job queue alone. Calling the member afterwards is calling
    the wrapper around the function that the object held under [key]. *)
Theorem wrapFunction_installs_wrapper (l fl : loc) (o : ScopeLogger.LogOptions W)
    key value src e c st ob :
  lo_wrapTarget_root o →
  is_function st value = true →
  heap st !! l = Some ob →
  assoc key (o_props ob) = Some (Data (VRef fl) true e c) →
  key ∉ default ∅ (wrappedTargets st !! l) →
  ∃ f st',
    ScopeLogger.wrapFunction (VRef l) o key value src st = (Ret tt, st')
    ∧ heap st !! f = None
    ∧ get (VRef l) key st' = (Ret (VRef f), st')
    ∧ key ∈ default ∅ (wrappedTargets st' !! l)
    ∧ world st' = world st ∧ trace st' = trace st ∧ jobs st' = jobs st
    ∧ ∀ args,
        ScopeLogger.invoke (VRef l) key args st'
        = ScopeLogger.call_fn
            (Wrapper (ScopeLogger.lo_label o) key (ScopeLogger.lo_awaitPromises o)
               (ScopeLogger.lo_logger o) (ScopeLogger.callee st (VRef fl)))
            (VRef l) args st'.
Proof.
  intros Hw Hfn Hl Hk Hm.
  destruct (wrapFunction_installs l fl o key value src e c st ob Hw Hfn Hl Hk Hm)
    as (f & st' & E & Hf & Hg & Hc & Hmark & Hrest).
  exists f, st'. split_and!; [done..|apply Hrest|apply Hrest|apply Hrest|].
  intros args. unfold ScopeLogger.invoke, bind at 1. rewrite Hg.
  unfold bind at 1, get_state. by rewrite Hc.
Qed.

End Installation.

Section SimpleWrapper.
Context {W : Type}.
Implicit Types (st : State W).

(** [X17] The wrapper of the transform based logger, for every logger and
    every original function: the logger is called once, after the function,
    with its result or its error, and a failure of the logger is ignored.
    Then the result is returned, or the error is thrown again if it is
    truthy; a falsy error ([undefined], [null], [0], [""], [false]) is lost,
    and the call returns [undefined]. *)
Theorem SimpleLogger_wrapper_outcome label key
    (logger : call_record → W → outcome jsval * W) (m : M W jsval) this args st r st1 :
  m st = (r, st1) →
  SimpleLogger.wrapper label key logger m this args st
  = (match r with
     | Ret v => Ret v
     | Throw e => if truthy e then Throw e else Ret VUndef
     end,
     set_world
       (snd (logger {| cr_label := label; cr_key := key; cr_args := args;
                       cr_result := match r with Ret v => v | Throw _ => VUndef end;
                       cr_error := match r with Ret _ => VUndef | Throw e => e end;
                       cr_thisArg := this |} (world st1))) st1).
Proof.
  intros Hm. unfold SimpleLogger.wrapper, bind at 1, try_catch at 1, bind at 1.
  rewrite Hm. destruct r as [v|e].
  - unfold ret at 1. unfold bind at 1, try_catch, bind at 1, user.
    destruct (logger _ (world st1)) as [[x|err] w]; reflexivity.
  - unfold ret at 1. unfold bind at 1, try_catch, bind at 1, user.
    destruct (logger _ (world st1)) as [[x|err] w]; simpl; by destruct (truthy e).
Qed.

End SimpleWrapper.

Section Instrumentation.
Context {W : Type}.
Implicit Types (st : State W).


End Instrumentation.

Section PackStore.
Context {W : Type}.
Implicit Types (arrays : gmap loc (list (Matcher W))).

(** [X19] [getMatcherPack] never writes to an array that exists: for every
    name (a pack, a member of [Object.prototype], anything else) and every
    store, each array of the store has the same entries afterwards, and the
    array that is returned, when one is, was not in the store before. *)
Theorem getMatcherPack_keeps_arrays name arrays :
  (∀ l xs, arrays !! l = Some xs → snd (Packs.getMatcherPack name arrays) !! l = Some xs)
  ∧ on_return (fst (Packs.getMatcherPack name arrays)) (fun l => arrays !! l = None).
Proof.
  unfold Packs.getMatcherPack.
  destruct (Packs.lookup_pack name) as [a| |].
  - destruct (new_array_fresh (default [] (arrays !! a)) arrays) as (l & -> & Hl).
    split; [|done]. intros l' xs H. simpl. rewrite lookup_insert_ne; [done|].
    intros ->. congruence.
  - split; [|done]. by intros l xs H.
  - destruct (new_array_fresh [] arrays) as (l & -> & Hl).
    split; [|done]. intros l' xs H. simpl. rewrite lookup_insert_ne; [done|].
    intros ->. congruence.
Qed.

End PackStore.

Section StatelessPatterns.
Context {W : Type}.
Implicit Types (st : State W) (v : jsval) (rs : list string) (m : Matcher W).






End StatelessPatterns.

(** * Instances *)

Lemma Collector_collectMembers_seeds_only_witness :
  fst (Collector.collectMembers
         {| Collector.co_source := VRef 10; Collector.co_defaults := SeedArray [VStr "a"];
            Collector.co_extra := SeedValue VUndef; Collector.co_matchers := [];
            Collector.co_onMatch := None |} one_member)
  = Ret ["a"].
Proof.
  apply (Collector_collectMembers_seeds_only (W := unit) 10 (VRef 10)
           (SeedArray [VStr "a"]) (SeedValue VUndef) [] None one_member).
  - apply data_only_quiet. vm_compute. reflexivity.
  - repeat constructor.
  - exact I.
  - right. right. split; reflexivity.
Defined.

Lemma family_shape_witness :
  ∃ srcs,
    Collector.family (VRef 10) [] shared_prototype = (Ret srcs, shared_prototype)
    ∧ head srcs = Some (VRef 10)
    ∧ NoDup srcs
    ∧ Forall is_reference srcs.
Proof.
  apply (family_shape (W := list visit) 10 [] shared_prototype).
  apply data_only_quiet. vm_compute. reflexivity.
Defined.

Lemma getAllMemberNames_members_witness :
  ∃ res st',
    CrawlerJsHelpers.getAllMemberNames (VRef 10) one_member = (Ret res, st')
    ∧ "xa" ∈ res.
Proof.
  destruct (getAllMemberNames_members (W := unit) 10 one_member)
    as (srcs & res & st' & Ef & E & _ & Hmem).
  - apply data_only_quiet. vm_compute. reflexivity.
  - exists res, st'. split; [exact E|]. apply Hmem. split; [discriminate|].
    exists (VRef 10). split_and!.
    + eapply family_has_root. rewrite <- family_agree. exact Ef.
    + vm_compute. left.
    + exists (VNum 1). reflexivity.
Defined.

Lemma getEventConstructors_names_witness :
  ∃ res st',
    CrawlerJsHelpers.getEventConstructors (VRef 10) event_host = (Ret res, st')
    ∧ Forall (fun s => endsWith s "Event" = true) res.
Proof.
  apply (getEventConstructors_names (W := unit) (VRef 10) event_host).
  apply data_only_quiet. vm_compute. reflexivity.
Defined.

(** A getter with an effect is outside: the name is read four times, and a
    name that changes after the test is collected as it is then. *)
Lemma changing_name_escapes :
  fst (CrawlerJsHelpers.getEventConstructors (VRef 10) renamed_host) = Ret ["Other"].
Proof. vm_compute. reflexivity. Qed.

(** On [event_host] the result is the name of the function, not its key. *)
Lemma getEventConstructors_event_host :
  fst (CrawlerJsHelpers.getEventConstructors (VRef 10) event_host) = Ret ["MouseEvent"].
Proof. vm_compute. reflexivity. Qed.

Lemma getEventNames_members_witness :
  ∃ res st',
    CrawlerJsHelpers.getEventNames (SeedArray [VStr "tap"]) two_globals = (Ret res, st')
    ∧ "tap" ∈ res.
Proof.
  destruct (getEventNames_members (W := unit) (SeedArray [VStr "tap"]) 11
              two_globals two_globals) as (res & st' & E & _ & Hmem).
  - intros vs H. inversion H. repeat constructor.
  - reflexivity.
  - apply data_only_quiet. vm_compute. reflexivity.
  - exists res, st'. split; [exact E|]. apply Hmem. right. left. vm_compute. left.
Defined.

Lemma wrapper_returns_result_unchanged_witness :
  ∃ st2,
    ScopeLogger.call_fn (Wrapper "[LOG]" "f" false quiet (Some returns_one)) (VRef 10) []
      (state_with_f returns_one true true) = (Ret (VNum 1), st2)
    ∧ trace st2 = [call_observation (Some (VNum 1)) (Some VUndef)].
Proof.
  destruct (wrapper_returns_result_unchanged "[LOG]" "f" false quiet returns_one
              (VRef 10) [] (state_with_f returns_one true true) (VNum 1)
              (state_with_f returns_one true true) eq_refl (or_introl eq_refl))
    as (st2 & E & Ht & _).
  exists st2. split; [exact E|exact Ht].
Defined.

Lemma wrapper_logs_rejection_witness :
  ∃ d st2,
    ScopeLogger.call_fn (Wrapper "[LOG]" "f" true quiet (Some returns_promise)) (VRef 10) []
      (state_with_rejected returns_promise) = (Ret (VRef d), st2)
    ∧ promise_state
        (snd ((ScopeLogger.settle 12 (Rejected (VStr "E"));;;
               ScopeLogger.run_jobs 2) st2)) d
      = Some (Rejected (VStr "E"), []).
Proof.
  destruct (wrapper_logs_rejection "[LOG]" "f" quiet returns_promise (VRef 10) []
              (state_with_rejected returns_promise)
              (state_with_rejected returns_promise)
              12 promise_rejected (Rejected (VStr "E")) [] eq_refl eq_refl eq_refl)
    as (d & st2 & E & _ & _ & _ & Hlater).
  exists d, st2. split; [exact E|].
  destruct (Hlater (VStr "E") 0 eq_refl (or_introl eq_refl)) as (_ & Hp & _).
  exact Hp.
Defined.

Lemma wrapFunction_installs_wrapper_witness :
  ∃ f st',
    ScopeLogger.wrapFunction (VRef 10) (ScopeLogger.default_options quiet) "f"
      (VRef 11) (VRef 10) (state_with_f returns_one true true) = (Ret tt, st')
    ∧ get (VRef 10) "f" st' = (Ret (VRef f), st').
Proof.
  destruct (wrapFunction_installs_wrapper (W := unit) 10 11
              (ScopeLogger.default_options quiet) "f" (VRef 11) (VRef 10) true true
              (state_with_f returns_one true true)
              (plain_object None [("f", Data (VRef 11) true true true)]))
    as (f & st' & E & _ & Hg & _).
  - split; discriminate.
  - reflexivity.
  - reflexivity.
  - reflexivity.
  - apply not_elem_of_empty.
  - exists f, st'. split; [exact E|exact Hg].
Defined.

Lemma SimpleLogger_wrapper_outcome_witness :
  SimpleLogger.wrapper "[LOG]" "f" (fun _ w => (Ret VUndef, w)) (throw VUndef)
    (VRef 10) [] one_member
  = (Ret VUndef, one_member).
Proof.
  apply (SimpleLogger_wrapper_outcome (W := unit) "[LOG]" "f"
           (fun _ w => (Ret VUndef, w)) (throw VUndef) (VRef 10) [] one_member
           (Throw VUndef) one_member).
  reflexivity.
Defined.



Section MarkedOnce.
Context {W : Type}.
Implicit Types (st : State W).

Lemma keeps_marks_ret {A} (a : A) : keeps_marks (ret a : M W A).
Proof. intros st r st' H. unfold ret in H. by inversion H. Qed.

Lemma keeps_marks_throw {A} e : keeps_marks (throw e : M W A).
Proof. intros st r st' H. unfold throw in H. by inversion H. Qed.

Lemma keeps_marks_bind {A B} (m : M W A) (k : A → M W B) :
  keeps_marks m → (∀ a, keeps_marks (k a)) → keeps_marks (bind m k).
Proof.
  intros Hm Hk st r st' H. unfold bind in H.
  destruct (m st) as [[a|e] st1] eqn:E.
  - rewrite (Hk a _ _ _ H). by eapply Hm.
  - inversion H; subst. by eapply Hm.
Qed.

Lemma keeps_marks_try_catch {A} (m : M W A) (h : jsval → M W A) :
  keeps_marks m → (∀ e, keeps_marks (h e)) → keeps_marks (try_catch m h).
Proof.
  intros Hm Hh st r st' H. unfold try_catch in H.
  destruct (m st) as [[a|e] st1] eqn:E.
  - inversion H; subst. by eapply Hm.
  - rewrite (Hh e _ _ _ H). by eapply Hm.
Qed.

Lemma keeps_marks_get_state : keeps_marks (get_state : M W _).
Proof. intros st r st' H. unfold get_state in H. by inversion H. Qed.

Lemma keeps_marks_of_outcome {A} (r : outcome A) : keeps_marks (of_outcome r : M W A).
Proof. destruct r; [apply keeps_marks_ret|apply keeps_marks_throw]. Qed.

Lemma keeps_marks_user {A} (f : State W → outcome A * W) : keeps_marks (user f).
Proof.
  intros st r st' H. unfold user in H. destruct (f st) as [x w]. by inversion H.
Qed.

Lemma keeps_marks_get v k : keeps_marks (get v k : M W _).
Proof.
  unfold get. destruct v as [| |b|n|x|l];
    first [apply keeps_marks_throw|apply keeps_marks_ret|idtac].
  apply keeps_marks_bind; [apply keeps_marks_get_state|]. intros st.
  repeat case_match; first [apply keeps_marks_ret|apply keeps_marks_user].
Qed.

Lemma keeps_marks_define_own l k p : keeps_marks (define_own l k p : M W _).
Proof.
  intros st r st' H. unfold define_own, modify in H. inversion H.
  by destruct (heap st !! l).
Qed.

Lemma keeps_marks_assign v k x : keeps_marks (assign v k x : M W _).
Proof.
  unfold assign. destruct v as [| |b|n|s|l]; try apply keeps_marks_throw.
  apply keeps_marks_bind; [apply keeps_marks_get_state|]. intros st.
  repeat case_match;
    first [ apply keeps_marks_throw | apply keeps_marks_define_own
          | apply keeps_marks_bind;
              [apply keeps_marks_user|intros; apply keeps_marks_ret] ].
Qed.

Lemma keeps_marks_new_function (b : fnbody W) : keeps_marks (ScopeLogger.new_function b).
Proof. intros st r st' H. rewrite new_function_spec in H. by inversion H. Qed.

Lemma keeps_marks_descriptor v k : keeps_marks (getOwnPropertyDescriptor v k : M W _).
Proof.
  unfold getOwnPropertyDescriptor.
  destruct v as [| |b|n|s|l];
    first [apply keeps_marks_throw|apply keeps_marks_ret|idtac].
  apply keeps_marks_bind; [apply keeps_marks_get_state|]. intros st. apply keeps_marks_ret.
Qed.

(** A pair that is marked is left alone. *)
Lemma wrapFunction_marked (l : loc) (o : ScopeLogger.LogOptions W) key value src st :
  lo_wrapTarget_root o →
  key ∈ default ∅ (wrappedTargets st !! l) →
  ScopeLogger.wrapFunction (VRef l) o key value src st = (Ret tt, st).
Proof.
  intros [Hw1 Hw2] Hm. apply String.eqb_neq in Hw1, Hw2.
  unfold ScopeLogger.wrapFunction. unfold bind at 1, get_state.
  destruct (is_function st value); cbn [negb]; [|done].
  unfold bind at 1, ScopeLogger.resolveTarget. rewrite Hw1, Hw2. unfold ret at 1.
  cbn [truthy negb]. unfold bind at 1, ScopeLogger.markWrapped. cbn [truthy negb].
  unfold bind at 1, get_state. by rewrite bool_decide_eq_true_2.
Qed.

(** A call for a function marks the pair, when it returns. *)
Lemma wrapFunction_marks (l : loc) (o : ScopeLogger.LogOptions W) key value src st st' :
  lo_wrapTarget_root o →
  is_function st value = true →
  ScopeLogger.wrapFunction (VRef l) o key value src st = (Ret tt, st') →
  key ∈ default ∅ (wrappedTargets st' !! l).
Proof.
  intros [Hw1 Hw2] Hfn H. apply String.eqb_neq in Hw1, Hw2.
  unfold ScopeLogger.wrapFunction in H. unfold bind at 1, get_state in H.
  rewrite Hfn in H. cbn [negb] in H.
  unfold bind at 1, ScopeLogger.resolveTarget in H. rewrite Hw1, Hw2 in H.
  unfold ret at 1 in H. cbn [truthy negb] in H.
  unfold bind at 1, ScopeLogger.markWrapped in H. cbn [truthy negb] in H.
  unfold bind at 1, get_state in H.
  case_bool_decide as Hm.
  - unfold ret at 1 in H. cbn [negb] in H. unfold ret in H. inversion H; by subst.
  - unfold bind at 1, modify, ret at 1 in H.
    match type of H with
    | ?m ?s = _ => assert (Hk : keeps_marks m)
    end.
    { apply keeps_marks_bind.
      { apply keeps_marks_try_catch; [|intros; apply keeps_marks_ret].
        apply keeps_marks_bind; [apply keeps_marks_descriptor|].
        intros d. apply keeps_marks_ret. }
      intros skip. destruct skip; [apply keeps_marks_ret|].
      apply keeps_marks_bind; [apply keeps_marks_get|]. intros f.
      apply keeps_marks_bind; [apply keeps_marks_get_state|]. intros st0.
      apply keeps_marks_try_catch; [|intros; apply keeps_marks_ret].
      apply keeps_marks_bind; [apply keeps_marks_new_function|]. intros f'.
      apply keeps_marks_assign. }
    rewrite (Hk _ _ _ H). cbn. rewrite lookup_insert_eq. cbn.
    apply elem_of_union. left. by apply elem_of_singleton.
Qed.

(** [X21] Within one call of [addLoggingToFunctions], a member is wrapped
    once: after [wrapFunction] has handled a function under [key] on the
    object of the caller, a later [wrapFunction] for the same key (the same
    name met on another member of the family, with whatever value) changes
    nothing. *)
Theorem wrapFunction_wraps_once (l : loc) (o : ScopeLogger.LogOptions W)
    key value src value' src' st :
  lo_wrapTarget_root o →
  is_function st value = true →
  (ScopeLogger.wrapFunction (VRef l) o key value src;;;
   ScopeLogger.wrapFunction (VRef l) o key value' src') st
  = ScopeLogger.wrapFunction (VRef l) o key value src st.
Proof.
  intros Hw Hfn. unfold bind at 1.
  destruct (ScopeLogger.wrapFunction (VRef l) o key value src st) as [[[]|e] st2] eqn:E;
    [|done].
  apply wrapFunction_marked; [done|]. by eapply wrapFunction_marks.
Qed.

End MarkedOnce.

Lemma wrapFunction_wraps_once_witness :
  (ScopeLogger.wrapFunction (VRef 10) (ScopeLogger.default_options quiet) "f"
     (VRef 11) (VRef 10);;;
   ScopeLogger.wrapFunction (VRef 10) (ScopeLogger.default_options quiet) "f"
     (VRef 11) (VRef 10)) (state_with_f returns_one true true)
  = ScopeLogger.wrapFunction (VRef 10) (ScopeLogger.default_options quiet) "f"
      (VRef 11) (VRef 10) (state_with_f returns_one true true).
Proof.
  apply (wrapFunction_wraps_once (W := unit) 10 (ScopeLogger.default_options quiet) "f"
           (VRef 11) (VRef 10) (VRef 11) (VRef 10) (state_with_f returns_one true true)).
  - split; discriminate.
  - reflexivity.
Defined.
